(** * A concatenative combinator interpreter: values, reader, reducer

    A shallow embedding of the minimal variant of the interpreter
    (the module exporting [read], [catenate], [evaluate] and [State])
    and of the worker that calls it, then of the extended variant with
    sums and pairs, followed by the properties proved about them.

    Modelling conventions.

    - A JavaScript string is the list of its UTF-16 code units ([list N]).
    - The [Value] classes become one inductive type.  The only object that
      is ever mutated after its construction is the [children] array of a
      [Catenate] ([State.pushCode] calls [Array.prototype.reverse] on it),
      and that array can be reached through several references (a quote
      copied on the data stack, a dictionary binding).  A [Catenate]
      therefore carries the identity [ref] of its array together with the
      contents the array had when it was constructed; the heap records
      which arrays are currently reversed.  Since [reverse] is the only
      mutation, the current contents of an array are its contents at
      construction, reversed or not.
    - The three stacks of [State] are lists.  [code] and [data] are kept
      with the top of the stack at the head of the list (the JavaScript
      array is the reverse of the list); [sink] is kept in array order.
    - A [Panic] that is thrown is the left injection of a sum.  The
      limits of the engine are not modelled: an error of the engine itself,
      such as the [RangeError] of a call stack that is exhausted, is no
      outcome of the model, and what is said of errors is said of the
      panics of the program.
    - [gas] is a JavaScript number.  The loop is first written with a
      natural number that counts down, and then with the binary64 number
      of the code ([loop_number]); the two agree for the integers from 0
      to 2^53.  The calls in the sources leave [gas] at its default,
      1000000. *)

From Stdlib Require Import String Ascii NArith ZArith List Lia Bool.
From Stdlib Require Import SpecFloat.
From stdpp Require Import base gmap.
From Equations Require Import Equations.
Import ListNotations.

#[local] Set Warnings "-register-all".
#[local] Open Scope N_scope.

(** ** Strings and character classes *)

Abbreviation jsstring := (list N).

(** A string literal of the source, as code units. *)
Definition lit (s : string) : jsstring :=
  List.map N_of_ascii (list_ascii_of_string s).

(** The regular expression [/\s/]: the white space and line terminator
    code points of ECMAScript. *)
Definition is_space (c : N) : bool :=
  ((9 <=? c) && (c <=? 13)) || (c =? 32) || (c =? 160) || (c =? 5760)
  || ((8192 <=? c) && (c <=? 8202)) || (c =? 8232) || (c =? 8233)
  || (c =? 8239) || (c =? 8287) || (c =? 12288) || (c =? 65279).

Definition LBRACKET : N := 91.
Definition RBRACKET : N := 93.
Definition DQUOTE : N := 34.
Definition LBRACE : N := 123.
Definition RBRACE : N := 125.
Definition SPACE : N := 32.

(** [_isSeparator]: [/\s|[\[\]]/]. *)
Definition _isSeparator (c : N) : bool :=
  is_space c || (c =? LBRACKET) || (c =? RBRACKET).

(** [/[A-Z]/] and [/[a-z]/]. *)
Definition is_upper (c : N) : bool := (65 <=? c) && (c <=? 90).
Definition is_lower (c : N) : bool := (97 <=? c) && (c <=? 122).

(** The class [[\w-]]: letters, digits, underscore and hyphen. *)
Definition is_name_char (c : N) : bool :=
  is_upper c || is_lower c || ((48 <=? c) && (c <=? 57)) || (c =? 95)
  || (c =? 45).

(** [/^[A-Z][\w-]*$/] and [/^[a-z][\w-]*$/]. *)
Definition matches_constant (name : jsstring) : bool :=
  match name with
  | c :: cs => is_upper c && forallb is_name_char cs
  | [] => false
  end.

Definition matches_variable (name : jsstring) : bool :=
  match name with
  | c :: cs => is_lower c && forallb is_name_char cs
  | [] => false
  end.

(** The inner scanning loops of [read]:
    [while (index < src.length && p(src[index])) index++]. *)
Fixpoint take_while (p : N -> bool) (s : jsstring) : jsstring :=
  match s with
  | c :: s' => if p c then c :: take_while p s' else []
  | [] => []
  end.

Fixpoint drop_while (p : N -> bool) (s : jsstring) : jsstring :=
  match s with
  | c :: s' => if p c then drop_while p s' else s
  | [] => []
  end.

(** A literal in which the apostrophe stands for the double quote. *)
Definition lit_q (s : string) : jsstring :=
  List.map (fun c => if c =? 39 then 34 else c) (lit s).

(** ** Values *)

(** [Var] is the class [Variable] (a reserved word here). *)
Inductive Value : Type :=
| Id
| Constant (name : jsstring)
| Var (name : jsstring)
| Catenate (ref : nat) (children : list Value)
| Quote (body : Value)
| Text (text : jsstring)
| Prompt (prompt : jsstring).

Inductive Panic : Type :=
| NoMoreData
| NoMoreCode
| NoShift
| NoSuchProperty (property : string) (value : Value)
| Unreadable (source : jsstring) (message : jsstring)
| Unexpected (expected : string) (actual : Value)
| Unknown (value : Value).

(** Computations that may throw. *)
Abbreviation Try A := (Panic + A)%type.

Definition bind {A B} (x : Try A) (f : A -> Try B) : Try B :=
  match x with
  | inl p => inl p
  | inr a => f a
  end.

Notation "x <- e ;; k" := (bind e (fun x => k))
  (at level 100, e at next level, right associativity).

(** ** The heap of [children] arrays *)

Record Heap : Type := {
  reversed : gset nat;   (* arrays whose order is currently reversed *)
  next : nat             (* identity of the next array allocated *)
}.

Definition empty_heap : Heap := {| reversed := ∅; next := 0 |}.

Definition is_reversed (h : Heap) (r : nat) : bool :=
  bool_decide (r ∈ reversed h).

(** The present order of an array, given its order at construction. *)
Definition current {A} (h : Heap) (r : nat) (l : list A) : list A :=
  if is_reversed h r then rev l else l.

(** [array.reverse()], in place. *)
Definition reverse_in_place (r : nat) (h : Heap) : Heap :=
  {| reversed := if is_reversed h r then reversed h ∖ {[r]}
                 else reversed h ∪ {[r]};
     next := next h |}.

(** A fresh array, in construction order. *)
Definition alloc (h : Heap) : nat * Heap :=
  (next h, {| reversed := reversed h ∖ {[next h]}; next := S (next h) |}).

(** The accessors of [Value]; the default ones throw. *)
Definition name_of (v : Value) : Try jsstring :=
  match v with
  | Constant name | Var name => inr name
  | _ => inl (NoSuchProperty "name" v)
  end.

Definition text_of (v : Value) : Try jsstring :=
  match v with
  | Text t => inr t
  | _ => inl (NoSuchProperty "string" v)
  end.

Definition body_of (v : Value) : Try Value :=
  match v with
  | Quote b => inr b
  | _ => inl (NoSuchProperty "body" v)
  end.

Definition children_of (h : Heap) (v : Value) : Try (list Value) :=
  match v with
  | Catenate r cs => inr (current h r cs)
  | _ => inl (NoSuchProperty "children" v)
  end.

(** ** Printer *)

(** [Array.prototype.join(" ")]. *)
Fixpoint join (parts : list jsstring) : jsstring :=
  match parts with
  | [] => []
  | p :: ps =>
      match ps with
      | [] => p
      | _ :: _ => p ++ SPACE :: join ps
      end
  end.

(** [toString].  For a [Catenate] the children are rendered in the
    present order of the array. *)
Fixpoint toString (h : Heap) (v : Value) : jsstring :=
  match v with
  | Id => []
  | Constant name => name
  | Var name => name
  | Catenate r cs => join (current h r (List.map (toString h) cs))
  | Quote b => LBRACKET :: toString h b ++ [RBRACKET]
  | Text t => DQUOTE :: t ++ [DQUOTE]
  | Prompt p => LBRACE :: p ++ [RBRACE]
  end.

(** ** The smart constructor [catenate] *)

(** The loop filling [buf]. *)
Fixpoint catenate_buf (h : Heap) (values : list Value) : list Value :=
  match values with
  | [] => []
  | value :: values' =>
      match value with
      | Id => catenate_buf h values'
      | Catenate r cs => current h r cs ++ catenate_buf h values'
      | _ => value :: catenate_buf h values'
      end
  end.

Definition catenate (values : list Value) (h : Heap) : Value * Heap :=
  let buf := catenate_buf h values in
  match buf with
  | [] => (Id, h)
  | _ :: _ => let '(r, h') := alloc h in (Catenate r buf, h')
  end.

(** ** The reader *)

Definition unknown_symbol (name : jsstring) : jsstring :=
  lit "Unknown symbol: " ++ name.

(** The state of the loop of [read]: [rest] is [src] from [index] on. *)
Record Reader : Type := {
  rd_rest : jsstring;
  rd_build : list Value;
  rd_stack : list (list Value);   (* top first *)
  rd_heap : Heap
}.

(** One iteration of the loop of [read], at the character [c]. *)
Definition read_body (source : jsstring) (c : N) (src' : jsstring)
    (build : list Value) (stack : list (list Value)) (h : Heap)
    : Try Reader :=
  if is_space c then
    inr {| rd_rest := drop_while is_space src'; rd_build := build;
           rd_stack := stack; rd_heap := h |}
  else if c =? LBRACKET then
    inr {| rd_rest := src'; rd_build := []; rd_stack := build :: stack;
           rd_heap := h |}
  else if c =? RBRACKET then
    match stack with
    | [] => inl (Unreadable source (lit "Unbalanced brackets"))
    | parent :: stack' =>
        let '(body, h') := catenate build h in
        inr {| rd_rest := src'; rd_build := parent ++ [Quote body];
               rd_stack := stack'; rd_heap := h' |}
    end
  else if c =? DQUOTE then
    match drop_while (fun x => negb (x =? DQUOTE)) src' with
    | [] => inl (Unreadable source (lit "Unbalanced quotes"))
    | _ :: src'' =>
        inr {| rd_rest := src'';
               rd_build :=
                 build ++ [Text (take_while (fun x => negb (x =? DQUOTE)) src')];
               rd_stack := stack; rd_heap := h |}
    end
  else if c =? LBRACE then
    match drop_while (fun x => negb (x =? RBRACE)) src' with
    | [] => inl (Unreadable source (lit "Unbalanced braces"))
    | _ :: src'' =>
        inr {| rd_rest := src'';
               rd_build :=
                 build ++ [Prompt (take_while (fun x => negb (x =? RBRACE)) src')];
               rd_stack := stack; rd_heap := h |}
    end
  else if is_upper c then
    let name := c :: take_while (fun x => negb (_isSeparator x)) src' in
    if matches_constant name then
      inr {| rd_rest := drop_while (fun x => negb (_isSeparator x)) src';
             rd_build := build ++ [Constant name]; rd_stack := stack; rd_heap := h |}
    else inl (Unreadable source (unknown_symbol name))
  else
    let name := c :: take_while (fun x => negb (_isSeparator x)) src' in
    if matches_variable name then
      inr {| rd_rest := drop_while (fun x => negb (_isSeparator x)) src';
             rd_build := build ++ [Var name]; rd_stack := stack; rd_heap := h |}
    else inl (Unreadable source (unknown_symbol name)).

Lemma drop_while_length p s : (length (drop_while p s) <= length s)%nat.
Proof.
  induction s as [|c s IH]; simpl; [lia|].
  destruct (p c); simpl; lia.
Qed.

Lemma read_body_shrinks source c src' b st h r :
  read_body source c src' b st h = inr r ->
  (length (rd_rest r) < length (c :: src'))%nat.
Proof.
  unfold read_body. intros H.
  repeat match type of H with
         | (if ?x then _ else _) = _ => destruct x
         | match ?x with _ => _ end = _ => destruct x eqn:?
         end;
    try discriminate; injection H as <-; simpl;
    try match goal with
        | E : drop_while ?p ?s = _ |- _ =>
            pose proof (drop_while_length p s) as Hl; rewrite E in Hl;
            simpl in Hl
        end;
    try pose proof (drop_while_length is_space src');
    try pose proof
      (drop_while_length (fun x => negb (_isSeparator x)) src');
    lia.
Qed.

(** A value together with the equation that defines it. *)
Definition inspect {A} (a : A) : {b : A | a = b} := exist _ a eq_refl.

(** The loop of [read] and what follows it. *)
Equations? read_loop (source : jsstring) (src : jsstring)
    (build : list Value) (stack : list (list Value)) (h : Heap)
    : Try (Value * Heap) by wf (length src) lt :=
  read_loop source [] build stack h :=
    match stack with
    | _ :: _ => inl (Unreadable source (lit "Unbalanced brackets"))
    | [] => inr (catenate build h)
    end;
  read_loop source (c :: src') build stack h
    with inspect (read_body source c src' build stack h) := {
    | exist _ (inl p) _ := inl p
    | exist _ (inr r) Hr :=
        read_loop source (rd_rest r) (rd_build r) (rd_stack r) (rd_heap r) }.
Proof.
  exact (read_body_shrinks _ _ _ _ _ _ _ Hr).
Qed.

Definition read (src : jsstring) (h : Heap) : Try (Value * Heap) :=
  read_loop src src [] [] h.

(** ** The machine state *)

Record State : Type := {
  code : list Value;   (* top first *)
  data : list Value;   (* top first *)
  sink : list Value    (* in array order *)
}.

(** [new State(value)]. *)
Definition new_State (value : Value) : State :=
  {| code := [value]; data := []; sink := [] |}.

Definition getData (index : nat) (s : State) : Try Value :=
  match nth_error (data s) index with
  | Some v => inr v
  | None => inl NoMoreData
  end.

Definition popData (n : nat) (s : State) : Try State :=
  if (length (data s) <? n)%nat then inl NoMoreData
  else inr {| code := code s; data := skipn n (data s); sink := sink s |}.

(** [pushData] is only ever called with a single value. *)
Definition pushData (value : Value) (s : State) : State :=
  {| code := code s; data := value :: data s; sink := sink s |}.

Definition numCode (s : State) : nat := length (code s).

Definition getCode (index : nat) (s : State) : Try Value :=
  match nth_error (code s) index with
  | Some v => inr v
  | None => inl NoMoreCode
  end.

Definition popCode (n : nat) (s : State) : Try State :=
  if (length (code s) <? n)%nat then inl NoMoreCode
  else inr {| code := skipn n (code s); data := data s; sink := sink s |}.

(** [pushCode] with a single value. *)
Definition pushCode (value : Value) (s : State) : State :=
  {| code := value :: code s; data := data s; sink := sink s |}.

(** [pushCode] with the [children] array [r] of a [Catenate]:
    [this.code.push(...value.reverse())].  The array is reversed in place
    and its elements are pushed in their new order, so that the element
    that was first before the reversal ends on top. *)
Definition pushCode_array (r : nat) (cs : list Value) (s : State) (h : Heap)
    : State * Heap :=
  let h' := reverse_in_place r h in
  ({| code := rev (current h' r cs) ++ code s; data := data s;
      sink := sink s |}, h').

Definition thunk (s : State) : State :=
  let sink' := sink s ++ rev (data s) in
  match code s with
  | [] => {| code := []; data := []; sink := sink' |}
  | top :: code' => {| code := code'; data := []; sink := sink' ++ [top] |}
  end.

(** ** The reducer *)

(** The state of a run: the stacks, the heap and the caller's dictionary
    ([None] when no dictionary was passed). *)
Record Machine : Type := {
  state : State;
  heap : Heap;
  dict : option (gmap jsstring Value)
}.

Definition with_state (s : State) (m : Machine) : Machine :=
  {| state := s; heap := heap m; dict := dict m |}.

(** What an iteration does to [gas] after decrementing it. *)
Inductive Flow : Type :=
| Resume     (* left as it is *)
| Stop.      (* [gas = 0] *)

(** [state.thunk()], then go on or stop. *)
Definition suspend (m : Machine) (f : Flow) : Try (Machine * Flow) :=
  inr (with_state (thunk (state m)) m, f).

(** The scanning loop of [Shift], from position [index] of the code
    stack upwards; [below] is the code stack from that position on. *)
Fixpoint scan_reset (below : list Value) (index : nat) (buf : list Value)
    : list Value * nat :=
  match below with
  | [] => (buf, index)
  | c :: below' =>
      match c with
      | Constant name =>
          if decide (name = lit "Reset") then (buf, index)
          else scan_reset below' (S index) (buf ++ [c])
      | _ => scan_reset below' (S index) (buf ++ [c])
      end
  end.

(** The body of the [try] block of [Shift]. *)
Definition try_shift (m : Machine) : Try Machine :=
  let s := state m in
  top <- getData 0 s ;;
  handler <- body_of top ;;
  let '(buf, index) := scan_reset (skipn 1 (code s)) 1 [] in
  if (numCode s <=? index)%nat then inl NoShift
  else
    let '(body, h') := catenate buf (heap m) in
    s1 <- popCode (index + 1) s ;;
    s2 <- popData 1 s1 ;;
    inr {| state := pushCode handler (pushData (Quote body) s2);
           heap := h'; dict := dict m |}.

(** The cases of the [switch] on the name of a [Constant]. *)

Definition case_Copy (m : Machine) : Try (Machine * Flow) :=
  let s := state m in
  match getData 0 s with
  | inl _ => suspend m Resume
  | inr value =>
      s1 <- popCode 1 s ;;
      inr (with_state (pushData value s1) m, Resume)
  end.

Definition case_Drop (m : Machine) : Try (Machine * Flow) :=
  let s := state m in
  match getData 0 s with
  | inl _ => suspend m Resume
  | inr value =>
      s1 <- popCode 1 s ;;
      s2 <- popData 1 s1 ;;
      inr (with_state s2 m, Resume)
  end.

Definition case_Swap (m : Machine) : Try (Machine * Flow) :=
  let s := state m in
  match (fst <- getData 0 s ;; snd <- getData 1 s ;; inr (fst, snd)) with
  | inl _ => suspend m Resume
  | inr (fst, snd) =>
      s1 <- popCode 1 s ;;
      s2 <- popData 2 s1 ;;
      inr (with_state (pushData snd (pushData fst s2)) m, Resume)
  end.

Definition case_Cat (m : Machine) : Try (Machine * Flow) :=
  let s := state m in
  match (a <- getData 1 s ;; lhs <- body_of a ;;
         b <- getData 0 s ;; rhs <- body_of b ;; inr (lhs, rhs)) with
  | inl _ => suspend m Resume
  | inr (lhs, rhs) =>
      s1 <- popCode 1 s ;;
      s2 <- popData 2 s1 ;;
      let '(body, h') := catenate [lhs; rhs] (heap m) in
      inr ({| state := pushCode (Quote body) s2; heap := h';
              dict := dict m |}, Resume)
  end.

Definition case_Abs (m : Machine) : Try (Machine * Flow) :=
  let s := state m in
  match getData 0 s with
  | inl _ => suspend m Resume
  | inr value =>
      s1 <- popCode 1 s ;;
      s2 <- popData 1 s1 ;;
      inr (with_state (pushData (Quote value) s2) m, Resume)
  end.

Definition case_App (m : Machine) : Try (Machine * Flow) :=
  let s := state m in
  match (a <- getData 0 s ;; body_of a) with
  | inl _ => suspend m Stop
  | inr body =>
      s1 <- popCode 1 s ;;
      s2 <- popData 1 s1 ;;
      inr (with_state (pushCode body s2) m, Resume)
  end.

(** The [try] block shared by [Inl] and [Inr]. *)
Definition try_branches (s : State) : Try (Value * Value * Value) :=
  value <- getData 0 s ;;
  a <- getData 2 s ;; inl_ <- body_of a ;;
  b <- getData 1 s ;; inr_ <- body_of b ;;
  inr (value, inl_, inr_).

Definition case_Inl (m : Machine) : Try (Machine * Flow) :=
  let s := state m in
  match try_branches s with
  | inl _ => suspend m Stop
  | inr (value, inl_, inr_) =>
      s1 <- popCode 1 s ;;
      s2 <- popData 3 s1 ;;
      inr (with_state (pushData value (pushCode inl_ s2)) m, Resume)
  end.

Definition case_Inr (m : Machine) : Try (Machine * Flow) :=
  let s := state m in
  match try_branches s with
  | inl _ => suspend m Stop
  | inr (value, inl_, inr_) =>
      s1 <- popCode 1 s ;;
      s2 <- popData 3 s1 ;;
      inr (with_state (pushData value (pushCode inr_ s2)) m, Resume)
  end.

Definition case_Pair (m : Machine) : Try (Machine * Flow) :=
  let s := state m in
  match (fst <- getData 1 s ;; snd <- getData 0 s ;; inr (fst, snd)) with
  | inl _ => suspend m Resume
  | inr (fst, snd) =>
      s1 <- popCode 1 s ;;
      s2 <- popData 2 s1 ;;
      let '(body, h') := catenate [fst; snd] (heap m) in
      inr ({| state := pushData (Quote body) s2; heap := h';
              dict := dict m |}, Resume)
  end.

Definition case_Shift (m : Machine) : Try (Machine * Flow) :=
  match try_shift m with
  | inl _ => suspend m Stop
  | inr m' => inr (m', Resume)
  end.

Definition case_Reset (m : Machine) : Try (Machine * Flow) :=
  suspend m Stop.

Definition case_Define (m : Machine) : Try (Machine * Flow) :=
  let s := state m in
  match dict m with
  | None => suspend m Stop
  | Some d =>
      match (a <- getData 0 s ;; name <- text_of a ;;
             b <- getData 1 s ;; body <- body_of b ;; inr (name, body)) with
      | inl _ => suspend m Stop
      | inr (name, body) =>
          s1 <- popCode 1 s ;;
          s2 <- popData 2 s1 ;;
          inr ({| state := s2; heap := heap m;
                  dict := Some (<[name := body]> d) |}, Resume)
      end
  end.

Definition case_Delete (m : Machine) : Try (Machine * Flow) :=
  let s := state m in
  match dict m with
  | None => suspend m Stop
  | Some d =>
      match (a <- getData 0 s ;; text_of a) with
      | inl _ => suspend m Stop
      | inr name =>
          s1 <- popCode 1 s ;;
          s2 <- popData 1 s1 ;;
          inr ({| state := s2; heap := heap m;
                  dict := Some (delete name d) |}, Resume)
      end
  end.

(** The names of the [case] labels. *)
Definition combinators : list jsstring :=
  [lit "Copy"; lit "Drop"; lit "Swap"; lit "Cat"; lit "Abs"; lit "App";
   lit "Inl"; lit "Inr"; lit "Pair"; lit "Shift"; lit "Reset";
   lit "Define"; lit "Delete"].

(** The [switch] itself.  It has no [default]: with any other name
    nothing happens. *)
Definition dispatch (name : jsstring) (m : Machine) : Try (Machine * Flow) :=
  if decide (name = lit "Copy") then case_Copy m
  else if decide (name = lit "Drop") then case_Drop m
  else if decide (name = lit "Swap") then case_Swap m
  else if decide (name = lit "Cat") then case_Cat m
  else if decide (name = lit "Abs") then case_Abs m
  else if decide (name = lit "App") then case_App m
  else if decide (name = lit "Inl") then case_Inl m
  else if decide (name = lit "Inr") then case_Inr m
  else if decide (name = lit "Pair") then case_Pair m
  else if decide (name = lit "Shift") then case_Shift m
  else if decide (name = lit "Reset") then case_Reset m
  else if decide (name = lit "Define") then case_Define m
  else if decide (name = lit "Delete") then case_Delete m
  else inr (m, Resume).

(** One iteration of the loop of [evaluate], after [gas--], with
    [hand = state.getCode(0)]. *)
Definition step (hand : Value) (m : Machine) : Try (Machine * Flow) :=
  let s := state m in
  match hand with
  | Catenate r cs =>
      s1 <- popCode 1 s ;;
      let '(s2, h') := pushCode_array r cs s1 (heap m) in
      inr ({| state := s2; heap := h'; dict := dict m |}, Resume)
  | Var name =>
      match dict m with
      | None => suspend m Stop
      | Some d =>
          match d !! name with
          | None => suspend m Stop
          | Some binding =>
              s1 <- popCode 1 s ;;
              inr (with_state (pushCode binding s1) m, Resume)
          end
      end
  | Quote _ | Text _ =>
      s1 <- popCode 1 s ;;
      inr (with_state (pushData hand s1) m, Resume)
  | Prompt _ => suspend m Stop
  | Constant name => dispatch name m
  | Id => inl (Unknown hand)
  end.

(** The loop of [evaluate]: the outcome, and the number of iterations
    that were started.  [hand] is [state.getCode(0)], the head of [code];
    an iteration first decrements [gas]; setting [gas] to 0 ends the loop
    at its next test. *)
Fixpoint loop (gas : nat) (m : Machine) : Try Machine * nat :=
  match code (state m), gas with
  | hand :: _, S gas' =>
      match step hand m with
      | inl p => (inl p, 1%nat)
      | inr (m', Stop) => (inr m', 1%nat)
      | inr (m', Resume) => let '(r, n) := loop gas' m' in (r, S n)
      end
  | _, _ => (inr m, 0%nat)
  end.

(** The residual program: [catenate(...sink, ...data, ...code.toReversed())]. *)
Definition residual (m : Machine) : Value * Heap :=
  let s := state m in
  catenate (sink s ++ rev (data s) ++ code s) (heap m).

(** What a call of [evaluate] leaves: the value returned, the heap and
    the dictionary. *)
Record Result : Type := {
  value : Value;
  final_heap : Heap;
  final_dictionary : option (gmap jsstring Value)
}.

Definition default_gas : Z := 1000000.

(** [evaluate] on a parsed value; [gas] is an integer. *)
Definition evaluate (init : Value) (dictionary : option (gmap jsstring Value))
    (gas : Z) (h : Heap) : Try Result :=
  m <- fst (loop (Z.to_nat gas)
              {| state := new_State init; heap := h;
                 dict := dictionary |}) ;;
  let '(v, h') := residual m in
  inr {| value := v; final_heap := h'; final_dictionary := dict m |}.

(** The number of iterations of the loop in that call. *)
Definition iterations (init : Value)
    (dictionary : option (gmap jsstring Value)) (gas : Z) (h : Heap) : nat :=
  snd (loop (Z.to_nat gas)
         {| state := new_State init; heap := h; dict := dictionary |}).

(** [evaluate] on a source string. *)
Definition evaluate_source (src : jsstring)
    (dictionary : option (gmap jsstring Value)) (gas : Z) (h : Heap)
    : Try Result :=
  p <- read src h ;;
  evaluate (fst p) dictionary gas (snd p).

(** [evaluate(src, dictionary, gas).toString()]. *)
Definition render (r : Try Result) : Try jsstring :=
  x <- r ;; inr (toString (final_heap x) (value x)).

(** ** The gas counter as a number

    [gas] is a JavaScript number: a binary64 value.  The loop of
    [evaluate] tests [gas > 0] and decrements with [gas--], which is the
    IEEE 754 subtraction of 1 with rounding to nearest, ties to even. *)

Definition number : Type := spec_float.

(** The number that an integer literal denotes. *)
Definition number_of_Z (n : Z) : number := binary_normalize 53 1024 n 0 false.

(** [gas > 0]. *)
Definition is_positive (gas : number) : bool := SFltb (S754_zero false) gas.

(** [gas--]. *)
Definition decrement (gas : number) : number :=
  SFsub 53 1024 gas (number_of_Z 1).

(** The loop of [evaluate] with its counter: the outcome and the number
    of iterations that were started, or [None] when the loop has not
    ended after [fuel] iterations. *)
Fixpoint loop_number (fuel : nat) (gas : number) (m : Machine)
    : option (Try Machine * nat) :=
  match code (state m) with
  | [] => Some (inr m, 0%nat)
  | hand :: _ =>
      if is_positive gas then
        match fuel with
        | O => None
        | S fuel' =>
            match step hand m with
            | inl p => Some (inl p, 1%nat)
            | inr (m', Stop) => Some (inr m', 1%nat)
            | inr (m', Resume) =>
                match loop_number fuel' (decrement gas) m' with
                | Some (r, n) => Some (r, S n)
                | None => None
                end
            end
        end
      else Some (inr m, 0%nat)
  end.

(** The number of iterations of a call of [evaluate] whose [gas] is the
    number [gas], when the loop ends within [fuel] iterations. *)
Definition iterations_number (fuel : nat) (init : Value)
    (dictionary : option (gmap jsstring Value)) (gas : number) (h : Heap)
    : option nat :=
  match loop_number fuel gas
          {| state := new_State init; heap := h; dict := dictionary |} with
  | Some (_, n) => Some n
  | None => None
  end.

(** ** The worker

    [netcode/worker.ts]: one dictionary for the life of the worker, and a
    handler that reads and evaluates the code of a message and posts the
    rendering of the result, or the text of an error. *)

Definition LF : N := 10.

(** [String.prototype.trim]: its white space is that of [/\s/]. *)
Definition trim (s : jsstring) : jsstring :=
  rev (drop_while is_space (rev (drop_while is_space s))).

(** The [message] that the constructor of each [Panic] passes on. *)
Definition panic_message (p : Panic) : jsstring :=
  match p with
  | NoMoreData => lit "No more data"
  | NoMoreCode => lit "No more code"
  | NoShift => lit "No shift"
  | NoSuchProperty property _ =>
      lit "No such property: " ++ lit property
  | Unreadable _ message => lit "Unreadable: " ++ message
  | Unexpected _ _ => lit "Unexpected value"
  | Unknown _ => lit "Unknown value"
  end.

(** [`${panic}`], which is [Error.prototype.toString]: the [name], which
    the constructor of [Panic] sets to "Panic", then the message if
    there is one. *)
Definition panic_toString (p : Panic) : jsstring :=
  match panic_message p with
  | [] => lit "Panic"
  | msg => lit "Panic: " ++ msg
  end.

(** The template of the [catch] block, trimmed. *)
Definition error_text (code : jsstring) (panic : Panic) : jsstring :=
  trim (LF :: lit "While evaluating the expression:" ++ LF :: LF :: code
        ++ LF :: LF :: lit "The following error occurred:" ++ LF :: LF
        :: panic_toString panic ++ [LF]).

(** The template of the [catch] block around the text of whatever was
    thrown: the block does not ask what it caught.  [error_text] is this
    template at the text of a panic. *)
Definition error_template (code thrown : jsstring) : jsstring :=
  trim (LF :: lit "While evaluating the expression:" ++ LF :: LF :: code
        ++ LF :: LF :: lit "The following error occurred:" ++ LF :: LF
        :: thrown ++ [LF]).

(** The machine as the loop of [evaluate] leaves it, also when an
    iteration throws: the dictionary and the arrays are objects of the
    caller and outlive the call.  [Unknown] is thrown before the
    iteration changes anything. *)
Fixpoint loop_end (gas : nat) (m : Machine) : Machine :=
  match code (state m), gas with
  | hand :: _, S gas' =>
      match step hand m with
      | inl _ => m
      | inr (m', Stop) => m'
      | inr (m', Resume) => loop_end gas' m'
      end
  | _, _ => m
  end.

(** What lives between two messages: the [dictionary] of the module and
    the arrays. *)
Record Worker : Type := {
  w_dictionary : gmap jsstring Value;
  w_heap : Heap
}.

(** [postMessage({ id, result })] and [postMessage({ id, error })]. *)
Inductive Posted : Type :=
| Posted_result (id : Z) (result : jsstring)
| Posted_error (id : Z) (error : jsstring).

(** The worker after a call of [evaluate] that ended in [m].  The call
    was given a dictionary, so [m] has one: [default] never falls back. *)
Definition worker_after (w : Worker) (m : Machine) (h : Heap) : Worker :=
  {| w_dictionary := default (w_dictionary w) (dict m); w_heap := h |}.

(** [self.onmessage], on the message [{ id, code }].  When [read]
    throws, the arrays it made are referred to by nothing, and the worker
    is as it was. *)
Definition onmessage (id : Z) (code : jsstring) (w : Worker)
    : Posted * Worker :=
  match read code (w_heap w) with
  | inl panic => (Posted_error id (error_text code panic), w)
  | inr (parsed, h1) =>
      let m0 := {| state := new_State parsed; heap := h1;
                   dict := Some (w_dictionary w) |} in
      match fst (loop (Z.to_nat default_gas) m0) with
      | inl panic =>
          let m := loop_end (Z.to_nat default_gas) m0 in
          (Posted_error id (error_text code panic), worker_after w m (heap m))
      | inr m =>
          let '(v, h') := residual m in
          (Posted_result id (toString h' v), worker_after w m h')
      end
  end.

(** * The extended variant

    [dovetale/script.ts]: the same reader and reducer with sums, pairs
    and the unit as values of their own.  [Inl], [Inr] and [Pair] build
    them, [App] runs them through [RunInl], [RunInr] and [RunPair], and
    the reader makes [Unit] of an empty pair of brackets.  The heap, the
    character classes and [join] are those of the minimal variant. *)

Module Extended.

Inductive Value : Type :=
| Id
| Constant (name : jsstring)
| Var (name : jsstring)
| Catenate (ref : nat) (children : list Value)
| Quote (body : Value)
| Inl (enum : Value)
| Inr (enum : Value)
| Unit
| Pair (first second : Value)
| RunInl (enum : Value)
| RunInr (enum : Value)
| RunPair (first second : Value)
| Text (text : jsstring)
| Prompt (prompt : jsstring).

Inductive Panic : Type :=
| NoMoreData
| NoMoreCode
| NoShift
| NoSuchProperty (property : string) (value : Value)
| Unreadable (source : jsstring) (message : jsstring)
| Unexpected (expected : string) (actual : Value)
| Unknown (value : Value).

(** Computations that may throw. *)
Abbreviation Try A := (Panic + A)%type.

Definition bind {A B} (x : Try A) (f : A -> Try B) : Try B :=
  match x with
  | inl p => inl p
  | inr a => f a
  end.

#[local] Set Warnings "-notation-overridden".
Notation "x <- e ;; k" := (bind e (fun x => k))
  (at level 100, e at next level, right associativity).

(** The accessors of [Value]; the default ones throw. *)
Definition name_of (v : Value) : Try jsstring :=
  match v with
  | Constant name | Var name => inr name
  | _ => inl (NoSuchProperty "name" v)
  end.

Definition text_of (v : Value) : Try jsstring :=
  match v with
  | Text t => inr t
  | _ => inl (NoSuchProperty "string" v)
  end.

(** [body]: a quote has one, and so have the sums, the pairs and the
    unit, for which the getter makes a new value. *)
Definition body_of (v : Value) : Try Value :=
  match v with
  | Quote b => inr b
  | Inl e => inr (RunInl e)
  | Inr e => inr (RunInr e)
  | Unit => inr Id
  | Pair a b => inr (RunPair a b)
  | _ => inl (NoSuchProperty "body" v)
  end.

Definition children_of (h : Heap) (v : Value) : Try (list Value) :=
  match v with
  | Catenate r cs => inr (current h r cs)
  | _ => inl (NoSuchProperty "children" v)
  end.

(** [toString]. *)
Fixpoint toString (h : Heap) (v : Value) : jsstring :=
  match v with
  | Id => []
  | Constant name => name
  | Var name => name
  | Catenate r cs => join (current h r (List.map (toString h) cs))
  | Quote b => LBRACKET :: toString h b ++ [RBRACKET]
  | Inl e => toString h e ++ lit " J"
  | Inr e => toString h e ++ lit " K"
  | Unit => lit "[]"
  | Pair a b => toString h a ++ SPACE :: toString h b ++ lit " L"
  | RunInl e => toString h e ++ lit " J H"
  | RunInr e => toString h e ++ lit " K H"
  | RunPair a b => toString h a ++ SPACE :: toString h b ++ lit " L H"
  | Text t => DQUOTE :: t ++ [DQUOTE]
  | Prompt p => LBRACE :: p ++ [RBRACE]
  end.

(** The loop filling [buf]. *)
Fixpoint catenate_buf (h : Heap) (values : list Value) : list Value :=
  match values with
  | [] => []
  | value :: values' =>
      match value with
      | Id => catenate_buf h values'
      | Catenate r cs => current h r cs ++ catenate_buf h values'
      | _ => value :: catenate_buf h values'
      end
  end.

Definition catenate (values : list Value) (h : Heap) : Value * Heap :=
  let buf := catenate_buf h values in
  match buf with
  | [] => (Id, h)
  | _ :: _ => let '(r, h') := alloc h in (Catenate r buf, h')
  end.

(** The state of the loop of [read]: [rest] is [src] from [index] on. *)
Record Reader : Type := {
  rd_rest : jsstring;
  rd_build : list Value;
  rd_stack : list (list Value);   (* top first *)
  rd_heap : Heap
}.

(** One iteration of the loop of [read], at the character [c]. *)
Definition read_body (source : jsstring) (c : N) (src' : jsstring)
    (build : list Value) (stack : list (list Value)) (h : Heap)
    : Try Reader :=
  if is_space c then
    inr {| rd_rest := drop_while is_space src'; rd_build := build;
           rd_stack := stack; rd_heap := h |}
  else if c =? LBRACKET then
    inr {| rd_rest := src'; rd_build := []; rd_stack := build :: stack;
           rd_heap := h |}
  else if c =? RBRACKET then
    match stack with
    | [] => inl (Unreadable source (lit "Unbalanced brackets"))
    | parent :: stack' =>
        let '(body, h') := catenate build h in
        let value := match body with Id => Unit | _ => Quote body end in
        inr {| rd_rest := src'; rd_build := parent ++ [value];
               rd_stack := stack'; rd_heap := h' |}
    end
  else if c =? DQUOTE then
    match drop_while (fun x => negb (x =? DQUOTE)) src' with
    | [] => inl (Unreadable source (lit "Unbalanced quotes"))
    | _ :: src'' =>
        inr {| rd_rest := src'';
               rd_build :=
                 build ++ [Text (take_while (fun x => negb (x =? DQUOTE)) src')];
               rd_stack := stack; rd_heap := h |}
    end
  else if c =? LBRACE then
    match drop_while (fun x => negb (x =? RBRACE)) src' with
    | [] => inl (Unreadable source (lit "Unbalanced braces"))
    | _ :: src'' =>
        inr {| rd_rest := src'';
               rd_build :=
                 build ++ [Prompt (take_while (fun x => negb (x =? RBRACE)) src')];
               rd_stack := stack; rd_heap := h |}
    end
  else if is_upper c then
    let name := c :: take_while (fun x => negb (_isSeparator x)) src' in
    if matches_constant name then
      inr {| rd_rest := drop_while (fun x => negb (_isSeparator x)) src';
             rd_build := build ++ [Constant name]; rd_stack := stack; rd_heap := h |}
    else inl (Unreadable source (unknown_symbol name))
  else
    let name := c :: take_while (fun x => negb (_isSeparator x)) src' in
    if matches_variable name then
      inr {| rd_rest := drop_while (fun x => negb (_isSeparator x)) src';
             rd_build := build ++ [Var name]; rd_stack := stack; rd_heap := h |}
    else inl (Unreadable source (unknown_symbol name)).

Lemma read_body_consumes source c src' b st h r :
  read_body source c src' b st h = inr r ->
  (length (rd_rest r) < length (c :: src'))%nat.
Proof.
  unfold read_body. intros H.
  repeat match type of H with
         | (if ?x then _ else _) = _ => destruct x
         | match ?x with _ => _ end = _ => destruct x eqn:?
         end;
    try discriminate; injection H as <-; simpl;
    try match goal with
        | E : drop_while ?p ?s = _ |- _ =>
            pose proof (drop_while_length p s) as Hl; rewrite E in Hl;
            simpl in Hl
        end;
    try pose proof (drop_while_length is_space src');
    try pose proof
      (drop_while_length (fun x => negb (_isSeparator x)) src');
    lia.
Qed.

(** The loop of [read] and what follows it. *)
Equations? read_loop (source : jsstring) (src : jsstring)
    (build : list Value) (stack : list (list Value)) (h : Heap)
    : Try (Value * Heap) by wf (length src) lt :=
  read_loop source [] build stack h :=
    match stack with
    | _ :: _ => inl (Unreadable source (lit "Unbalanced brackets"))
    | [] => inr (catenate build h)
    end;
  read_loop source (c :: src') build stack h
    with inspect (read_body source c src' build stack h) := {
    | exist _ (inl p) _ := inl p
    | exist _ (inr r) Hr :=
        read_loop source (rd_rest r) (rd_build r) (rd_stack r) (rd_heap r) }.
Proof.
  exact (read_body_consumes _ _ _ _ _ _ _ Hr).
Qed.

Definition read (src : jsstring) (h : Heap) : Try (Value * Heap) :=
  read_loop src src [] [] h.

Record State : Type := {
  code : list Value;   (* top first *)
  data : list Value;   (* top first *)
  sink : list Value    (* in array order *)
}.

(** [new State(value)]. *)
Definition new_State (value : Value) : State :=
  {| code := [value]; data := []; sink := [] |}.

Definition getData (index : nat) (s : State) : Try Value :=
  match nth_error (data s) index with
  | Some v => inr v
  | None => inl NoMoreData
  end.

Definition popData (n : nat) (s : State) : Try State :=
  if (length (data s) <? n)%nat then inl NoMoreData
  else inr {| code := code s; data := skipn n (data s); sink := sink s |}.

(** [pushData] is only ever called with a single value. *)
Definition pushData (value : Value) (s : State) : State :=
  {| code := code s; data := value :: data s; sink := sink s |}.

Definition numCode (s : State) : nat := length (code s).

Definition getCode (index : nat) (s : State) : Try Value :=
  match nth_error (code s) index with
  | Some v => inr v
  | None => inl NoMoreCode
  end.

Definition popCode (n : nat) (s : State) : Try State :=
  if (length (code s) <? n)%nat then inl NoMoreCode
  else inr {| code := skipn n (code s); data := data s; sink := sink s |}.

(** [pushCode] with a single value. *)
Definition pushCode (value : Value) (s : State) : State :=
  {| code := value :: code s; data := data s; sink := sink s |}.

(** [pushCode] with the [children] array [r] of a [Catenate]:
    [this.code.push(...value.reverse())].  The array is reversed in place
    and its elements are pushed in their new order, so that the element
    that was first before the reversal ends on top. *)
Definition pushCode_array (r : nat) (cs : list Value) (s : State) (h : Heap)
    : State * Heap :=
  let h' := reverse_in_place r h in
  ({| code := rev (current h' r cs) ++ code s; data := data s;
      sink := sink s |}, h').

Definition thunk (s : State) : State :=
  let sink' := sink s ++ rev (data s) in
  match code s with
  | [] => {| code := []; data := []; sink := sink' |}
  | top :: code' => {| code := code'; data := []; sink := sink' ++ [top] |}
  end.

(** ** The reducer *)

(** The state of a run: the stacks, the heap and the caller's dictionary
    ([None] when no dictionary was passed). *)
Record Machine : Type := {
  state : State;
  heap : Heap;
  dict : option (gmap jsstring Value)
}.

Definition with_state (s : State) (m : Machine) : Machine :=
  {| state := s; heap := heap m; dict := dict m |}.

(** [state.thunk()], then go on or stop. *)
Definition suspend (m : Machine) (f : Flow) : Try (Machine * Flow) :=
  inr (with_state (thunk (state m)) m, f).

(** The scanning loop of [Shift], from position [index] of the code
    stack upwards; [below] is the code stack from that position on. *)
Fixpoint scan_reset (below : list Value) (index : nat) (buf : list Value)
    : list Value * nat :=
  match below with
  | [] => (buf, index)
  | c :: below' =>
      match c with
      | Constant name =>
          if decide (name = lit "Reset") then (buf, index)
          else scan_reset below' (S index) (buf ++ [c])
      | _ => scan_reset below' (S index) (buf ++ [c])
      end
  end.

(** The body of the [try] block of [Shift]. *)
Definition try_shift (m : Machine) : Try Machine :=
  let s := state m in
  top <- getData 0 s ;;
  handler <- body_of top ;;
  let '(buf, index) := scan_reset (skipn 1 (code s)) 1 [] in
  if (numCode s <=? index)%nat then inl NoShift
  else
    let '(body, h') := catenate buf (heap m) in
    s1 <- popCode (index + 1) s ;;
    s2 <- popData 1 s1 ;;
    inr {| state := pushCode handler (pushData (Quote body) s2);
           heap := h'; dict := dict m |}.

(** The cases of the [switch] on the name of a [Constant]. *)

Definition case_Copy (m : Machine) : Try (Machine * Flow) :=
  let s := state m in
  match getData 0 s with
  | inl _ => suspend m Resume
  | inr value =>
      s1 <- popCode 1 s ;;
      inr (with_state (pushData value s1) m, Resume)
  end.

Definition case_Drop (m : Machine) : Try (Machine * Flow) :=
  let s := state m in
  match getData 0 s with
  | inl _ => suspend m Resume
  | inr value =>
      s1 <- popCode 1 s ;;
      s2 <- popData 1 s1 ;;
      inr (with_state s2 m, Resume)
  end.

Definition case_Swap (m : Machine) : Try (Machine * Flow) :=
  let s := state m in
  match (fst <- getData 0 s ;; snd <- getData 1 s ;; inr (fst, snd)) with
  | inl _ => suspend m Resume
  | inr (fst, snd) =>
      s1 <- popCode 1 s ;;
      s2 <- popData 2 s1 ;;
      inr (with_state (pushData snd (pushData fst s2)) m, Resume)
  end.

Definition case_Cat (m : Machine) : Try (Machine * Flow) :=
  let s := state m in
  match (a <- getData 1 s ;; lhs <- body_of a ;;
         b <- getData 0 s ;; rhs <- body_of b ;; inr (lhs, rhs)) with
  | inl _ => suspend m Resume
  | inr (lhs, rhs) =>
      s1 <- popCode 1 s ;;
      s2 <- popData 2 s1 ;;
      let '(body, h') := catenate [lhs; rhs] (heap m) in
      inr ({| state := pushCode (Quote body) s2; heap := h';
              dict := dict m |}, Resume)
  end.

Definition case_Abs (m : Machine) : Try (Machine * Flow) :=
  let s := state m in
  match getData 0 s with
  | inl _ => suspend m Resume
  | inr value =>
      s1 <- popCode 1 s ;;
      s2 <- popData 1 s1 ;;
      inr (with_state (pushData (Quote value) s2) m, Resume)
  end.

Definition case_App (m : Machine) : Try (Machine * Flow) :=
  let s := state m in
  match (a <- getData 0 s ;; body_of a) with
  | inl _ => suspend m Stop
  | inr body =>
      s1 <- popCode 1 s ;;
      s2 <- popData 1 s1 ;;
      inr (with_state (pushCode body s2) m, Resume)
  end.

Definition case_Inl (m : Machine) : Try (Machine * Flow) :=
  let s := state m in
  match getData 0 s with
  | inl _ => suspend m Resume
  | inr value =>
      s1 <- popCode 1 s ;;
      s2 <- popData 1 s1 ;;
      inr (with_state (pushData (Inl value) s2) m, Resume)
  end.

Definition case_Inr (m : Machine) : Try (Machine * Flow) :=
  let s := state m in
  match getData 0 s with
  | inl _ => suspend m Resume
  | inr value =>
      s1 <- popCode 1 s ;;
      s2 <- popData 1 s1 ;;
      inr (with_state (pushData (Inr value) s2) m, Resume)
  end.

Definition case_Pair (m : Machine) : Try (Machine * Flow) :=
  let s := state m in
  match (fst <- getData 1 s ;; snd <- getData 0 s ;; inr (fst, snd)) with
  | inl _ => suspend m Resume
  | inr (fst, snd) =>
      s1 <- popCode 1 s ;;
      s2 <- popData 2 s1 ;;
      inr (with_state (pushData (Pair fst snd) s2) m, Resume)
  end.

Definition case_Shift (m : Machine) : Try (Machine * Flow) :=
  match try_shift m with
  | inl _ => suspend m Stop
  | inr m' => inr (m', Resume)
  end.

Definition case_Reset (m : Machine) : Try (Machine * Flow) :=
  suspend m Stop.

Definition case_Define (m : Machine) : Try (Machine * Flow) :=
  let s := state m in
  match dict m with
  | None => suspend m Stop
  | Some d =>
      match (a <- getData 0 s ;; name <- text_of a ;;
             b <- getData 1 s ;; body <- body_of b ;; inr (name, body)) with
      | inl _ => suspend m Stop
      | inr (name, body) =>
          s1 <- popCode 1 s ;;
          s2 <- popData 2 s1 ;;
          inr ({| state := s2; heap := heap m;
                  dict := Some (<[name := body]> d) |}, Resume)
      end
  end.

Definition case_Delete (m : Machine) : Try (Machine * Flow) :=
  let s := state m in
  match dict m with
  | None => suspend m Stop
  | Some d =>
      match (a <- getData 0 s ;; text_of a) with
      | inl _ => suspend m Stop
      | inr name =>
          s1 <- popCode 1 s ;;
          s2 <- popData 1 s1 ;;
          inr ({| state := s2; heap := heap m;
                  dict := Some (delete name d) |}, Resume)
      end
  end.

(** The names of the [case] labels. *)
Definition combinators : list jsstring :=
  [lit "Copy"; lit "Drop"; lit "Swap"; lit "Cat"; lit "Abs"; lit "App";
   lit "Inl"; lit "Inr"; lit "Pair"; lit "Shift"; lit "Reset";
   lit "Define"; lit "Delete"].

(** The [switch] itself.  It has no [default]: with any other name
    nothing happens. *)
Definition dispatch (name : jsstring) (m : Machine) : Try (Machine * Flow) :=
  if decide (name = lit "Copy") then case_Copy m
  else if decide (name = lit "Drop") then case_Drop m
  else if decide (name = lit "Swap") then case_Swap m
  else if decide (name = lit "Cat") then case_Cat m
  else if decide (name = lit "Abs") then case_Abs m
  else if decide (name = lit "App") then case_App m
  else if decide (name = lit "Inl") then case_Inl m
  else if decide (name = lit "Inr") then case_Inr m
  else if decide (name = lit "Pair") then case_Pair m
  else if decide (name = lit "Shift") then case_Shift m
  else if decide (name = lit "Reset") then case_Reset m
  else if decide (name = lit "Define") then case_Define m
  else if decide (name = lit "Delete") then case_Delete m
  else inr (m, Resume).

(** The [try] block shared by [RunInl] and [RunInr]. *)
Definition try_branches (s : State) : Try (Value * Value) :=
  a <- getData 1 s ;; inl_ <- body_of a ;;
  b <- getData 0 s ;; inr_ <- body_of b ;;
  inr (inl_, inr_).

(** One iteration of the loop of [evaluate], after [gas--], with
    [hand = state.getCode(0)]. *)
Definition step (hand : Value) (m : Machine) : Try (Machine * Flow) :=
  let s := state m in
  match hand with
  | Catenate r cs =>
      s1 <- popCode 1 s ;;
      let '(s2, h') := pushCode_array r cs s1 (heap m) in
      inr ({| state := s2; heap := h'; dict := dict m |}, Resume)
  | Var name =>
      match dict m with
      | None => suspend m Stop
      | Some d =>
          match d !! name with
          | None => suspend m Stop
          | Some binding =>
              s1 <- popCode 1 s ;;
              inr (with_state (pushCode binding s1) m, Resume)
          end
      end
  | Quote _ | Inl _ | Inr _ | Pair _ _ | Unit | Text _ =>
      s1 <- popCode 1 s ;;
      inr (with_state (pushData hand s1) m, Resume)
  | Prompt _ => suspend m Stop
  | RunInl enum =>
      match try_branches s with
      | inl _ => suspend m Stop
      | inr (inl_, inr_) =>
          s1 <- popCode 1 s ;;
          s2 <- popData 2 s1 ;;
          inr (with_state (pushData enum (pushCode inl_ s2)) m, Resume)
      end
  | RunInr enum =>
      match try_branches s with
      | inl _ => suspend m Stop
      | inr (inl_, inr_) =>
          s1 <- popCode 1 s ;;
          s2 <- popData 2 s1 ;;
          inr (with_state (pushData enum (pushCode inr_ s2)) m, Resume)
      end
  | RunPair fst snd =>
      s1 <- popCode 1 s ;;
      inr (with_state (pushData snd (pushData fst s1)) m, Resume)
  | Constant name => dispatch name m
  | Id => inl (Unknown hand)
  end.

(** The loop of [evaluate]: the outcome, and the number of iterations
    that were started.  [hand] is [state.getCode(0)], the head of [code];
    an iteration first decrements [gas]; setting [gas] to 0 ends the loop
    at its next test. *)
Fixpoint loop (gas : nat) (m : Machine) : Try Machine * nat :=
  match code (state m), gas with
  | hand :: _, S gas' =>
      match step hand m with
      | inl p => (inl p, 1%nat)
      | inr (m', Stop) => (inr m', 1%nat)
      | inr (m', Resume) => let '(r, n) := loop gas' m' in (r, S n)
      end
  | _, _ => (inr m, 0%nat)
  end.

(** The residual program: [catenate(...sink, ...data, ...code.toReversed())]. *)
Definition residual (m : Machine) : Value * Heap :=
  let s := state m in
  catenate (sink s ++ rev (data s) ++ code s) (heap m).

(** What a call of [evaluate] leaves: the value returned, the heap and
    the dictionary. *)
Record Result : Type := {
  value : Value;
  final_heap : Heap;
  final_dictionary : option (gmap jsstring Value)
}.

Definition default_gas : Z := 1000000.

(** [evaluate] on a parsed value; [gas] is an integer. *)
Definition evaluate (init : Value) (dictionary : option (gmap jsstring Value))
    (gas : Z) (h : Heap) : Try Result :=
  m <- fst (loop (Z.to_nat gas)
              {| state := new_State init; heap := h;
                 dict := dictionary |}) ;;
  let '(v, h') := residual m in
  inr {| value := v; final_heap := h'; final_dictionary := dict m |}.

(** The number of iterations of the loop in that call. *)
Definition iterations (init : Value)
    (dictionary : option (gmap jsstring Value)) (gas : Z) (h : Heap) : nat :=
  snd (loop (Z.to_nat gas)
         {| state := new_State init; heap := h; dict := dictionary |}).

(** [evaluate] on a source string. *)
Definition evaluate_source (src : jsstring)
    (dictionary : option (gmap jsstring Value)) (gas : Z) (h : Heap)
    : Try Result :=
  p <- read src h ;;
  evaluate (fst p) dictionary gas (snd p).

(** [evaluate(src, dictionary, gas).toString()]. *)
Definition render (r : Try Result) : Try jsstring :=
  x <- r ;; inr (toString (final_heap x) (value x)).

(** A machine given by its parts. *)
Definition machine (c d k : list Value) (h : Heap)
    (dictionary : option (gmap jsstring Value)) : Machine :=
  {| state := {| code := c; data := d; sink := k |}; heap := h;
     dict := dictionary |}.

End Extended.

(** * The vocabulary of the properties *)

(** The machine after [state.thunk()]. *)
Definition thunked (m : Machine) : Machine := with_state (thunk (state m)) m.

(** The combinators after whose thunk the reducer goes on. *)
Definition continuing : list jsstring :=
  [lit "Copy"; lit "Drop"; lit "Swap"; lit "Cat"; lit "Abs"; lit "Pair"].

(** The instructions at which the reducer stops, when they thunk. *)
Definition stopping : list jsstring :=
  [lit "Reset"; lit "App"; lit "Inl"; lit "Inr"; lit "Shift"; lit "Define";
   lit "Delete"].

(** Whether the data stack holds the arguments a combinator reads, in the
    shape it reads them. *)
Definition has_arguments (name : jsstring) (s : State) : bool :=
  if bool_decide (name = lit "Copy") || bool_decide (name = lit "Drop")
     || bool_decide (name = lit "Abs")
  then match data s with _ :: _ => true | _ => false end
  else if bool_decide (name = lit "Swap") || bool_decide (name = lit "Pair")
  then match data s with _ :: _ :: _ => true | _ => false end
  else if bool_decide (name = lit "Cat")
  then match data s with Quote _ :: Quote _ :: _ => true | _ => false end
  else if bool_decide (name = lit "App")
  then match data s with Quote _ :: _ => true | _ => false end
  else if bool_decide (name = lit "Inl") || bool_decide (name = lit "Inr")
  then match data s with _ :: Quote _ :: Quote _ :: _ => true | _ => false end
  else true.

(** The suspensions after which the reducer stops. *)
Definition terminal (hand : Value) (m : Machine) : Prop :=
  match hand with
  | Prompt _ => True
  | Var name =>
      match dict m with
      | None => True
      | Some d => d !! name = None
      end
  | Constant name => In name stopping
  | _ => False
  end.

(** The instructions that suspend whatever the data stack holds. *)
Definition always_suspends (hand : Value) (m : Machine) : Prop :=
  match hand with
  | Prompt _ => True
  | Var name =>
      match dict m with
      | None => True
      | Some d => d !! name = None
      end
  | Constant name => name = lit "Reset"
  | _ => False
  end.

(** A machine about to run [Inl [a] Copy] on an empty data stack. *)
Definition starved_Inl : Machine :=
  {| state := {| code := [Constant (lit "Inl");
                          Quote (Catenate 0 [Var (lit "a")]);
                          Constant (lit "Copy")];
                 data := []; sink := [] |};
     heap := empty_heap; dict := None |}.

(** The ways in which [Define] and [Delete] fail: no dictionary, too
    few data, a name on top that is not a [Text] and, for [Define], a
    second argument without a body. *)
Definition Define_fails (m : Machine) : Prop :=
  dict m = None
  \/ (length (data (state m)) < 2)%nat
  \/ (exists v, getData 0 (state m) = inr v /\ forall t, v <> Text t)
  \/ (exists v, getData 1 (state m) = inr v /\ forall b, v <> Quote b).

(** The same for [Delete], which reads the name only. *)
Definition Delete_fails (m : Machine) : Prop :=
  dict m = None
  \/ (length (data (state m)) < 1)%nat
  \/ (exists v, getData 0 (state m) = inr v /\ forall t, v <> Text t).

(** What an argument of [catenate] contributes: nothing for [Id], its
    children for a [Catenate], itself otherwise. *)
Definition pieces (h : Heap) (v : Value) : list Value :=
  match v with
  | Id => []
  | Catenate r cs => current h r cs
  | _ => [v]
  end.

(** The delimiter [Shift] looks for. *)
Definition is_Reset (v : Value) : bool :=
  match v with
  | Constant name => bool_decide (name = lit "Reset")
  | _ => false
  end.

(** The ways in which [Shift] fails: no data, a top of the data stack
    without a body, or no [Reset] on the code stack below it. *)
Definition Shift_fails (m : Machine) : Prop :=
  (length (data (state m)) < 1)%nat
  \/ (exists v, getData 0 (state m) = inr v /\ forall b, v <> Quote b)
  \/ forallb (fun v => negb (is_Reset v)) (skipn 1 (code (state m))) = true.

(** Neither [Id] nor a [Catenate]: what [catenate] keeps as it is. *)
Definition is_atom (v : Value) : bool :=
  match v with
  | Id | Catenate _ _ => false
  | _ => true
  end.

(** The structure of a value, with the arrays as they stand. *)
Fixpoint snapshot (h : Heap) (v : Value) : Value :=
  match v with
  | Catenate r cs => Catenate 0 (current h r (List.map (snapshot h) cs))
  | Quote b => Quote (snapshot h b)
  | _ => v
  end.

(** The same with the arrays as they were constructed. *)
Fixpoint erase (v : Value) : Value :=
  match v with
  | Catenate r cs => Catenate 0 (List.map erase cs)
  | Quote b => Quote (erase b)
  | _ => v
  end.

(** [l.length > 0]. *)
Definition nonempty {A} (l : list A) : bool :=
  match l with
  | [] => false
  | _ :: _ => true
  end.

(** The values that [read] builds for one token, none of whose arrays
    is reversed. *)
Fixpoint token (h : Heap) (v : Value) : bool :=
  match v with
  | Constant name => matches_constant name
  | Var name => matches_variable name
  | Text t => forallb (fun c => negb (c =? DQUOTE)) t
  | Prompt p => forallb (fun c => negb (c =? RBRACE)) p
  | Quote Id => true
  | Quote (Catenate r ts) =>
      negb (is_reversed h r) && nonempty ts && forallb (token h) ts
  | _ => false
  end.

(** The values that [read] returns. *)
Definition program (h : Heap) (v : Value) : bool :=
  match v with
  | Id => true
  | Catenate r ts =>
      negb (is_reversed h r) && nonempty ts && forallb (token h) ts
  | _ => false
  end.

(** Arrays that are in construction order in [h] are so in [h']. *)
Definition settles (h h' : Heap) : Prop :=
  forall r, is_reversed h r = false -> is_reversed h' r = false.

(** What may follow a name: the end of the input or a separator. *)
Definition separated (tail : jsstring) : bool :=
  match tail with
  | [] => true
  | c :: _ => _isSeparator c
  end.

(** Reading the rendering of a token appends an equal token to [build]. *)
Definition rereads (h0 : Heap) (t : Value) : Prop :=
  token h0 t = true ->
  forall source b st h tail,
    separated tail = true ->
    exists t' h',
      read_loop source (toString h0 t ++ tail) b st h
      = read_loop source tail (b ++ [t']) st h'
      /\ erase t' = erase t.

(** What [pushData] is given by the loop: quotes and texts. *)
Definition is_literal (v : Value) : bool :=
  match v with
  | Quote _ | Text _ => true
  | _ => false
  end.

(** A machine given by its parts. *)
Definition machine (c d k : list Value) (h : Heap)
    (dictionary : option (gmap jsstring Value)) : Machine :=
  {| state := {| code := c; data := d; sink := k |}; heap := h;
     dict := dictionary |}.

(** The messages of [Unreadable]. *)
Definition reader_message (msg : jsstring) : Prop :=
  msg = lit "Unbalanced brackets" \/ msg = lit "Unbalanced quotes"
  \/ msg = lit "Unbalanced braces" \/ exists name, msg = unknown_symbol name.

(** The characters at which [read] starts a name: no white space, no
    bracket, no double quote and no opening brace. *)
Definition starts_name (c : N) : bool :=
  negb (is_space c || (c =? LBRACKET) || (c =? RBRACKET) || (c =? DQUOTE)
        || (c =? LBRACE)).

(** [name] is the first token of [src] that [read], started with [b], [st]
    and [h], cannot read: [src] is [before], then [name], then [after];
    [name] starts a name and runs up to the next separator or the end of
    the input; it matches neither pattern of its first character; and the
    loop gets through [before], whatever follows it. *)
Definition offends (src : jsstring) (b : list Value)
    (st : list (list Value)) (h : Heap) (name : jsstring) : Prop :=
  exists before after c cs b' st' h',
    src = before ++ name ++ after
    /\ name = c :: cs
    /\ starts_name c = true
    /\ forallb (fun x => negb (_isSeparator x)) cs = true
    /\ separated after = true
    /\ (if is_upper c then matches_constant name else matches_variable name)
       = false
    /\ forall source t,
         read_loop source (before ++ t) b st h = read_loop source t b' st' h'.

(** What [read] reports: one of the three messages on what is unbalanced,
    or the first token that it cannot read. *)
Definition reader_report (src : jsstring) (h : Heap) (msg : jsstring)
    : Prop :=
  msg = lit "Unbalanced brackets" \/ msg = lit "Unbalanced quotes"
  \/ msg = lit "Unbalanced braces"
  \/ exists name, msg = unknown_symbol name /\ offends src [] [] h name.

(** The builds of two runs of the loop of [read] on the same input, the
    second of which started with [p] already built outside all brackets:
    the arrays hold values of the same structure, the outermost one after
    [p] in the second run. *)
Fixpoint follows (p b : list Value) (st : list (list Value))
    (b' : list Value) (st' : list (list Value)) : Prop :=
  forallb is_atom b = true /\ forallb is_atom b' = true
  /\ match st, st' with
     | [], [] => List.map erase b' = p ++ List.map erase b
     | x :: st, x' :: st' =>
         List.map erase b' = List.map erase b /\ follows p x st x' st'
     | _, _ => False
     end.

(** The message that defines [name] as the program [body]. *)
Definition definition (name body : jsstring) : jsstring :=
  LBRACKET :: body ++ RBRACKET :: SPACE :: DQUOTE :: name
  ++ DQUOTE :: SPACE :: lit "Define".

(** Whether the last character of a string is not white space. *)
Definition ends_solid (s : jsstring) : bool :=
  match rev s with
  | c :: _ => negb (is_space c)
  | [] => false
  end.

(** In the extended variant, the values that a source can denote: no
    sum, no pair, none of their running forms, and no quote of [Id]. *)
Fixpoint plain (v : Extended.Value) : bool :=
  match v with
  | Extended.Catenate _ cs => forallb plain cs
  | Extended.Quote Extended.Id => false
  | Extended.Quote b => plain b
  | Extended.Inl _ | Extended.Inr _ | Extended.Pair _ _
  | Extended.RunInl _ | Extended.RunInr _ | Extended.RunPair _ _ => false
  | _ => true
  end.

(** The instructions that suspend under a given dictionary, whatever the
    stacks hold: a prompt, [Reset], and a variable that the dictionary
    does not bind. *)
Definition suspending (dictionary : option (gmap jsstring Value))
    (hand : Value) : Prop :=
  always_suspends hand (machine [] [] [] empty_heap dictionary).

(** Values in which no [Catenate] is empty or holds an [Id] or a
    [Catenate], at any depth. *)
Fixpoint flat (v : Value) : bool :=
  match v with
  | Catenate _ cs => nonempty cs && forallb (fun c => is_atom c && flat c) cs
  | Quote b => flat b
  | _ => true
  end.

(** The normal forms: [Id], and the flat [Catenate]s. *)
Definition normal (v : Value) : bool := negb (is_atom v) && flat v.

(** A dictionary all of whose bindings are flat. *)
Definition flat_bindings (dictionary : option (gmap jsstring Value)) : Prop :=
  match dictionary with
  | None => True
  | Some d => map_Forall (fun _ v => flat v = true) d
  end.

(** A machine that holds flat values only. *)
Definition flat_machine (m : Machine) : Prop :=
  Forall (fun v => flat v = true) (code (state m))
  /\ Forall (fun v => flat v = true) (data (state m))
  /\ Forall (fun v => flat v = true) (sink (state m))
  /\ flat_bindings (dict m).

(** The mantissa and the exponent of a positive integer of at most 53
    bits. *)
Definition mantissa_of (p : positive) : positive :=
  match (53 - Zpos (digits2_pos p))%Z with
  | Zpos k => Pos.iter xO p k
  | _ => p
  end.

Definition exponent_of (p : positive) : Z := (Zpos (digits2_pos p) - 53)%Z.

(** * Properties *)

(** ** The stack operators *)

(** On a non-empty code stack [getCode(0)] is the head of the list and
    [popCode()] removes it. *)
Lemma getCode_0 s hand below :
  code s = hand :: below -> getCode 0 s = inr hand.
Proof. intros H. unfold getCode. rewrite H. reflexivity. Qed.

Lemma popCode_1 s hand below :
  code s = hand :: below ->
  popCode 1 s = inr {| code := below; data := data s; sink := sink s |}.
Proof. intros H. unfold popCode. rewrite H. reflexivity. Qed.

(** ** The [switch] *)

Lemma dispatch_unknown name m :
  ~ In name combinators -> dispatch name m = inr (m, Resume).
Proof.
  intros H. unfold dispatch.
  repeat (destruct (decide _) as [->|_];
          [exfalso; apply H; unfold combinators; simpl; tauto|]).
  reflexivity.
Qed.

(** ** Gas *)

Lemma loop_iterations gas m : (snd (loop gas m) <= gas)%nat.
Proof.
  revert m. induction gas as [|gas IH]; intros m; simpl.
  - destruct (code (state m)); simpl; lia.
  - destruct (code (state m)) as [|hand below]; simpl; [lia|].
    destruct (step hand m) as [p|[m' [|]]]; simpl; try lia.
    specialize (IH m'). destruct (loop gas m') as [r n]. simpl in *. lia.
Qed.

(** *** Counting down with a binary64 number *)

Lemma iter_xO_Z p k : Zpos (Pos.iter xO p k) = (Zpos p * 2 ^ Zpos k)%Z.
Proof.
  induction k as [|k IH] using Pos.peano_ind.
  - simpl. lia.
  - rewrite Pos.iter_succ, Pos2Z.inj_xO, IH, Pos2Z.inj_succ, Z.pow_succ_r by lia.
    lia.
Qed.

Lemma digits2_iter_xO p k :
  digits2_pos (Pos.iter xO p k) = (digits2_pos p + k)%positive.
Proof.
  induction k as [|k IH] using Pos.peano_ind.
  - simpl. lia.
  - rewrite Pos.iter_succ. simpl. rewrite IH. lia.
Qed.

Lemma iter_pos_swap {A} (f : A -> A) k x :
  SpecFloat.iter_pos f k (f x) = f (SpecFloat.iter_pos f k x).
Proof.
  revert x. induction k as [k IH|k IH|]; intros x; simpl.
  - rewrite !IH. reflexivity.
  - rewrite !IH. reflexivity.
  - reflexivity.
Qed.

Lemma iter_pos_iter {A} (f : A -> A) k x :
  SpecFloat.iter_pos f k x = Pos.iter f x k.
Proof.
  revert x. induction k as [k IH|k IH|]; intros x; simpl.
  - rewrite !iter_pos_swap, !IH. reflexivity.
  - rewrite !IH. reflexivity.
  - reflexivity.
Qed.

Lemma iter_pos_succ {A} (f : A -> A) k x :
  SpecFloat.iter_pos f (Pos.succ k) x = SpecFloat.iter_pos f k (f x).
Proof.
  rewrite !iter_pos_iter, Pos.iter_succ, Pos.iter_swap. reflexivity.
Qed.

(** Shifting right what was shifted left loses nothing. *)
Lemma shr_iter_xO m k :
  SpecFloat.iter_pos shr_1 k
    {| shr_m := Zpos (Pos.iter xO m k); shr_r := false; shr_s := false |}
  = {| shr_m := Zpos m; shr_r := false; shr_s := false |}.
Proof.
  induction k as [|k IH] using Pos.peano_ind.
  - reflexivity.
  - rewrite iter_pos_succ, Pos.iter_succ. simpl. exact IH.
Qed.

(** A mantissa of 53 bits with an exponent in range is kept as it is. *)
Lemma round_aux_exact s m0 e0 :
  digits2_pos m0 = 53%positive -> (-1074 <= e0 <= 971)%Z ->
  binary_round_aux 53 1024 s (Zpos m0) e0 loc_Exact = S754_finite s m0 e0.
Proof.
  intros Hd He.
  assert (E : (fexp 53 1024 (Zdigits2 (Zpos m0) + e0) - e0 = 0)%Z).
  { unfold fexp, emin, Zdigits2. rewrite Hd. lia. }
  unfold binary_round_aux, shr_fexp. rewrite E. cbn [shr shr_record_of_loc].
  cbn [shr_m loc_of_shr_record round_nearest_even]. rewrite E. cbn [shr shr_m].
  destruct (Z.leb_spec e0 (1024 - 53)); [reflexivity|lia].
Qed.

(** So is one that comes with [k] more bits, all zero. *)
Lemma round_aux_shifted s m0 e0 k :
  digits2_pos m0 = 53%positive -> (-1074 <= e0 <= 971)%Z ->
  binary_round_aux 53 1024 s (Zpos (Pos.iter xO m0 k)) (e0 - Zpos k) loc_Exact
  = S754_finite s m0 e0.
Proof.
  intros Hd He.
  assert (E : (fexp 53 1024 (Zdigits2 (Zpos (Pos.iter xO m0 k))
                             + (e0 - Zpos k)) - (e0 - Zpos k)
               = Zpos k)%Z).
  { unfold fexp, emin, Zdigits2. rewrite digits2_iter_xO, Hd. lia. }
  assert (E0 : (fexp 53 1024 (Zdigits2 (Zpos m0) + e0) - e0 = 0)%Z).
  { unfold fexp, emin, Zdigits2. rewrite Hd. lia. }
  unfold binary_round_aux, shr_fexp at 1. rewrite E.
  cbn [shr shr_record_of_loc]. rewrite shr_iter_xO.
  replace (e0 - Zpos k + Zpos k)%Z with e0 by lia.
  cbn [shr_m loc_of_shr_record round_nearest_even].
  unfold shr_fexp. rewrite E0. cbn [shr shr_record_of_loc shr_m].
  destruct (Z.leb_spec e0 (1024 - 53)); [reflexivity|lia].
Qed.

Lemma digits2_mantissa p :
  (Zpos (digits2_pos p) <= 53)%Z -> digits2_pos (mantissa_of p) = 53%positive.
Proof.
  intros H. unfold mantissa_of.
  destruct (53 - Zpos (digits2_pos p))%Z as [|k|k] eqn:E; try lia.
  rewrite digits2_iter_xO. lia.
Qed.

Lemma number_of_pos p :
  (Zpos (digits2_pos p) <= 53)%Z ->
  number_of_Z (Zpos p) = S754_finite false (mantissa_of p) (exponent_of p).
Proof.
  intros H. pose proof (digits2_mantissa p H) as Hm.
  unfold number_of_Z, binary_normalize, binary_round, shl_align.
  assert (F : fexp 53 1024 (Zpos (digits2_pos p) + 0) = exponent_of p).
  { unfold fexp, emin, exponent_of. lia. }
  rewrite F. unfold mantissa_of in *. unfold exponent_of at 1.
  destruct (53 - Zpos (digits2_pos p))%Z as [|k|k] eqn:E; try lia.
  - replace (Zpos (digits2_pos p) - 53 - 0)%Z with 0%Z by lia.
    replace 0%Z with (exponent_of p) at 1 by (unfold exponent_of; lia).
    apply round_aux_exact; [exact Hm|unfold exponent_of; lia].
  - replace (Zpos (digits2_pos p) - 53 - 0)%Z with (Zneg k) by lia.
    apply round_aux_exact; [exact Hm|unfold exponent_of; lia].
Qed.

Lemma mantissa_Z p :
  (Zpos (digits2_pos p) <= 53)%Z ->
  Zpos (mantissa_of p) = (Zpos p * 2 ^ (53 - Zpos (digits2_pos p)))%Z.
Proof.
  intros H. unfold mantissa_of.
  destruct (53 - Zpos (digits2_pos p))%Z as [|k|k] eqn:E; try lia.
  apply iter_xO_Z.
Qed.

(** An integer of at most 53 bits with 52 more bits, all zero. *)
Lemma round_scaled p :
  (Zpos (digits2_pos p) <= 53)%Z ->
  binary_round 53 1024 false (Pos.iter xO p 52) (-52)
  = S754_finite false (mantissa_of p) (exponent_of p).
Proof.
  intros H. pose proof (digits2_mantissa p H) as Hm.
  unfold binary_round, shl_align.
  assert (F : fexp 53 1024 (Zpos (digits2_pos (Pos.iter xO p 52)) + -52)
              = exponent_of p).
  { rewrite digits2_iter_xO. unfold fexp, emin, exponent_of. lia. }
  rewrite F.
  destruct (exponent_of p - -52)%Z as [|j|j] eqn:E;
    try (unfold exponent_of in E; lia).
  - assert (M : mantissa_of p = Pos.iter xO p 52).
    { unfold mantissa_of. unfold exponent_of in E.
      replace (53 - Zpos (digits2_pos p))%Z with 52%Z by lia. reflexivity. }
    rewrite <- M. replace (-52)%Z with (exponent_of p) by lia.
    apply round_aux_exact; [exact Hm|unfold exponent_of; lia].
  - assert (M : Pos.iter xO p 52 = Pos.iter xO (mantissa_of p) j).
    { apply Pos2Z.inj. rewrite !iter_xO_Z, (mantissa_Z p H).
      rewrite <- Z.mul_assoc, <- Z.pow_add_r by (unfold exponent_of in E; lia).
      do 2 f_equal. unfold exponent_of in E. lia. }
    rewrite M. replace (-52)%Z with (exponent_of p - Zpos j)%Z by lia.
    apply round_aux_shifted; [exact Hm|unfold exponent_of in *; lia].
Qed.

Lemma number_one : number_of_Z 1 = S754_finite false 4503599627370496 (-52).
Proof. reflexivity. Qed.

Lemma digits2_pred p :
  (Zpos (digits2_pos (Pos.pred p)) <= Zpos (digits2_pos p))%Z.
Proof.
  assert (Mono : forall a b, (a <= b)%positive ->
                             (digits2_pos a <= digits2_pos b)%positive).
  { intros a. induction a as [a IH|a IH|]; intros [b|b|] Hab; simpl;
      try lia; try (specialize (IH b); lia). }
  pose proof (Mono (Pos.pred p) p). lia.
Qed.

(** [gas--] on a positive integer of at most 53 bits is exact. *)
Lemma decrement_pos p :
  (Zpos (digits2_pos p) <= 53)%Z ->
  decrement (number_of_Z (Zpos p)) = number_of_Z (Zpos p - 1).
Proof.
  intros H. unfold decrement. rewrite (number_of_pos p H), number_one.
  unfold SFsub.
  assert (Emin : Z.min (exponent_of p) (-52) = (-52)%Z)
    by (unfold exponent_of; lia).
  rewrite Emin.
  assert (A : fst (shl_align (mantissa_of p) (exponent_of p) (-52))
              = Pos.iter xO p 52).
  { unfold shl_align.
    destruct (-52 - exponent_of p)%Z as [|j|j] eqn:E;
      try (unfold exponent_of in E; lia); cbn [fst].
    - unfold mantissa_of. unfold exponent_of in E.
      replace (53 - Zpos (digits2_pos p))%Z with 52%Z by lia. reflexivity.
    - apply Pos2Z.inj. rewrite !iter_xO_Z, (mantissa_Z p H).
      rewrite <- Z.mul_assoc, <- Z.pow_add_r by (unfold exponent_of in E; lia).
      do 2 f_equal. unfold exponent_of in E. lia. }
  rewrite A. change (fst (shl_align 4503599627370496 (-52) (-52)))
    with (Pos.iter xO 1%positive 52).
  cbn [cond_Zopp].
  destruct (Pos.eq_dec p 1%positive) as [->|Hp].
  - reflexivity.
  - assert (S : (Zpos (Pos.iter xO p 52) - Zpos (Pos.iter xO 1%positive 52))%Z
                = Zpos (Pos.iter xO (Pos.pred p) 52)).
    { rewrite !iter_xO_Z. lia. }
    rewrite S. cbn [binary_normalize].
    assert (Hq : (Zpos (digits2_pos (Pos.pred p)) <= 53)%Z)
      by (pose proof (digits2_pred p); lia).
    rewrite (round_scaled _ Hq).
    replace (Zpos p - 1)%Z with (Zpos (Pos.pred p)) by lia.
    symmetry. apply number_of_pos, Hq.
Qed.

Lemma digits2_lower p : (2 ^ (Zpos (digits2_pos p) - 1) <= Zpos p)%Z.
Proof.
  induction p as [p IH|p IH|]; simpl digits2_pos.
  - rewrite Pos2Z.inj_succ.
    replace (Z.succ (Zpos (digits2_pos p)) - 1)%Z
      with (Z.succ (Zpos (digits2_pos p) - 1)) by lia.
    rewrite Z.pow_succ_r by lia. lia.
  - rewrite Pos2Z.inj_succ.
    replace (Z.succ (Zpos (digits2_pos p)) - 1)%Z
      with (Z.succ (Zpos (digits2_pos p) - 1)) by lia.
    rewrite Z.pow_succ_r by lia. lia.
  - simpl. lia.
Qed.

Lemma digits2_small p :
  (Zpos p < 2 ^ 53)%Z -> (Zpos (digits2_pos p) <= 53)%Z.
Proof.
  intros H. pose proof (digits2_lower p) as L.
  destruct (Z.le_gt_cases (Zpos (digits2_pos p)) 53) as [|G]; [assumption|].
  assert (2 ^ 53 <= 2 ^ (Zpos (digits2_pos p) - 1))%Z
    by (apply Z.pow_le_mono_r; lia).
  lia.
Qed.

(** [gas--] is exact on the integers from 1 to 2^53. *)
Lemma decrement_integer g :
  (1 <= g <= 2 ^ 53)%Z -> decrement (number_of_Z g) = number_of_Z (g - 1).
Proof.
  intros H. destruct (Z.eq_dec g (2 ^ 53)%Z) as [->|N];
    [vm_compute; reflexivity|].
  destruct g as [|p|p]; try lia.
  apply decrement_pos, digits2_small. lia.
Qed.

(** [gas > 0] on the integers from 0 to 2^53. *)
Lemma is_positive_integer g :
  (0 <= g <= 2 ^ 53)%Z -> is_positive (number_of_Z g) = (0 <? g)%Z.
Proof.
  intros H. destruct (Z.eq_dec g (2 ^ 53)%Z) as [->|N];
    [vm_compute; reflexivity|].
  destruct g as [|p|p]; try lia; [reflexivity|].
  rewrite number_of_pos by (apply digits2_small; lia). reflexivity.
Qed.

(** With an integer gas up to 2^53 the loop counts as the integers do. *)
Lemma loop_number_integer k :
  forall fuel m,
    (k <= fuel)%nat -> (Z.of_nat k <= 2 ^ 53)%Z ->
    loop_number fuel (number_of_Z (Z.of_nat k)) m = Some (loop k m).
Proof.
  induction k as [|k IH]; intros fuel m Hf Hk.
  - destruct fuel; simpl; destruct (code (state m)); reflexivity.
  - destruct fuel as [|fuel]; [lia|].
    cbn [loop_number loop].
    destruct (code (state m)) as [|hand below]; [reflexivity|].
    rewrite is_positive_integer by lia.
    destruct (Z.ltb_spec 0 (Z.of_nat (S k))); [|lia].
    destruct (step hand m) as [p|[m' [|]]]; try reflexivity.
    rewrite decrement_integer by lia.
    replace (Z.of_nat (S k) - 1)%Z with (Z.of_nat k) by lia.
    rewrite IH by lia. destruct (loop k m'). reflexivity.
Qed.

(** C8, as the code has it.  [gas] is a number.  When it is an integer
    from 0 to 2^53, a call of [evaluate] ends (it returns the residual or
    throws) after at most [gas] iterations of its dispatch loop, whatever
    the initial value and the dictionary: [gas--] is then exact, and the
    loop counts as the integers do. *)
Theorem gas_bounds_iterations init dictionary gas h fuel :
  (0 <= gas <= 2 ^ 53)%Z -> (Z.to_nat gas <= fuel)%nat ->
  iterations_number fuel init dictionary (number_of_Z gas) h
  = Some (iterations init dictionary gas h)
  /\ (Z.of_nat (iterations init dictionary gas h) <= gas)%Z.
Proof.
  intros Hgas Hfuel. unfold iterations_number, iterations. split.
  - replace gas with (Z.of_nat (Z.to_nat gas)) at 1 by lia.
    rewrite loop_number_integer by lia. destruct (loop _ _). reflexivity.
  - pose proof (loop_iterations (Z.to_nat gas)
      {| state := new_State init; heap := h; dict := dictionary |}).
    lia.
Qed.

Lemma gas_bounds_iterations_witness :
  ((0 <= 5 <= 2 ^ 53)%Z /\ (Z.to_nat 5 <= 5)%nat)
  /\ iterations_number 5 (Constant (lit "Foo")) None (number_of_Z 5)
       empty_heap
     = Some (iterations (Constant (lit "Foo")) None 5 empty_heap)
  /\ (Z.of_nat (iterations (Constant (lit "Foo")) None 5 empty_heap) <= 5)%Z.
Proof.
  assert (H1 : (0 <= 5 <= 2 ^ 53)%Z) by (simpl; lia).
  assert (H2 : (Z.to_nat 5 <= 5)%nat) by (simpl; lia).
  split; [split; assumption|].
  exact (gas_bounds_iterations (Constant (lit "Foo")) None 5 empty_heap 5
           H1 H2).
Defined.

(** C8 as stated fails for a gas that is no integer or is too large.
    With gas 0.5 the loop runs once, and with gas 2.5 three times: the
    test [gas > 0] lets a fraction through.  From 2^53 + 4 on, [gas--]
    rounds back to the same number, and a program that does not stop by
    itself, such as the unknown constant [Foo], never returns. *)
Lemma fractional_gas_runs_over :
  iterations_number 1 (Constant (lit "Foo")) None
    (S754_finite false 4503599627370496 (-53)) empty_heap = Some 1%nat
  /\ SFltb (S754_finite false 4503599627370496 (-53)) (number_of_Z 1) = true
  /\ iterations_number 3 (Constant (lit "Foo")) None
       (S754_finite false 5629499534213120 (-51)) empty_heap = Some 3%nat
  /\ SFltb (S754_finite false 5629499534213120 (-51)) (number_of_Z 3) = true
  /\ decrement (number_of_Z (2 ^ 53 + 4)) = number_of_Z (2 ^ 53 + 4)
  /\ forall fuel,
       iterations_number fuel (Constant (lit "Foo")) None
         (number_of_Z (2 ^ 53 + 4)) empty_heap = None.
Proof.
  repeat (split; [vm_compute; reflexivity|]).
  intros fuel. unfold iterations_number.
  assert (L : forall n m,
            code (state m) = [Constant (lit "Foo")] ->
            loop_number n (number_of_Z (2 ^ 53 + 4)) m = None).
  { induction n as [|n IH]; intros m Hm; cbn [loop_number]; rewrite Hm.
    - reflexivity.
    - change (is_positive (number_of_Z (2 ^ 53 + 4))) with true. cbn [step].
      rewrite dispatch_unknown by (vm_compute; intuition discriminate).
      change (decrement (number_of_Z (2 ^ 53 + 4)))
        with (number_of_Z (2 ^ 53 + 4)).
      rewrite (IH m Hm). reflexivity. }
  rewrite L; reflexivity.
Qed.

(** ** Suspension *)

(** Case analysis on everything an iteration inspects. *)
Ltac split_step H :=
  unfold suspend, bind in H;
  repeat (match type of H with
          | context [match ?x with _ => _ end] => destruct x eqn:?
          | context [if ?x then _ else _] => destruct x eqn:?
          end; try discriminate H; simpl in H).

Lemma continuing_resume name m m' f :
  In name continuing -> dispatch name m = inr (m', f) -> f = Resume.
Proof.
  unfold continuing. simpl. intros Hin H.
  repeat (destruct Hin as [<-|Hin]; [|]); try contradiction;
    cbv [dispatch] in H; simpl in H;
    cbv [case_Copy case_Drop case_Swap case_Cat case_Abs case_Pair] in H;
    split_step H; congruence.
Qed.

Lemma stop_is_terminal hand m m' :
  step hand m = inr (m', Stop) -> m' = thunked m /\ terminal hand m.
Proof.
  intros H. destruct hand as [|name|name|r cs|b|t|p]; simpl in H.
  - discriminate.
  - unfold dispatch in H.
    repeat (destruct (decide _) as [->|_];
            [cbv [case_Copy case_Drop case_Swap case_Cat case_Abs case_App
                  case_Inl case_Inr case_Pair case_Shift case_Reset
                  case_Define case_Delete] in H;
             split_step H; try discriminate H;
             injection H as <-; (split; [reflexivity|]);
             unfold terminal, stopping; simpl; tauto|]).
    discriminate.
  - split_step H; try discriminate H; injection H as <-;
      (split; [reflexivity|]); unfold terminal;
      match goal with E : dict m = _ |- _ => rewrite E end; auto.
  - split_step H; discriminate.
  - split_step H; discriminate.
  - split_step H; discriminate.
  - unfold suspend in H. injection H as <-. split; [reflexivity|exact I].
Qed.

Lemma starved_thunks name m :
  In name continuing \/ In name [lit "App"; lit "Inl"; lit "Inr"] ->
  has_arguments name (state m) = false ->
  exists f, dispatch name m = inr (thunked m, f).
Proof.
  unfold continuing. simpl. intros Hin Ha.
  assert (Hn : In name [lit "Copy"; lit "Drop"; lit "Swap"; lit "Cat";
                        lit "Abs"; lit "Pair"; lit "App"; lit "Inl";
                        lit "Inr"]) by (simpl; tauto).
  clear Hin. simpl in Hn.
  repeat (destruct Hn as [<-|Hn]; [|]); try contradiction;
    cbv [has_arguments] in Ha; simpl in Ha;
    cbv [dispatch]; simpl;
    cbv [case_Copy case_Drop case_Swap case_Cat case_Abs case_Pair case_App
         case_Inl case_Inr try_branches getData suspend bind];
    destruct (data (state m)) as [|a [|b [|c l]]]; simpl in *;
    try discriminate Ha; eauto;
    repeat match goal with
           | |- context [body_of ?v] =>
               is_var v; destruct v; simpl in *; try discriminate Ha
           end; eauto.
Qed.

Lemma always_suspends_stops hand m :
  always_suspends hand m -> step hand m = inr (thunked m, Stop).
Proof.
  destruct hand as [|name|name|r cs|b|t|p]; simpl; try contradiction.
  - intros ->. reflexivity.
  - unfold suspend, thunked. destruct (dict m) as [d|]; [|reflexivity].
    intros ->. reflexivity.
  - reflexivity.
Qed.

(** A scan that meets no [Reset] runs to the end of the code stack. *)
Lemma scan_reset_misses below index buf :
  forallb (fun v => negb (is_Reset v)) below = true ->
  scan_reset below index buf = (buf ++ below, (index + length below)%nat).
Proof.
  revert index buf. induction below as [|c below IH]; intros index buf H.
  - simpl. rewrite app_nil_r, Nat.add_0_r. reflexivity.
  - simpl in H. apply andb_prop in H as [Hc H].
    assert (E : scan_reset (c :: below) index buf
                = scan_reset below (S index) (buf ++ [c])).
    { simpl. destruct c; try reflexivity.
      destruct (decide _) as [->|_]; [|reflexivity].
      vm_compute in Hc. discriminate Hc. }
    rewrite E, IH by exact H. rewrite <- app_assoc. simpl. f_equal. lia.
Qed.

(** A failing [Shift] thunks and stops the reducer. *)
Lemma failing_Shift_stops m :
  Shift_fails m ->
  step (Constant (lit "Shift")) m = inr (thunked m, Stop).
Proof.
  intros H.
  assert (E : exists p, try_shift m = inl p).
  { unfold try_shift, getData.
    destruct (data (state m)) as [|top ds] eqn:Ed;
      [eexists; reflexivity|]. cbn [nth_error bind].
    destruct top as [| | | |body| |] eqn:Et;
      try (eexists; reflexivity). cbn [body_of bind].
    destruct H as [H|[(v & Hv & Hn)|H]].
    - rewrite Ed in H. simpl in H. lia.
    - unfold getData in Hv. rewrite Ed in Hv. injection Hv as <-.
      exfalso. apply (Hn body). reflexivity.
    - rewrite (scan_reset_misses (skipn 1 (code (state m))) 1 [] H).
      unfold numCode. rewrite length_skipn.
      destruct (Nat.leb_spec (length (code (state m)))
                  (1 + (length (code (state m)) - 1)));
        [eexists; reflexivity|lia]. }
  destruct E as [p E].
  change (step (Constant (lit "Shift")) m) with (dispatch (lit "Shift") m).
  cbv [dispatch]. simpl. unfold case_Shift. rewrite E. reflexivity.
Qed.

(** A failing [Define] or [Delete] thunks and stops the reducer. *)
Lemma failing_definition_stops name m :
  (name = lit "Define" /\ Define_fails m)
  \/ (name = lit "Delete" /\ Delete_fails m) ->
  step (Constant name) m = inr (thunked m, Stop).
Proof.
  intros H.
  destruct H as [[-> H]|[-> H]]; simpl; cbv [dispatch]; simpl;
    cbv [case_Define case_Delete suspend bind getData];
    destruct (dict m) as [d|] eqn:Ed; try reflexivity;
    unfold Define_fails, Delete_fails, getData in H; rewrite Ed in H;
    destruct (data (state m)) as [|a [|b l]]; simpl in *; try reflexivity;
    destruct a; try reflexivity; try (destruct b; try reflexivity);
    exfalso;
    repeat match type of H with
           | _ \/ _ => destruct H as [H|H]
           end;
    try discriminate H; try lia;
    destruct H as (v & Hv & Hn); injection Hv as <-; eapply Hn; reflexivity.
Qed.

(** C5, as the code has it.  A starved [Copy], [Drop], [Swap], [Cat],
    [Abs] or [Pair] thunks and lets the reducer go on: none of them ever
    sets [gas] to 0.  [gas] is set to 0 only by a thunk, and only at a
    [Prompt], an unresolved variable, [Reset], or one of [App], [Inl],
    [Inr], [Shift], [Define], [Delete]; a [Prompt], an unresolved
    variable and [Reset] always stop the reducer, and so does a starved
    [App], [Inl] or [Inr], and a failing [Shift], [Define] or
    [Delete]. *)
Theorem thunk_flow hand m m' f :
  step hand m = inr (m', f) ->
  (forall name, hand = Constant name -> In name continuing ->
     f = Resume /\ (has_arguments name (state m) = false -> m' = thunked m))
  /\ (f = Stop -> m' = thunked m /\ terminal hand m)
  /\ (always_suspends hand m -> m' = thunked m /\ f = Stop)
  /\ (forall name, hand = Constant name ->
        In name [lit "App"; lit "Inl"; lit "Inr"] ->
        has_arguments name (state m) = false -> m' = thunked m /\ f = Stop)
  /\ ((hand = Constant (lit "Shift") /\ Shift_fails m)
      \/ (hand = Constant (lit "Define") /\ Define_fails m)
      \/ (hand = Constant (lit "Delete") /\ Delete_fails m) ->
      m' = thunked m /\ f = Stop).
Proof.
  intros H. split; [|split; [|split; [|split]]].
  - intros name -> Hin. simpl in H. split.
    + eapply continuing_resume; eauto.
    + intros Ha. destruct (starved_thunks name m (or_introl Hin) Ha) as [f' E].
      congruence.
  - intros ->. apply stop_is_terminal. exact H.
  - intros Ha. rewrite (always_suspends_stops hand m Ha) in H.
    injection H as <- <-. auto.
  - intros name -> Hin Ha. simpl in H.
    destruct (starved_thunks name m (or_intror Hin) Ha) as [f' E].
    rewrite E in H. injection H as <- <-. split; [reflexivity|].
    simpl in Hin.
    repeat (destruct Hin as [<-|Hin]; [|]); try contradiction;
      cbv [has_arguments] in Ha; simpl in Ha;
      cbv [dispatch] in E; simpl in E;
      cbv [case_App case_Inl case_Inr try_branches getData suspend bind] in E;
      destruct (data (state m)) as [|a [|b [|c l]]]; simpl in *;
      try discriminate Ha; try congruence;
      repeat match type of E with
             | context [body_of ?v] =>
                 is_var v; destruct v; simpl in *; try discriminate Ha
             end; congruence.
  - intros [[-> Hf]|[[-> Hf]|[-> Hf]]].
    + rewrite (failing_Shift_stops m Hf) in H. injection H as <- <-. auto.
    + rewrite (failing_definition_stops (lit "Define") m
                 (or_introl (conj eq_refl Hf))) in H.
      injection H as <- <-. auto.
    + rewrite (failing_definition_stops (lit "Delete") m
                 (or_intror (conj eq_refl Hf))) in H.
      injection H as <- <-. auto.
Qed.

Lemma thunk_flow_witness :
  step (Constant (lit "Inl")) starved_Inl = inr (thunked starved_Inl, Stop)
  /\ thunked starved_Inl = thunked starved_Inl
  /\ terminal (Constant (lit "Inl")) starved_Inl.
Proof.
  split; [reflexivity|].
  exact (proj1 (proj2 (thunk_flow (Constant (lit "Inl")) starved_Inl
                         (thunked starved_Inl) Stop eq_refl)) eq_refl).
Defined.

(** C5 as stated fails for [Inl] (and [Inr]): on an empty data stack
    [Inl] thunks and sets [gas] to 0, so the code after it is not run,
    whereas a starved [Copy] lets it run. *)
Lemma starved_Inl_stops :
  step (Constant (lit "Inl")) starved_Inl = inr (thunked starved_Inl, Stop)
  /\ render (evaluate_source (lit "Inl [a] Copy") None default_gas empty_heap)
     = inr (lit "Inl [a] Copy")
  /\ render (evaluate_source (lit "Copy [a] Copy") None default_gas empty_heap)
     = inr (lit "Copy [a] [a]").
Proof. split; [reflexivity|split; vm_compute; reflexivity]. Qed.

(** ** The dictionary *)

(** C10.  When [Define] or [Delete] is the current instruction and
    fails (no dictionary, too few data, a name that is not a [Text],
    or, for [Define], a second argument without a body), the iteration
    is a thunk that stops the reducer and leaves the dictionary exactly
    as it was. *)
Theorem failing_definition_keeps_dictionary name m :
  (name = lit "Define" /\ Define_fails m)
  \/ (name = lit "Delete" /\ Delete_fails m) ->
  exists m', step (Constant name) m = inr (m', Stop)
             /\ state m' = thunk (state m)
             /\ heap m' = heap m
             /\ dict m' = dict m.
Proof.
  intros H. exists (thunked m). split; [|repeat split].
  destruct H as [[-> H]|[-> H]]; simpl; cbv [dispatch]; simpl;
    cbv [case_Define case_Delete suspend bind getData];
    destruct (dict m) as [d|] eqn:Ed; try reflexivity;
    unfold Define_fails, Delete_fails, getData in H; rewrite Ed in H;
    destruct (data (state m)) as [|a [|b l]]; simpl in *; try reflexivity;
    destruct a; try reflexivity; try (destruct b; try reflexivity);
    exfalso;
    repeat match type of H with
           | _ \/ _ => destruct H as [H|H]
           end;
    try discriminate H; try lia;
    destruct H as (v & Hv & Hn); injection Hv as <-; eapply Hn; reflexivity.
Qed.

Lemma failing_definition_keeps_dictionary_witness :
  let m := {| state := {| code := [Constant (lit "Define")];
                          data := [Text (lit "foo")]; sink := [] |};
              heap := empty_heap;
              dict := Some (<[lit "foo" := Id]> ∅) |} in
  ((lit "Define" = lit "Define" /\ Define_fails m)
   \/ (lit "Define" = lit "Delete" /\ Delete_fails m))
  /\ exists m', step (Constant (lit "Define")) m = inr (m', Stop)
                /\ state m' = thunk (state m)
                /\ heap m' = heap m
                /\ dict m' = dict m.
Proof.
  intros m.
  assert (H : (lit "Define" = lit "Define" /\ Define_fails m)
              \/ (lit "Define" = lit "Delete" /\ Delete_fails m)).
  { left. split; [reflexivity|]. right. left. simpl. lia. }
  split; [exact H|].
  exact (failing_definition_keeps_dictionary (lit "Define") m H).
Defined.

(** ** The smart constructor *)

Lemma catenate_buf_pieces h values :
  catenate_buf h values = flat_map (pieces h) values.
Proof.
  induction values as [|v vs IH]; simpl; [reflexivity|].
  rewrite IH. destruct v; reflexivity.
Qed.

Lemma alloc_fresh h : is_reversed (snd (alloc h)) (next h) = false.
Proof.
  unfold is_reversed, alloc. simpl. apply bool_decide_eq_false.
  intros [_ Hn]%elem_of_difference. apply Hn, elem_of_singleton. reflexivity.
Qed.

Lemma catenate_cons values h x xs :
  catenate_buf h values = x :: xs ->
  catenate values h = (Catenate (next h) (x :: xs), snd (alloc h)).
Proof. intros E. unfold catenate. rewrite E. reflexivity. Qed.

Lemma catenate_nil values h :
  catenate_buf h values = [] -> catenate values h = (Id, h).
Proof. intros E. unfold catenate. rewrite E. reflexivity. Qed.

(** C6, as the code has it.  [catenate] splices the children of every
    [Catenate] argument and drops every [Id] argument.  When nothing
    remains it returns [Id]; otherwise it returns a new [Catenate] of what
    remains, also when exactly one element remains: the result is then a
    [Catenate] with that single child, which prints as the child does. *)
Theorem catenate_normalises values h :
  let remaining := flat_map (pieces h) values in
  let result := fst (catenate values h) in
  let h' := snd (catenate values h) in
  match remaining with
  | [] => result = Id /\ h' = h
  | x :: xs =>
      result = Catenate (next h) remaining
      /\ children_of h' result = inr remaining
      /\ (xs = [] -> toString h' result = toString h' x)
  end.
Proof.
  rewrite <- catenate_buf_pieces. simpl.
  destruct (catenate_buf h values) as [|x xs] eqn:E.
  - rewrite (catenate_nil _ _ E). auto.
  - rewrite (catenate_cons _ _ _ _ E). simpl. split; [reflexivity|]. split.
    + unfold current. pose proof (alloc_fresh h) as F. simpl in F.
      rewrite F. reflexivity.
    + intros ->. simpl. unfold current.
      destruct (is_reversed _ _); reflexivity.
Qed.

(** C6 as stated fails: with one element left, [catenate] wraps it in a
    [Catenate] instead of returning it. *)
Lemma catenate_single_is_wrapped :
  fst (catenate [Var (lit "foo")] empty_heap)
  = Catenate 0 [Var (lit "foo")]
  /\ fst (catenate [Var (lit "foo")] empty_heap) <> Var (lit "foo")
  /\ read (lit "foo") empty_heap
     = inr (Catenate 0 [Var (lit "foo")], snd (alloc empty_heap)).
Proof.
  split; [reflexivity|]. split; [discriminate|]. vm_compute. reflexivity.
Qed.

(** ** More gas *)

(** A run that ends before its gas is spent ends the same way with more. *)
Lemma loop_more_gas gas m r n :
  loop gas m = (r, n) -> (n < gas)%nat ->
  forall gas', (gas <= gas')%nat -> loop gas' m = (r, n).
Proof.
  revert m r n. induction gas as [|gas IH]; intros m r n H Hn gas' Hle;
    [lia|].
  destruct gas' as [|gas']; [lia|]. simpl in *.
  destruct (code (state m)) as [|hand below]; [exact H|].
  destruct (step hand m) as [p|[m' [|]]]; try exact H.
  destruct (loop gas m') as [r' n'] eqn:E. injection H as <- <-.
  rewrite (IH m' r' n' E); [reflexivity|lia|lia].
Qed.

Lemma evaluate_more_gas init dictionary h (k : nat) gas :
  (iterations init dictionary (Z.of_nat k) h < k)%nat ->
  (Z.of_nat k <= gas)%Z ->
  evaluate init dictionary gas h = evaluate init dictionary (Z.of_nat k) h.
Proof.
  unfold iterations, evaluate. rewrite Nat2Z.id. intros Hn Hle.
  destruct (loop k _) as [r n] eqn:E. simpl in Hn.
  rewrite (loop_more_gas _ _ _ _ E Hn (Z.to_nat gas)); [reflexivity|lia].
Qed.

Lemma evaluate_source_more_gas src dictionary h (k : nat) gas :
  match read src h with
  | inr p => (iterations (fst p) dictionary (Z.of_nat k) (snd p) < k)%nat
  | inl _ => True
  end ->
  (Z.of_nat k <= gas)%Z ->
  evaluate_source src dictionary gas h
  = evaluate_source src dictionary (Z.of_nat k) h.
Proof.
  unfold evaluate_source. destruct (read src h) as [p|p]; simpl;
    [reflexivity|].
  apply evaluate_more_gas.
Qed.

(** The same in the extended variant. *)
Lemma Extended_loop_more_gas gas m r n :
  Extended.loop gas m = (r, n) -> (n < gas)%nat ->
  forall gas', (gas <= gas')%nat -> Extended.loop gas' m = (r, n).
Proof.
  revert m r n. induction gas as [|gas IH]; intros m r n H Hn gas' Hle;
    [lia|].
  destruct gas' as [|gas']; [lia|]. simpl in *.
  destruct (Extended.code (Extended.state m)) as [|hand below]; [exact H|].
  destruct (Extended.step hand m) as [p|[m' [|]]]; try exact H.
  destruct (Extended.loop gas m') as [r' n'] eqn:E. injection H as <- <-.
  rewrite (IH m' r' n' E); [reflexivity|lia|lia].
Qed.

Lemma Extended_evaluate_more_gas init dictionary h (k : nat) gas :
  (Extended.iterations init dictionary (Z.of_nat k) h < k)%nat ->
  (Z.of_nat k <= gas)%Z ->
  Extended.evaluate init dictionary gas h
  = Extended.evaluate init dictionary (Z.of_nat k) h.
Proof.
  unfold Extended.iterations, Extended.evaluate. rewrite Nat2Z.id.
  intros Hn Hle.
  destruct (Extended.loop k _) as [r n] eqn:E. simpl in Hn.
  rewrite (Extended_loop_more_gas _ _ _ _ E Hn (Z.to_nat gas));
    [reflexivity|lia].
Qed.

Lemma Extended_evaluate_source_more_gas src dictionary h (k : nat) gas :
  match Extended.read src h with
  | inr p =>
      (Extended.iterations (fst p) dictionary (Z.of_nat k) (snd p) < k)%nat
  | inl _ => True
  end ->
  (Z.of_nat k <= gas)%Z ->
  Extended.evaluate_source src dictionary gas h
  = Extended.evaluate_source src dictionary (Z.of_nat k) h.
Proof.
  unfold Extended.evaluate_source.
  destruct (Extended.read src h) as [p|p]; simpl; [reflexivity|].
  apply Extended_evaluate_more_gas.
Qed.

(** ** Delimited control *)

Lemma scan_reset_finds items below index buf :
  forallb (fun v => negb (is_Reset v)) items = true ->
  scan_reset (items ++ Constant (lit "Reset") :: below) index buf
  = (buf ++ items, (index + length items)%nat).
Proof.
  revert index buf. induction items as [|c items IH]; intros index buf H.
  - simpl. rewrite app_nil_r, Nat.add_0_r. reflexivity.
  - simpl in H. apply andb_prop in H as [Hc H].
    assert (E : scan_reset ((c :: items) ++ Constant (lit "Reset") :: below)
                  index buf
                = scan_reset (items ++ Constant (lit "Reset") :: below)
                    (S index) (buf ++ [c])).
    { simpl. destruct c; try reflexivity.
      destruct (decide _) as [->|_]; [|reflexivity].
      vm_compute in Hc. discriminate Hc. }
    rewrite E, IH by exact H. rewrite <- app_assoc. simpl.
    f_equal. lia.
Qed.

Lemma catenate_buf_atoms h items :
  forallb is_atom items = true -> catenate_buf h items = items.
Proof.
  induction items as [|c items IH]; simpl; [reflexivity|].
  intros H. apply andb_prop in H as [Hc H]. rewrite (IH H).
  destruct c; try reflexivity; discriminate Hc.
Qed.

Lemma dispatch_Shift m : dispatch (lit "Shift") m = case_Shift m.
Proof. reflexivity. Qed.

Lemma skipn_past (items : list Value) x below :
  skipn (length items + 1) (items ++ x :: below) = below.
Proof.
  induction items as [|c items IH]; simpl; [reflexivity|exact IH].
Qed.

Lemma Shift_step m items below handler ds :
  forallb (fun v => negb (is_Reset v)) items = true ->
  code (state m)
  = Constant (lit "Shift") :: items ++ Constant (lit "Reset") :: below ->
  data (state m) = Quote handler :: ds ->
  step (Constant (lit "Shift")) m
  = inr ({| state := {| code := handler :: below;
                        data := Quote (fst (catenate items (heap m))) :: ds;
                        sink := sink (state m) |};
            heap := snd (catenate items (heap m));
            dict := dict m |}, Resume).
Proof.
  intros Hitems Hcode Hdata.
  change (step (Constant (lit "Shift")) m) with (dispatch (lit "Shift") m).
  rewrite dispatch_Shift. unfold case_Shift, try_shift, getData.
  rewrite Hdata. cbn [nth_error bind body_of].
  rewrite Hcode. change (skipn 1 (?x :: ?l)) with l.
  rewrite (scan_reset_finds items below 1 [] Hitems).
  cbn [app]. unfold numCode. rewrite Hcode. cbn [length].
  rewrite length_app. cbn [length].
  destruct (Nat.leb_spec (S (length items + S (length below)))
              (1 + length items)); [lia|].
  destruct (catenate items (heap m)) as [body h'] eqn:Ec.
  unfold popCode. rewrite Hcode. cbn [length]. rewrite length_app.
  cbn [length].
  destruct (Nat.ltb_spec (S (length items + S (length below)))
              (1 + length items + 1)); [lia|].
  cbn [bind]. unfold popData. cbn [data length Nat.ltb Nat.leb bind].
  change (skipn (1 + length items + 1) (?x :: ?l))
    with (skipn (length items + 1) l).
  rewrite skipn_past. rewrite Hdata. reflexivity.
Qed.

(** C3.  When [Shift] runs with a quote [[handler]] on top of the data
    stack and a [Reset] further down the code stack, the items between
    position 1 and the nearest [Reset] are captured, in reading order, as
    one quote that replaces the handler on the data stack; the scanned
    slice and the [Reset] leave the code stack and the body of the handler
    is pushed on it.  So, without a dictionary,
    [[handler] Shift body0 body1 body2 Reset] evaluates to
    [[body0 body1 body2] handler]. *)
Theorem Shift_captures_continuation :
  (forall m items below handler ds,
     forallb (fun v => negb (is_Reset v)) items = true ->
     code (state m)
     = Constant (lit "Shift") :: items ++ Constant (lit "Reset") :: below ->
     data (state m) = Quote handler :: ds ->
     step (Constant (lit "Shift")) m
     = inr ({| state :=
                 {| code := handler :: below;
                    data := Quote (fst (catenate items (heap m))) :: ds;
                    sink := sink (state m) |};
               heap := snd (catenate items (heap m));
               dict := dict m |}, Resume))
  /\ (forall h c items,
        forallb is_atom (c :: items) = true ->
        fst (catenate (c :: items) h) = Catenate (next h) (c :: items)
        /\ children_of (snd (catenate (c :: items) h))
             (fst (catenate (c :: items) h)) = inr (c :: items))
  /\ (forall gas, (6 <= gas)%Z ->
        render (evaluate_source
                  (lit "[handler] Shift body0 body1 body2 Reset")
                  None gas empty_heap)
        = inr (lit "[body0 body1 body2] handler")).
Proof.
  split; [exact Shift_step|]. split.
  - intros h c items H.
    rewrite (catenate_cons (c :: items) h c items (catenate_buf_atoms h _ H)).
    simpl. split; [reflexivity|].
    unfold current. pose proof (alloc_fresh h) as F. simpl in F.
    rewrite F. reflexivity.
  - intros gas Hgas.
    rewrite (evaluate_source_more_gas _ None empty_heap 6 gas);
      [vm_compute; reflexivity|vm_compute; lia|exact Hgas].
Qed.

Lemma Shift_captures_continuation_witness :
  let m := {| state :=
                {| code := [Constant (lit "Shift"); Var (lit "body0");
                            Var (lit "body1"); Constant (lit "Reset");
                            Var (lit "rest")];
                   data := [Quote (Var (lit "handler")); Text (lit "x")];
                   sink := [] |};
              heap := empty_heap; dict := None |} in
  step (Constant (lit "Shift")) m
  = inr ({| state :=
              {| code := [Var (lit "handler"); Var (lit "rest")];
                 data := [Quote (Catenate 0 [Var (lit "body0");
                                             Var (lit "body1")]);
                          Text (lit "x")];
                 sink := [] |};
            heap := snd (alloc empty_heap); dict := None |}, Resume).
Proof.
  exact (proj1 Shift_captures_continuation
           {| state :=
                {| code := [Constant (lit "Shift"); Var (lit "body0");
                            Var (lit "body1"); Constant (lit "Reset");
                            Var (lit "rest")];
                   data := [Quote (Var (lit "handler")); Text (lit "x")];
                   sink := [] |};
              heap := empty_heap; dict := None |}
           [Var (lit "body0"); Var (lit "body1")] [Var (lit "rest")]
           (Var (lit "handler")) [Text (lit "x")]
           eq_refl eq_refl eq_refl).
Defined.

(** ** Sums *)

Lemma dispatch_Inl m : dispatch (lit "Inl") m = case_Inl m.
Proof. reflexivity. Qed.

Lemma Inl_step m l r a ds below :
  code (state m) = Constant (lit "Inl") :: below ->
  data (state m) = a :: Quote r :: Quote l :: ds ->
  step (Constant (lit "Inl")) m
  = inr (with_state {| code := l :: below; data := a :: ds;
                       sink := sink (state m) |} m, Resume).
Proof.
  intros Hcode Hdata.
  change (step (Constant (lit "Inl")) m) with (dispatch (lit "Inl") m).
  rewrite dispatch_Inl. unfold case_Inl, try_branches, getData.
  rewrite Hdata. cbn [nth_error bind body_of].
  rewrite (popCode_1 _ _ _ Hcode). cbn [bind].
  unfold popData. cbn [data]. rewrite Hdata. reflexivity.
Qed.

(** C7, as the code has it.  In the minimal variant [Inl] takes
    [[l] [r] a] from the data stack, pushes [l] on the code stack and [a]
    back on the data stack, and discards [r].  Without a dictionary the
    variable [inl] that comes to the top is unresolved, which stops the
    reducer before [App] runs: [[inl] [inr] [value] Inl App] evaluates to
    [[value] inl App], and [[inl] [inr] [value] Inl] to [[value] inl].
    In the extended variant, whose test suite has the program that ends
    in [App], [Inl] makes a sum that [App] eliminates, and
    [[inl] [inr] [value] Inl App] evaluates to [[value] inl]. *)
Theorem Inl_selects_left :
  (forall m l r a ds below,
     code (state m) = Constant (lit "Inl") :: below ->
     data (state m) = a :: Quote r :: Quote l :: ds ->
     step (Constant (lit "Inl")) m
     = inr (with_state {| code := l :: below; data := a :: ds;
                          sink := sink (state m) |} m, Resume))
  /\ (forall gas, (8 <= gas)%Z ->
        render (evaluate_source (lit "[inl] [inr] [value] Inl App")
                  None gas empty_heap)
        = inr (lit "[value] inl App"))
  /\ (forall gas, (8 <= gas)%Z ->
        render (evaluate_source (lit "[inl] [inr] [value] Inl")
                  None gas empty_heap)
        = inr (lit "[value] inl"))
  /\ (forall gas, (9 <= gas)%Z ->
        Extended.render
          (Extended.evaluate_source (lit "[inl] [inr] [value] Inl App")
             None gas empty_heap)
        = inr (lit "[value] inl")).
Proof.
  split; [exact Inl_step|].
  split; [|split]; intros gas Hgas.
  - rewrite (evaluate_source_more_gas _ None empty_heap 8 gas);
      first [vm_compute; reflexivity|vm_compute; lia|exact Hgas].
  - rewrite (evaluate_source_more_gas _ None empty_heap 8 gas);
      first [vm_compute; reflexivity|vm_compute; lia|exact Hgas].
  - assert (C : gas = 9%Z \/ (10 <= gas)%Z) by lia.
    destruct C as [->|C]; [vm_compute; reflexivity|].
    rewrite (Extended_evaluate_source_more_gas _ None empty_heap 10 gas);
      first [vm_compute; reflexivity|vm_compute; lia|exact C].
Qed.

Lemma Inl_selects_left_witness :
  render (evaluate_source (lit "[inl] [inr] [value] Inl")
            None default_gas empty_heap)
  = inr (lit "[value] inl")
  /\ Extended.render
       (Extended.evaluate_source (lit "[inl] [inr] [value] Inl App")
          None Extended.default_gas empty_heap)
     = inr (lit "[value] inl").
Proof.
  split.
  - apply (proj1 (proj2 (proj2 Inl_selects_left)) default_gas).
    unfold default_gas. lia.
  - apply (proj2 (proj2 (proj2 Inl_selects_left)) Extended.default_gas).
    unfold Extended.default_gas. lia.
Defined.

(** C7 as stated fails in the minimal variant: the [App] that follows
    [Inl] is still in the residual program. *)
Lemma Inl_App_keeps_App :
  render (evaluate_source (lit "[inl] [inr] [value] Inl App")
            None default_gas empty_heap)
  = inr (lit "[value] inl App")
  /\ lit "[value] inl App" <> lit "[value] inl".
Proof. split; [vm_compute; reflexivity|discriminate]. Qed.

(** ** Sharing and mutation *)

Lemma reverse_in_place_toggles r h :
  is_reversed (reverse_in_place r h) r = negb (is_reversed h r).
Proof.
  unfold reverse_in_place, is_reversed at 1. simpl.
  destruct (is_reversed h r) eqn:E; unfold is_reversed in E; simpl.
  - apply bool_decide_eq_false.
    intros [_ Hn]%elem_of_difference. apply Hn, elem_of_singleton.
    reflexivity.
  - apply bool_decide_eq_true. apply elem_of_union. right.
    apply elem_of_singleton. reflexivity.
Qed.

Lemma current_after_reverse {A} r h (l : list A) :
  current (reverse_in_place r h) r l = rev (current h r l).
Proof.
  unfold current. rewrite reverse_in_place_toggles.
  destruct (is_reversed h r); simpl; [rewrite rev_involutive|]; reflexivity.
Qed.

Lemma Catenate_step m r cs below :
  code (state m) = Catenate r cs :: below ->
  step (Catenate r cs) m
  = inr ({| state := {| code := current (heap m) r cs ++ below;
                        data := data (state m); sink := sink (state m) |};
            heap := reverse_in_place r (heap m);
            dict := dict m |}, Resume).
Proof.
  intros Hcode. simpl. rewrite (popCode_1 _ _ _ Hcode). simpl.
  unfold pushCode_array. simpl.
  rewrite current_after_reverse, rev_involutive. reflexivity.
Qed.

(** C4 fails on the code.  Unfolding a [Catenate] reverses its [children]
    array in place: the same [Catenate], reached again through a copied
    quote or a dictionary binding, then has its children in the opposite
    order.  So [["x" "y"] Copy App] leaves the quote as [["y" "x"]], and
    the second use of a word defined as ["a" "b"] runs as ["b" "a"]. *)
Theorem unfolding_reverses_children :
  (forall m r cs below,
     code (state m) = Catenate r cs :: below ->
     step (Catenate r cs) m
     = inr ({| state := {| code := current (heap m) r cs ++ below;
                           data := data (state m); sink := sink (state m) |};
               heap := reverse_in_place r (heap m);
               dict := dict m |}, Resume)
     /\ children_of (reverse_in_place r (heap m)) (Catenate r cs)
        = inr (rev (current (heap m) r cs)))
  /\ render (evaluate_source (lit_q "['x' 'y'] Copy App")
               None default_gas empty_heap)
     = inr (lit_q "['y' 'x'] 'x' 'y'")
  /\ render (evaluate_source (lit_q "['a' 'b'] 'foo' Define foo foo")
               (Some ∅) default_gas empty_heap)
     = inr (lit_q "'a' 'b' 'b' 'a'").
Proof.
  split; [|split; vm_compute; reflexivity].
  intros m r cs below Hcode. split; [apply Catenate_step, Hcode|].
  simpl. rewrite current_after_reverse. reflexivity.
Qed.

Lemma unfolding_reverses_children_witness :
  let m := {| state := {| code := [Catenate 0 [Text (lit "x"); Text (lit "y")]];
                          data := []; sink := [] |};
              heap := empty_heap; dict := None |} in
  children_of (heap m) (Catenate 0 [Text (lit "x"); Text (lit "y")])
  = inr [Text (lit "x"); Text (lit "y")]
  /\ children_of (reverse_in_place 0 (heap m))
       (Catenate 0 [Text (lit "x"); Text (lit "y")])
     = inr (rev (current (heap m) 0 [Text (lit "x"); Text (lit "y")])).
Proof.
  intros m. split; [reflexivity|].
  exact (proj2 (proj1 unfolding_reverses_children m 0%nat
                  [Text (lit "x"); Text (lit "y")] [] eq_refl)).
Defined.

(** ** Panics *)

(** At the top of a non-empty code stack, an iteration throws only for
    [Id], and then [Unknown]. *)
Lemma step_throws hand below m p :
  code (state m) = hand :: below ->
  step hand m = inl p -> hand = Id /\ p = Unknown Id.
Proof.
  intros Hcode H. destruct hand as [|name|name|r cs|b|t|q]; simpl in H.
  - injection H as <-. auto.
  - exfalso. unfold dispatch in H.
    repeat (destruct (decide _) as [_|_];
            [cbv [case_Copy case_Drop case_Swap case_Cat case_Abs case_App
                  case_Inl case_Inr case_Pair case_Shift case_Reset
                  case_Define case_Delete try_branches suspend] in H;
             try destruct (try_shift m);
             try destruct (dict m);
             try rewrite (popCode_1 _ _ _ Hcode) in H;
             unfold getData, popData, bind in H; simpl in H;
             destruct (data (state m)) as [|x [|y [|z l]]]; simpl in H;
             try discriminate H;
             repeat match type of H with
                    | context [body_of ?v] => is_var v; destruct v; simpl in H
                    | context [text_of ?v] => is_var v; destruct v; simpl in H
                    | context [catenate ?a ?b] => destruct (catenate a b)
                    end;
             discriminate H|]).
    discriminate H.
  - exfalso. rewrite (popCode_1 _ _ _ Hcode) in H.
    split_step H; discriminate H.
  - exfalso. rewrite (popCode_1 _ _ _ Hcode) in H.
    split_step H; discriminate H.
  - exfalso. rewrite (popCode_1 _ _ _ Hcode) in H. discriminate.
  - exfalso. rewrite (popCode_1 _ _ _ Hcode) in H. discriminate.
  - discriminate.
Qed.

Lemma loop_throws gas m p n : loop gas m = (inl p, n) -> p = Unknown Id.
Proof.
  revert m n. induction gas as [|gas IH]; intros m n H; simpl in H.
  - destruct (code (state m)); discriminate.
  - destruct (code (state m)) as [|hand below] eqn:Hcode; [discriminate|].
    destruct (step hand m) as [q|[m' [|]]] eqn:Hs.
    + injection H as <- _. apply (step_throws _ _ _ _ Hcode Hs).
    + destruct (loop gas m') as [r k] eqn:E. injection H as -> _.
      apply (IH _ _ E).
    + discriminate.
Qed.

Lemma evaluate_throws init dictionary gas h p :
  evaluate init dictionary gas h = inl p -> p = Unknown Id.
Proof.
  unfold evaluate. destruct (loop _ _) as [[q|m] n] eqn:E; simpl.
  - intros [= <-]. apply (loop_throws _ _ _ _ E).
  - destruct (residual m). discriminate.
Qed.

Lemma evaluate_Id dictionary gas h :
  (0 < gas)%Z -> evaluate Id dictionary gas h = inl (Unknown Id).
Proof.
  intros Hgas. unfold evaluate.
  destruct (Z.to_nat gas) as [|g] eqn:E; [lia|]. reflexivity.
Qed.

(** An unknown name leaves the machine as it is and burns the gas. *)
Lemma loop_unknown gas m name below :
  code (state m) = Constant name :: below ->
  ~ In name combinators ->
  loop gas m = (inr m, gas).
Proof.
  intros Hcode Hn. induction gas as [|gas IH]; simpl; rewrite Hcode;
    [reflexivity|].
  simpl. rewrite (dispatch_unknown _ _ Hn), IH. reflexivity.
Qed.

Lemma read_empty h : read [] h = inr (Id, h).
Proof. unfold read. simp read_loop. reflexivity. Qed.

(** C1 fails on the code.  The empty program is read as [Id], and
    [evaluate] has no case for [Id]: as soon as [Id] is the current
    instruction it raises [Unknown], which is a [Panic].  This happens
    for the empty program, with every dictionary and every positive gas,
    and for a program that runs an empty quote. *)
Theorem evaluate_Id_raises_Unknown :
  (forall h, read [] h = inr (Id, h))
  /\ (forall dictionary gas h,
        (0 < gas)%Z -> evaluate Id dictionary gas h = inl (Unknown Id))
  /\ render (evaluate_source [] None default_gas empty_heap)
     = inl (Unknown Id)
  /\ render (evaluate_source (lit "[] App") None default_gas empty_heap)
     = inl (Unknown Id).
Proof.
  split; [exact read_empty|]. split; [exact evaluate_Id|].
  split; vm_compute; reflexivity.
Qed.

Lemma evaluate_Id_raises_Unknown_witness :
  (0 < 1)%Z /\ evaluate Id (Some ∅) 1 empty_heap = inl (Unknown Id).
Proof.
  split; [lia|].
  apply (proj1 (proj2 evaluate_Id_raises_Unknown) (Some ∅) 1%Z empty_heap).
  lia.
Defined.

(** C2 fails on the code.  The [switch] on the name of a [Constant] has
    no [default]: a name outside the table changes nothing, the loop
    spins on it until the gas is spent, and [evaluate] returns the
    constant in the residual program.  [Unknown] is raised by the final
    [else] of the dispatch instead, which only [Id] reaches; it is the
    only [Panic] that [evaluate] lets through. *)
Theorem Unknown_is_raised_for_Id :
  (forall name dictionary gas h,
     ~ In name combinators ->
     evaluate (Constant name) dictionary gas h
     = inr {| value := Catenate (next h) [Constant name];
              final_heap := snd (alloc h);
              final_dictionary := dictionary |}
     /\ iterations (Constant name) dictionary gas h = Z.to_nat gas)
  /\ (forall hand below m p,
        code (state m) = hand :: below ->
        step hand m = inl p -> hand = Id /\ p = Unknown Id)
  /\ (forall init dictionary gas h p,
        evaluate init dictionary gas h = inl p -> p = Unknown Id)
  /\ (forall dictionary gas h,
        (0 < gas)%Z -> evaluate Id dictionary gas h = inl (Unknown Id)).
Proof.
  split; [|split; [exact step_throws|split;
                   [exact evaluate_throws|exact evaluate_Id]]].
  intros name dictionary gas h Hn. unfold evaluate, iterations.
  rewrite (loop_unknown (Z.to_nat gas)
             {| state := new_State (Constant name); heap := h;
                dict := dictionary |} name [] eq_refl Hn).
  split; reflexivity.
Qed.

Lemma Unknown_is_raised_for_Id_witness :
  evaluate (Constant (lit "Foo")) None default_gas empty_heap
  = inr {| value := Catenate 0 [Constant (lit "Foo")];
           final_heap := snd (alloc empty_heap);
           final_dictionary := None |}
  /\ iterations (Constant (lit "Foo")) None default_gas empty_heap
     = Z.to_nat default_gas.
Proof.
  apply (proj1 Unknown_is_raised_for_Id (lit "Foo") None default_gas
           empty_heap).
  unfold combinators. simpl. intros H.
  repeat (destruct H as [H|H]; [discriminate H|]). exact H.
Defined.

(** ** Reading back what was printed *)

Lemma read_loop_nil source build stack h :
  read_loop source [] build stack h
  = match stack with
    | _ :: _ => inl (Unreadable source (lit "Unbalanced brackets"))
    | [] => inr (catenate build h)
    end.
Proof. simp read_loop. reflexivity. Qed.

Lemma read_loop_cons source c src' build stack h :
  read_loop source (c :: src') build stack h
  = match read_body source c src' build stack h with
    | inl p => inl p
    | inr r =>
        read_loop source (rd_rest r) (rd_build r) (rd_stack r) (rd_heap r)
    end.
Proof.
  simp read_loop. unfold inspect.
  generalize (@eq_refl _ (read_body source c src' build stack h)).
  generalize (read_body source c src' build stack h) at 2 4 5.
  intros [p|r] E; simp read_loop; reflexivity.
Qed.

(** Facts about the character classes, by linear arithmetic. *)
Ltac classes :=
  unfold _isSeparator, is_name_char, is_space, is_upper, is_lower,
    LBRACKET, RBRACKET, DQUOTE, LBRACE, RBRACE, SPACE in *;
  repeat rewrite ?orb_true_iff, ?andb_true_iff, ?orb_false_iff,
    ?andb_false_iff, ?negb_true_iff, ?negb_false_iff,
    ?N.leb_le, ?N.eqb_eq, ?N.leb_gt, ?N.eqb_neq in *;
  lia.

Lemma name_char_not_separator c :
  is_name_char c = true -> _isSeparator c = false.
Proof. intros H. classes. Qed.

Lemma upper_plain c :
  is_upper c = true ->
  is_space c = false /\ (c =? LBRACKET) = false /\ (c =? RBRACKET) = false
  /\ (c =? DQUOTE) = false /\ (c =? LBRACE) = false.
Proof. intros H. classes. Qed.

Lemma lower_plain c :
  is_lower c = true ->
  is_space c = false /\ (c =? LBRACKET) = false /\ (c =? RBRACKET) = false
  /\ (c =? DQUOTE) = false /\ (c =? LBRACE) = false /\ is_upper c = false.
Proof. intros H. classes. Qed.

(** The scanning loops stop where the predicate first fails. *)
Lemma scan_stops p s c tail :
  forallb p s = true -> p c = false ->
  take_while p (s ++ c :: tail) = s /\ drop_while p (s ++ c :: tail) = c :: tail.
Proof.
  intros Hs Hc. induction s as [|x s IH]; simpl.
  - rewrite Hc. auto.
  - simpl in Hs. apply andb_prop in Hs as [Hx Hs]. rewrite Hx.
    destruct (IH Hs) as [-> ->]. auto.
Qed.

Lemma scan_to_end p s :
  forallb p s = true -> take_while p s = s /\ drop_while p s = [].
Proof.
  intros Hs. induction s as [|x s IH]; simpl; [auto|].
  simpl in Hs. apply andb_prop in Hs as [Hx Hs]. rewrite Hx.
  destruct (IH Hs) as [-> ->]. auto.
Qed.

Lemma take_while_holds p s : forallb p (take_while p s) = true.
Proof.
  induction s as [|x s IH]; simpl; [reflexivity|].
  destruct (p x) eqn:E; simpl; [rewrite E; exact IH|reflexivity].
Qed.

Lemma token_Quote h b : token h (Quote b) = program h b.
Proof. destruct b; reflexivity. Qed.

(** Induction on values, through the lists of children. *)
Lemma Value_nested_ind (P : Value -> Prop) :
  P Id ->
  (forall name, P (Constant name)) ->
  (forall name, P (Var name)) ->
  (forall r cs, Forall P cs -> P (Catenate r cs)) ->
  (forall b, P b -> P (Quote b)) ->
  (forall t, P (Text t)) ->
  (forall p, P (Prompt p)) ->
  forall v, P v.
Proof.
  intros HId HC HV HCat HQ HT HP.
  fix IH 1. intros v. destruct v as [|name|name|r cs|b|t|p].
  - exact HId.
  - apply HC.
  - apply HV.
  - apply HCat. induction cs as [|c cs IHcs]; constructor;
      [apply IH|exact IHcs].
  - apply HQ, IH.
  - apply HT.
  - apply HP.
Qed.

Lemma settles_refl h : settles h h.
Proof. intros r H. exact H. Qed.

Lemma alloc_settles h : settles h (snd (alloc h)).
Proof.
  intros r H. unfold is_reversed in *. simpl.
  apply bool_decide_eq_false. apply bool_decide_eq_false in H.
  intros [Hin _]%elem_of_difference. exact (H Hin).
Qed.

Lemma token_program_settled h h' :
  settles h h' ->
  forall v, (token h v = true -> token h' v = true)
            /\ (program h v = true -> program h' v = true).
Proof.
  intros S. apply Value_nested_ind; simpl; try (split; auto; fail).
  - intros r cs IH. split; [discriminate|]. intros H.
    apply andb_prop in H as [H H3]. apply andb_prop in H as [H1 H2].
    rewrite H2, (S r) by (destruct (is_reversed h r);
                           [discriminate|reflexivity]).
    simpl. clear H1 H2. induction IH as [|c cs [Hc _] _ IHcs]; simpl in *;
      [reflexivity|].
    apply andb_prop in H3 as [Ha Hb]. rewrite (Hc Ha), (IHcs Hb).
    reflexivity.
  - intros b [_ IH]. split; [|discriminate].
    destruct b; simpl in *; auto.
Qed.

Lemma tokens_settled h h' l :
  settles h h' -> forallb (token h) l = true -> forallb (token h') l = true.
Proof.
  intros S. induction l as [|v l IH]; simpl; [reflexivity|].
  intros H. apply andb_prop in H as [Ha Hb].
  rewrite (proj1 (token_program_settled h h' S v) Ha), (IH Hb). reflexivity.
Qed.

Lemma stack_settled h h' st :
  settles h h' ->
  forallb (forallb (token h)) st = true ->
  forallb (forallb (token h')) st = true.
Proof.
  intros S. induction st as [|l st IH]; simpl; [reflexivity|].
  intros H. apply andb_prop in H as [Ha Hb].
  rewrite (tokens_settled h h' l S Ha), (IH Hb). reflexivity.
Qed.

Lemma token_atom h v : token h v = true -> is_atom v = true.
Proof. destruct v; simpl; auto. Qed.

Lemma tokens_atoms h l :
  forallb (token h) l = true -> forallb is_atom l = true.
Proof.
  induction l as [|v l IH]; simpl; [reflexivity|].
  intros H. apply andb_prop in H as [Ha Hb].
  rewrite (token_atom h v Ha), (IH Hb). reflexivity.
Qed.

(** [catenate] on tokens. *)
Lemma catenate_tokens h b :
  forallb (token h) b = true ->
  catenate b h
  = match b with
    | [] => (Id, h)
    | _ :: _ => (Catenate (next h) b, snd (alloc h))
    end.
Proof.
  intros H. unfold catenate.
  rewrite (catenate_buf_atoms h b (tokens_atoms h b H)).
  destruct b; reflexivity.
Qed.

Lemma catenate_program h b :
  forallb (token h) b = true ->
  program (snd (catenate b h)) (fst (catenate b h)) = true
  /\ settles h (snd (catenate b h)).
Proof.
  intros H. rewrite (catenate_tokens h b H). destruct b as [|v b].
  - simpl. split; [reflexivity|apply settles_refl].
  - split; [|apply alloc_settles].
    cbn [fst snd program nonempty]. rewrite alloc_fresh.
    cbn [negb andb].
    exact (tokens_settled h _ _ (alloc_settles h) H).
Qed.

Lemma read_body_tokens source c src' b st h r :
  forallb (token h) b = true ->
  forallb (forallb (token h)) st = true ->
  read_body source c src' b st h = inr r ->
  forallb (token (rd_heap r)) (rd_build r) = true
  /\ forallb (forallb (token (rd_heap r))) (rd_stack r) = true.
Proof.
  intros Hb Hst. unfold read_body.
  destruct (is_space c); [intros [= <-]; simpl; auto|].
  destruct (c =? LBRACKET); [intros [= <-]; simpl; rewrite Hb; auto|].
  destruct (c =? RBRACKET).
  { destruct st as [|parent st]; [discriminate|].
    simpl in Hst. apply andb_prop in Hst as [Hp Hst].
    destruct (catenate_program h b Hb) as [Hprog S].
    destruct (catenate b h) as [body h']. intros [= <-].
    cbn [rd_build rd_stack rd_heap fst snd] in *.
    rewrite forallb_app. cbn [forallb]. rewrite token_Quote, Hprog.
    rewrite (tokens_settled h h' parent S Hp), (stack_settled h h' st S Hst).
    auto. }
  destruct (c =? DQUOTE).
  { destruct (drop_while _ src'); [discriminate|]. intros [= <-]. simpl.
    rewrite forallb_app. simpl. rewrite Hb, take_while_holds. auto. }
  destruct (c =? LBRACE).
  { destruct (drop_while _ src'); [discriminate|]. intros [= <-]. simpl.
    rewrite forallb_app. simpl. rewrite Hb, take_while_holds. auto. }
  destruct (is_upper c).
  { destruct (matches_constant _) eqn:E; [|discriminate]. intros [= <-].
    simpl. rewrite forallb_app. simpl. rewrite Hb.
    simpl in E. rewrite E. auto. }
  destruct (matches_variable _) eqn:E; [|discriminate]. intros [= <-].
  simpl. rewrite forallb_app. simpl. rewrite Hb.
  simpl in E. rewrite E. auto.
Qed.

(** What [read] returns is a program. *)
Lemma read_loop_program n :
  forall source src b st h v h',
    (length src <= n)%nat ->
    forallb (token h) b = true ->
    forallb (forallb (token h)) st = true ->
    read_loop source src b st h = inr (v, h') ->
    program h' v = true.
Proof.
  induction n as [|n IH]; intros source src b st h v h' Hn Hb Hst H.
  - destruct src; [|simpl in Hn; lia].
    rewrite read_loop_nil in H. destruct st; [|discriminate].
    injection H as H. pose proof (catenate_program h b Hb) as [P _].
    rewrite H in P. exact P.
  - destruct src as [|c src'].
    + rewrite read_loop_nil in H. destruct st; [|discriminate].
      injection H as H. pose proof (catenate_program h b Hb) as [P _].
      rewrite H in P. exact P.
    + rewrite read_loop_cons in H.
      destruct (read_body source c src' b st h) as [p|r] eqn:E;
        [discriminate|].
      destruct (read_body_tokens _ _ _ _ _ _ _ Hb Hst E) as [Hb' Hst'].
      pose proof (read_body_shrinks _ _ _ _ _ _ _ E) as Hl.
      apply (IH source (rd_rest r) (rd_build r) (rd_stack r) (rd_heap r));
        auto. simpl in *. lia.
Qed.

Lemma read_program src h v h' :
  read src h = inr (v, h') -> program h' v = true.
Proof.
  apply (read_loop_program (length src) src src [] [] h v h');
    auto.
Qed.

(** The iterations of [read] at each kind of character. *)

Lemma read_body_space source c src' b st h :
  is_space c = true ->
  read_body source c src' b st h
  = inr {| rd_rest := drop_while is_space src'; rd_build := b;
           rd_stack := st; rd_heap := h |}.
Proof. intros H. unfold read_body. rewrite H. reflexivity. Qed.

Lemma read_body_open source src' b st h :
  read_body source LBRACKET src' b st h
  = inr {| rd_rest := src'; rd_build := []; rd_stack := b :: st;
           rd_heap := h |}.
Proof. reflexivity. Qed.

Lemma read_body_close source src' b parent st h :
  read_body source RBRACKET src' b (parent :: st) h
  = inr {| rd_rest := src';
           rd_build := parent ++ [Quote (fst (catenate b h))];
           rd_stack := st; rd_heap := snd (catenate b h) |}.
Proof.
  unfold read_body. simpl. destruct (catenate b h). reflexivity.
Qed.

Lemma read_body_text source t tail b st h :
  forallb (fun x => negb (x =? DQUOTE)) t = true ->
  read_body source DQUOTE (t ++ DQUOTE :: tail) b st h
  = inr {| rd_rest := tail; rd_build := b ++ [Text t]; rd_stack := st;
           rd_heap := h |}.
Proof.
  intros H. unfold read_body. simpl.
  destruct (scan_stops (fun x => negb (x =? DQUOTE)) t DQUOTE tail H eq_refl)
    as [-> ->].
  reflexivity.
Qed.

Lemma read_body_prompt source p tail b st h :
  forallb (fun x => negb (x =? RBRACE)) p = true ->
  read_body source LBRACE (p ++ RBRACE :: tail) b st h
  = inr {| rd_rest := tail; rd_build := b ++ [Prompt p]; rd_stack := st;
           rd_heap := h |}.
Proof.
  intros H. unfold read_body. simpl.
  destruct (scan_stops (fun x => negb (x =? RBRACE)) p RBRACE tail H eq_refl)
    as [-> ->].
  reflexivity.
Qed.

Lemma scan_name cs tail :
  forallb is_name_char cs = true -> separated tail = true ->
  take_while (fun x => negb (_isSeparator x)) (cs ++ tail) = cs
  /\ drop_while (fun x => negb (_isSeparator x)) (cs ++ tail) = tail.
Proof.
  intros Hcs Ht.
  assert (H : forallb (fun x => negb (_isSeparator x)) cs = true).
  { clear Ht. induction cs as [|x cs IH]; simpl in *; [reflexivity|].
    apply andb_prop in Hcs as [Hx Hcs].
    rewrite (name_char_not_separator x Hx), (IH Hcs). reflexivity. }
  destruct tail as [|c tail].
  - rewrite app_nil_r. apply scan_to_end, H.
  - apply scan_stops; [exact H|]. simpl in Ht. rewrite Ht. reflexivity.
Qed.

Lemma read_body_constant source c cs tail b st h :
  matches_constant (c :: cs) = true -> separated tail = true ->
  read_body source c (cs ++ tail) b st h
  = inr {| rd_rest := tail; rd_build := b ++ [Constant (c :: cs)];
           rd_stack := st; rd_heap := h |}.
Proof.
  intros Hm Ht. pose proof Hm as Hm'. simpl in Hm'.
  apply andb_prop in Hm' as [Hc Hcs].
  destruct (upper_plain c Hc) as (E1 & E2 & E3 & E4 & E5).
  unfold read_body. rewrite E1, E2, E3, E4, E5, Hc.
  destruct (scan_name cs tail Hcs Ht) as [-> ->]. rewrite Hm. reflexivity.
Qed.

Lemma read_body_variable source c cs tail b st h :
  matches_variable (c :: cs) = true -> separated tail = true ->
  read_body source c (cs ++ tail) b st h
  = inr {| rd_rest := tail; rd_build := b ++ [Var (c :: cs)];
           rd_stack := st; rd_heap := h |}.
Proof.
  intros Hm Ht. pose proof Hm as Hm'. simpl in Hm'.
  apply andb_prop in Hm' as [Hc Hcs].
  destruct (lower_plain c Hc) as (E1 & E2 & E3 & E4 & E5 & E6).
  unfold read_body. rewrite E1, E2, E3, E4, E5, E6.
  destruct (scan_name cs tail Hcs Ht) as [-> ->]. rewrite Hm. reflexivity.
Qed.

(** The rendering of a token starts with a character that is not white
    space. *)
Lemma token_starts h t :
  token h t = true ->
  exists c s, toString h t = c :: s /\ is_space c = false.
Proof.
  destruct t as [|name|name|r cs|b|t|p]; simpl; try discriminate.
  - destruct name as [|c cs]; [discriminate|]. intros H.
    apply andb_prop in H as [Hc _]. exists c, cs. split; [reflexivity|].
    apply (upper_plain c Hc).
  - destruct name as [|c cs]; [discriminate|]. intros H.
    apply andb_prop in H as [Hc _]. exists c, cs. split; [reflexivity|].
    apply (lower_plain c Hc).
  - intros _. eexists _, _. split; reflexivity.
  - intros _. eexists _, _. split; reflexivity.
  - intros _. eexists _, _. split; reflexivity.
Qed.

Lemma rereads_all h0 ts :
  Forall (rereads h0) ts ->
  forallb (token h0) ts = true ->
  forall source b st h tail,
    separated tail = true ->
    exists ts' h',
      read_loop source (join (List.map (toString h0) ts) ++ tail) b st h
      = read_loop source tail (b ++ ts') st h'
      /\ List.map erase ts' = List.map erase ts.
Proof.
  induction 1 as [|t ts Ht _ IH]; intros Hts source b st h tail Hs.
  - exists [], h. rewrite app_nil_r. auto.
  - simpl in Hts. apply andb_prop in Hts as [Hh Hts].
    destruct ts as [|t2 ts].
    + destruct (Ht Hh source b st h tail Hs) as (t' & h' & E & Ee).
      exists [t'], h'. simpl. rewrite E, Ee. auto.
    + change (join (List.map (toString h0) (t :: t2 :: ts)))
        with (toString h0 t ++ SPACE :: join (List.map (toString h0) (t2 :: ts))).
      rewrite <- app_assoc. cbn [app].
      destruct (Ht Hh source b st h
                  (SPACE :: join (List.map (toString h0) (t2 :: ts)) ++ tail)
                  eq_refl) as (t' & h' & E & Ee).
      rewrite E. rewrite read_loop_cons, read_body_space by reflexivity.
      cbn [rd_rest rd_build rd_stack rd_heap].
      assert (Hd : drop_while is_space
                     (join (List.map (toString h0) (t2 :: ts)) ++ tail)
                   = join (List.map (toString h0) (t2 :: ts)) ++ tail).
      { pose proof Hts as Hts'. simpl in Hts'.
        apply andb_prop in Hts' as [H2 _].
        destruct (token_starts h0 t2 H2) as (c & s & Ec & Hc).
        cbn [List.map join]. rewrite Ec.
        destruct (List.map (toString h0) ts); simpl; rewrite Hc;
          reflexivity. }
      rewrite Hd.
      destruct (IH Hts source (b ++ [t']) st h' tail Hs)
        as (ts' & h'' & E' & Ee').
      exists (t' :: ts'), h''. rewrite E', <- app_assoc. simpl.
      rewrite Ee, Ee'. auto.
Qed.

Lemma erase_atom v w : erase v = erase w -> is_atom v = is_atom w.
Proof. destruct v, w; simpl; congruence. Qed.

Lemma erase_atoms (ts' ts : list Value) :
  List.map erase ts' = List.map erase ts ->
  forallb is_atom ts' = forallb is_atom ts.
Proof.
  revert ts. induction ts' as [|v ts' IH]; intros [|w ts]; simpl;
    try discriminate; [reflexivity|].
  intros [= Hv Hts]. rewrite (erase_atom v w Hv), (IH ts Hts). reflexivity.
Qed.

(** [catenate] on a list that is, up to the identities of the arrays, a
    list of tokens. *)
Lemma catenate_reread h0 ts ts' h :
  forallb (token h0) ts = true ->
  List.map erase ts' = List.map erase ts ->
  erase (fst (catenate ts' h))
  = match ts with
    | [] => Id
    | _ :: _ => Catenate 0 (List.map erase ts)
    end.
Proof.
  intros Hts He. unfold catenate.
  rewrite catenate_buf_atoms
    by (rewrite (erase_atoms ts' ts He); exact (tokens_atoms h0 ts Hts)).
  destruct ts' as [|v ts'], ts as [|w ts]; try discriminate He;
    [reflexivity|].
  simpl. simpl in He. rewrite He. reflexivity.
Qed.

Lemma rereads_token h0 : forall t, rereads h0 t.
Proof.
  assert (H : forall v,
             rereads h0 v
             /\ match v with
                | Catenate _ ts => Forall (rereads h0) ts
                | _ => True
                end).
  2: { intros t. apply H. }
  apply Value_nested_ind.
  - split; [discriminate|exact I].
  - intros name. split; [|exact I]. intros Ht source b st h tail Hs.
    simpl in Ht. destruct name as [|c cs]; [discriminate|].
    exists (Constant (c :: cs)), h. split; [|reflexivity].
    cbn [toString app]. rewrite read_loop_cons.
    rewrite (read_body_constant source c cs tail b st h Ht Hs). reflexivity.
  - intros name. split; [|exact I]. intros Ht source b st h tail Hs.
    simpl in Ht. destruct name as [|c cs]; [discriminate|].
    exists (Var (c :: cs)), h. split; [|reflexivity].
    cbn [toString app]. rewrite read_loop_cons.
    rewrite (read_body_variable source c cs tail b st h Ht Hs). reflexivity.
  - intros r cs IH. split; [discriminate|].
    induction IH as [|c cs [Hc _] _ IHcs]; constructor; assumption.
  - intros body [_ IH]. split; [|exact I]. intros Ht source b st h tail Hs.
    rewrite token_Quote in Ht. destruct body as [| | |r ts| | |];
      try discriminate Ht.
    + exists (Quote Id), h. split; [|reflexivity].
      cbn [toString app]. rewrite read_loop_cons, read_body_open.
      cbn [rd_rest rd_build rd_stack rd_heap].
      rewrite read_loop_cons, read_body_close. reflexivity.
    + simpl in Ht. apply andb_prop in Ht as [Ht Hts].
      apply andb_prop in Ht as [Hr Hne].
      apply negb_true_iff in Hr.
      cbn [toString]. unfold current. rewrite Hr.
      cbn [app]. rewrite <- app_assoc. cbn [app].
      rewrite read_loop_cons, read_body_open.
      cbn [rd_rest rd_build rd_stack rd_heap].
      destruct (rereads_all h0 ts IH Hts source [] (b :: st) h
                  (RBRACKET :: tail) eq_refl) as (ts' & h' & E & Ee).
      rewrite E. cbn [app].
      rewrite read_loop_cons, read_body_close.
      cbn [rd_rest rd_build rd_stack rd_heap].
      exists (Quote (fst (catenate ts' h'))), (snd (catenate ts' h')).
      split; [reflexivity|].
      cbn [erase]. rewrite (catenate_reread h0 ts ts' h' Hts Ee).
      destruct ts; [discriminate Hne|reflexivity].
  - intros t. split; [|exact I]. intros Ht source b st h tail Hs.
    exists (Text t), h. split; [|reflexivity].
    cbn [toString app]. rewrite <- app_assoc. cbn [app].
    rewrite read_loop_cons.
    rewrite (read_body_text source t tail b st h Ht). reflexivity.
  - intros p. split; [|exact I]. intros Ht source b st h tail Hs.
    exists (Prompt p), h. split; [|reflexivity].
    cbn [toString app]. rewrite <- app_assoc. cbn [app].
    rewrite read_loop_cons.
    rewrite (read_body_prompt source p tail b st h Ht). reflexivity.
Qed.

(** A program whose arrays are in construction order: its structure. *)
Lemma program_snapshot h :
  forall v, (token h v = true -> snapshot h v = erase v)
            /\ (program h v = true -> snapshot h v = erase v).
Proof.
  apply Value_nested_ind; simpl; try (split; auto; fail).
  - intros r cs IH. split; [discriminate|]. intros H.
    apply andb_prop in H as [H Hts]. apply andb_prop in H as [Hr _].
    apply negb_true_iff in Hr. unfold current. rewrite Hr. f_equal.
    induction IH as [|c cs [Hc _] _ IHcs]; simpl in *; [reflexivity|].
    apply andb_prop in Hts as [Ha Hb]. rewrite (Hc Ha), (IHcs Hb).
    reflexivity.
  - intros b [_ IH]. split; [|discriminate]. intros H.
    assert (P : program h b = true) by (destruct b; exact H).
    rewrite (IH P). reflexivity.
Qed.

(** C9.  When [read] succeeds on a source string, printing the value and
    reading the text again succeeds and gives a value with the same
    structure: the same variants with the same names, payloads and
    children, in the same order. *)
Theorem read_toString_read src h v h1 :
  read src h = inr (v, h1) ->
  exists v2 h2,
    read (toString h1 v) h1 = inr (v2, h2)
    /\ snapshot h2 v2 = snapshot h1 v.
Proof.
  intros Hread. pose proof (read_program src h v h1 Hread) as Hp.
  assert (Hre : exists v2 h2,
             read (toString h1 v) h1 = inr (v2, h2) /\ erase v2 = erase v).
  { destruct v as [| | |r ts| | |]; try discriminate Hp.
    - exists Id, h1. simpl. rewrite read_empty. auto.
    - simpl in Hp. apply andb_prop in Hp as [Hp Hts].
      apply andb_prop in Hp as [Hr Hne]. apply negb_true_iff in Hr.
      cbn [toString]. unfold current. rewrite Hr.
      assert (Hall : Forall (rereads h1) ts).
      { clear. induction ts; constructor; [apply rereads_token|assumption]. }
      unfold read.
      destruct (rereads_all h1 ts Hall Hts
                  (join (List.map (toString h1) ts)) [] [] h1 [] eq_refl)
        as (ts' & h' & E & Ee).
      rewrite app_nil_r in E. rewrite E, read_loop_nil. cbn [app].
      exists (fst (catenate ts' h')), (snd (catenate ts' h')).
      split; [destruct (catenate ts' h'); reflexivity|].
      rewrite (catenate_reread h1 ts ts' h' Hts Ee).
      destruct ts; [discriminate Hne|reflexivity]. }
  destruct Hre as (v2 & h2 & Hread2 & He).
  exists v2, h2. split; [exact Hread2|].
  rewrite (proj2 (program_snapshot h2 v2) (read_program _ _ _ _ Hread2)).
  rewrite (proj2 (program_snapshot h1 v) Hp). exact He.
Qed.

Lemma read_toString_read_witness :
  read (lit_q "[foo  [Bar]]Copy  { hi }'x'") empty_heap
  = inr (Catenate 2
           [Quote (Catenate 1 [Var (lit "foo");
                               Quote (Catenate 0 [Constant (lit "Bar")])]);
            Constant (lit "Copy"); Prompt (lit " hi "); Text (lit "x")],
         snd (alloc (snd (alloc (snd (alloc empty_heap))))))
  /\ exists v2 h2,
       read (lit_q "[foo [Bar]] Copy { hi } 'x'")
         (snd (alloc (snd (alloc (snd (alloc empty_heap))))))
       = inr (v2, h2)
       /\ snapshot h2 v2
          = Catenate 0
              [Quote (Catenate 0 [Var (lit "foo");
                                  Quote (Catenate 0 [Constant (lit "Bar")])]);
               Constant (lit "Copy"); Prompt (lit " hi "); Text (lit "x")].
Proof.
  assert (H : read (lit_q "[foo  [Bar]]Copy  { hi }'x'") empty_heap
              = inr (Catenate 2
                       [Quote (Catenate 1
                                 [Var (lit "foo");
                                  Quote (Catenate 0 [Constant (lit "Bar")])]);
                        Constant (lit "Copy"); Prompt (lit " hi ");
                        Text (lit "x")],
                     snd (alloc (snd (alloc (snd (alloc empty_heap)))))))
    by (vm_compute; reflexivity).
  split; [exact H|].
  exact (read_toString_read _ _ _ _ H).
Defined.

(** * Further properties *)

(** Case analysis on everything an iteration inspects, innermost first. *)
Ltac split_inner H :=
  repeat (match type of H with
          | context [match ?x with _ => _ end] =>
              lazymatch x with
              | context [match _ with _ => _ end] => fail
              | _ => destruct x eqn:?
              end
          end; try discriminate H; simpl in H).

(** Every outcome of an iteration, with the stack operators unfolded. *)
Ltac step_outcomes H :=
  unfold dispatch in H;
  repeat (destruct (decide _) as [->|_];
          [cbv [case_Copy case_Drop case_Swap case_Cat case_Abs case_App
                case_Inl case_Inr case_Pair case_Shift case_Reset
                case_Define case_Delete try_branches try_shift
                popCode popData pushCode pushData pushCode_array with_state
                suspend bind] in H;
           split_inner H|]).

Lemma thunk_residual s :
  sink (thunk s) ++ rev (data (thunk s)) ++ code (thunk s)
  = sink s ++ rev (data s) ++ code s.
Proof.
  unfold thunk. destruct (code s) as [|top below]; simpl.
  - rewrite <- app_assoc. reflexivity.
  - rewrite <- !app_assoc. reflexivity.
Qed.

Lemma step_sink hand m m' f :
  step hand m = inr (m', f) ->
  sink (state m') = sink (state m) \/ state m' = thunk (state m).
Proof.
  intros H. destruct hand as [|name|name|r cs|b|t|p]; simpl in H.
  - discriminate.
  - step_outcomes H; try discriminate H; try (injection H as <- <-; simpl; auto).
  - cbv [popCode pushCode with_state suspend bind] in H. split_inner H;
      try discriminate H; injection H as <- <-; simpl; auto.
  - cbv [popCode pushCode_array bind] in H. split_inner H;
      try discriminate H; injection H as <- <-; simpl; auto.
  - cbv [popCode pushData with_state bind] in H. split_inner H;
      try discriminate H; injection H as <- <-; simpl; auto.
  - cbv [popCode pushData with_state bind] in H. split_inner H;
      try discriminate H; injection H as <- <-; simpl; auto.
  - unfold suspend in H. injection H as <- <-. simpl. auto.
Qed.

Lemma step_dict hand m m' f :
  step hand m = inr (m', f) ->
  dict m' = dict m
  \/ (exists d name body ds,
        hand = Constant (lit "Define") /\ dict m = Some d
        /\ data (state m) = Text name :: Quote body :: ds
        /\ dict m' = Some (<[name := body]> d))
  \/ (exists d name ds,
        hand = Constant (lit "Delete") /\ dict m = Some d
        /\ data (state m) = Text name :: ds
        /\ dict m' = Some (delete name d)).
Proof.
  intros H. destruct hand as [|name|name|r cs|b|t|p]; simpl in H.
  - discriminate.
  - unfold dispatch in H.
    do 11 (destruct (decide _) as [->|_];
          [cbv [case_Copy case_Drop case_Swap case_Cat case_Abs case_App
                case_Inl case_Inr case_Pair case_Shift case_Reset
                try_branches try_shift
                popCode popData pushCode pushData pushCode_array with_state
                suspend bind] in H;
           split_inner H; try discriminate H; injection H as <- <-;
           left; reflexivity|]).
    destruct (decide _) as [->|_]; [|destruct (decide _) as [->|_]].
    + unfold case_Define, suspend, getData in H.
      destruct (dict m) as [d|] eqn:Ed; [|injection H as <- <-; auto].
      destruct (data (state m)) as [|a [|b l]] eqn:Edata; simpl in H;
        try (injection H as <- <-; auto; fail);
        destruct a as [| | | | |tname|]; simpl in H;
        try (injection H as <- <-; auto; fail);
        destruct b as [| | | |qbody| |]; simpl in H;
        try (injection H as <- <-; auto; fail).
      cbv [popCode popData bind] in H. split_inner H; injection H as <- <-.
      right. left. exists d, tname, qbody, l. auto.
    + unfold case_Delete, suspend, getData in H.
      destruct (dict m) as [d|] eqn:Ed; [|injection H as <- <-; auto].
      destruct (data (state m)) as [|a l] eqn:Edata; simpl in H;
        try (injection H as <- <-; auto; fail);
        destruct a as [| | | | |tname|]; simpl in H;
        try (injection H as <- <-; auto; fail).
      cbv [popCode popData bind] in H. split_inner H; injection H as <- <-.
      right. right. exists d, tname, l. auto.
    + injection H as <- <-. auto.
  - cbv [popCode pushCode with_state suspend bind] in H. split_inner H;
      try discriminate H; injection H as <- <-; simpl; auto.
  - cbv [popCode pushCode_array bind] in H. split_inner H;
      try discriminate H; injection H as <- <-; simpl; auto.
  - cbv [popCode pushData with_state bind] in H. split_inner H;
      try discriminate H; injection H as <- <-; simpl; auto.
  - cbv [popCode pushData with_state bind] in H. split_inner H;
      try discriminate H; injection H as <- <-; simpl; auto.
  - unfold suspend in H. injection H as <- <-. simpl. auto.
Qed.

Lemma loop_no_dictionary gas m m' n :
  dict m = None -> loop gas m = (inr m', n) -> dict m' = None.
Proof.
  revert m n. induction gas as [|gas IH]; intros m n Hd H; simpl in H.
  - destruct (code (state m)); injection H as <- _; exact Hd.
  - destruct (code (state m)) as [|hand below]; [injection H as <- _; exact Hd|].
    destruct (step hand m) as [p|[m1 fl]] eqn:Hs; [discriminate|].
    assert (Hd1 : dict m1 = None).
    { destruct (step_dict _ _ _ _ Hs) as [E|[(d & ? & ? & ? & _ & E & _)|
                                             (d & ? & ? & _ & E & _)]];
        congruence. }
    destruct fl.
    + destruct (loop gas m1) as [r k] eqn:E. injection H as -> _.
      apply (IH _ _ Hd1 E).
    + injection H as <- _. exact Hd1.
Qed.

Lemma literal_drop n l :
  forallb is_literal l = true -> forallb is_literal (skipn n l) = true.
Proof.
  revert l. induction n as [|n IH]; intros [|v l]; simpl; auto.
  intros H. apply andb_prop in H as [_ H]. auto.
Qed.

Lemma getData_literal i s v :
  forallb is_literal (data s) = true -> getData i s = inr v ->
  is_literal v = true.
Proof.
  unfold getData. intros Hl H.
  destruct (nth_error (data s) i) as [w|] eqn:E; [|discriminate].
  injection H as <-. apply nth_error_In in E.
  rewrite forallb_forall in Hl. auto.
Qed.

Lemma thunk_data s : data (thunk s) = [].
Proof. unfold thunk. destruct (code s); reflexivity. Qed.

Ltac literal_goal Hl :=
  repeat match goal with
         | Hg : getData _ _ = inr _ |- _ =>
             apply (getData_literal _ _ _ Hl) in Hg
         end;
  simpl; rewrite ?thunk_data; simpl;
  repeat match goal with
         | Hv : is_literal _ = true |- _ => rewrite Hv; clear Hv
         end;
  simpl; auto using literal_drop.

Lemma step_literals hand m m' f :
  forallb is_literal (data (state m)) = true ->
  step hand m = inr (m', f) ->
  forallb is_literal (data (state m')) = true.
Proof.
  intros Hl H. destruct hand as [|name|name|r cs|b|t|p]; simpl in H.
  - discriminate.
  - step_outcomes H; try discriminate H; try (injection H as <- <-);
      literal_goal Hl.
  - cbv [popCode pushCode with_state suspend bind] in H. split_inner H;
      try discriminate H; injection H as <- <-; literal_goal Hl.
  - cbv [popCode pushCode_array bind] in H. split_inner H;
      try discriminate H; injection H as <- <-; literal_goal Hl.
  - cbv [popCode pushData with_state bind] in H. split_inner H;
      try discriminate H; injection H as <- <-; literal_goal Hl.
  - cbv [popCode pushData with_state bind] in H. split_inner H;
      try discriminate H; injection H as <- <-; literal_goal Hl.
  - unfold suspend in H. injection H as <- <-. literal_goal Hl.
Qed.

Lemma loop_literals gas m m' n :
  forallb is_literal (data (state m)) = true ->
  loop gas m = (inr m', n) ->
  forallb is_literal (data (state m')) = true.
Proof.
  revert m n. induction gas as [|gas IH]; intros m n Hl H; simpl in H.
  - destruct (code (state m)); injection H as <- _; exact Hl.
  - destruct (code (state m)) as [|hand below]; [injection H as <- _; exact Hl|].
    destruct (step hand m) as [p|[m1 fl]] eqn:Hs; [discriminate|].
    pose proof (step_literals _ _ _ _ Hl Hs) as Hl1.
    destruct fl.
    + destruct (loop gas m1) as [r k] eqn:E. injection H as -> _.
      apply (IH _ _ Hl1 E).
    + injection H as <- _. exact Hl1.
Qed.

Lemma thunk_sink s : exists more, sink (thunk s) = sink s ++ more.
Proof.
  unfold thunk. destruct (code s) as [|top below]; simpl.
  - eexists. reflexivity.
  - eexists. rewrite <- app_assoc. reflexivity.
Qed.

Lemma loop_sink gas m m' n :
  loop gas m = (inr m', n) ->
  exists more, sink (state m') = sink (state m) ++ more.
Proof.
  revert m n. induction gas as [|gas IH]; intros m n H; simpl in H.
  - exists []. destruct (code (state m)); injection H as <- _;
      rewrite app_nil_r; reflexivity.
  - destruct (code (state m)) as [|hand below];
      [exists []; injection H as <- _; rewrite app_nil_r; reflexivity|].
    destruct (step hand m) as [p|[m1 fl]] eqn:Hs; [discriminate|].
    assert (H1 : exists more, sink (state m1) = sink (state m) ++ more).
    { destruct (step_sink _ _ _ _ Hs) as [E|E].
      - exists []. rewrite app_nil_r. exact E.
      - rewrite E. apply thunk_sink. }
    destruct H1 as [more1 E1]. destruct fl.
    + destruct (loop gas m1) as [r k] eqn:E. injection H as -> _.
      destruct (IH _ _ E) as [more2 E2].
      exists (more1 ++ more2). rewrite E2, E1, app_assoc. reflexivity.
    + injection H as <- _. exists more1. exact E1.
Qed.

Lemma loop_0 m : loop 0 m = (inr m, 0%nat).
Proof. simpl. destruct (code (state m)); reflexivity. Qed.

Lemma loop_resume gas hand below d k h dic m' :
  step hand (machine (hand :: below) d k h dic) = inr (m', Resume) ->
  loop (S gas) (machine (hand :: below) d k h dic)
  = (fst (loop gas m'), S (snd (loop gas m'))).
Proof.
  intros H. unfold machine in *. cbn [loop state code]. rewrite H.
  destruct (loop gas m'). reflexivity.
Qed.

Lemma loop_stop gas hand below d k h dic m' :
  step hand (machine (hand :: below) d k h dic) = inr (m', Stop) ->
  loop (S gas) (machine (hand :: below) d k h dic) = (inr m', 1%nat).
Proof.
  intros H. unfold machine in *. cbn [loop state code]. rewrite H.
  reflexivity.
Qed.

Lemma Swap_Swap a b ds below k h d :
  loop 2 (machine (Constant (lit "Swap") :: Constant (lit "Swap") :: below)
            (a :: b :: ds) k h d)
  = (inr (machine below (a :: b :: ds) k h d), 2%nat).
Proof. destruct below; reflexivity. Qed.

Lemma Copy_Drop a ds below k h d :
  loop 2 (machine (Constant (lit "Copy") :: Constant (lit "Drop") :: below)
            (a :: ds) k h d)
  = (inr (machine below (a :: ds) k h d), 2%nat).
Proof. destruct below; reflexivity. Qed.

Lemma Abs_App a ds below k h d :
  is_literal a = true ->
  loop 3 (machine (Constant (lit "Abs") :: Constant (lit "App") :: below)
            (a :: ds) k h d)
  = (inr (machine below (a :: ds) k h d), 3%nat).
Proof. destruct a; try discriminate; destruct below; reflexivity. Qed.

Lemma literal_step a below ds k h d :
  is_literal a = true ->
  step a (machine (a :: below) ds k h d)
  = inr (machine below (a :: ds) k h d, Resume).
Proof. destruct a; try discriminate; reflexivity. Qed.

Lemma Pair_step a b below ds k h d :
  is_literal a = true -> is_literal b = true ->
  step (Constant (lit "Pair"))
    (machine (Constant (lit "Pair") :: below) (b :: a :: ds) k h d)
  = inr (machine below (Quote (Catenate (next h) [a; b]) :: ds) k
           (snd (alloc h)) d, Resume).
Proof.
  destruct a; try discriminate; destruct b; try discriminate; reflexivity.
Qed.

Lemma App_step body below ds k h d :
  step (Constant (lit "App"))
    (machine (Constant (lit "App") :: below) (Quote body :: ds) k h d)
  = inr (machine (body :: below) ds k h d, Resume).
Proof. reflexivity. Qed.

Lemma Pair_App a b ds below k h d :
  is_literal a = true -> is_literal b = true ->
  loop 5 (machine (Constant (lit "Pair") :: Constant (lit "App") :: below)
            (b :: a :: ds) k h d)
  = (inr (machine below (b :: a :: ds) k
            (reverse_in_place (next h) (snd (alloc h))) d), 5%nat).
Proof.
  intros Ha Hb.
  rewrite (loop_resume _ _ _ _ _ _ _ _ (Pair_step a b _ ds k h d Ha Hb)).
  rewrite (loop_resume _ _ _ _ _ _ _ _ (App_step _ _ _ _ _ _)).
  assert (E : step (Catenate (next h) [a; b])
                (machine (Catenate (next h) [a; b] :: below) ds k
                   (snd (alloc h)) d)
              = inr (machine (a :: b :: below) ds k
                       (reverse_in_place (next h) (snd (alloc h))) d,
                     Resume)).
  { rewrite (Catenate_step
               (machine (Catenate (next h) [a; b] :: below) ds k
                  (snd (alloc h)) d) (next h) [a; b] below eq_refl).
    unfold current. cbn [heap machine]. rewrite (alloc_fresh h).
    reflexivity. }
  rewrite (loop_resume _ _ _ _ _ _ _ _ E).
  rewrite (loop_resume _ _ _ _ _ _ _ _ (literal_step a _ _ _ _ _ Ha)).
  rewrite (loop_resume _ _ _ _ _ _ _ _ (literal_step b _ _ _ _ _ Hb)).
  rewrite loop_0. reflexivity.
Qed.

Lemma Define_lookup name body ds below k h d :
  loop 2 (machine (Constant (lit "Define") :: Var name :: below)
            (Text name :: Quote body :: ds) k h (Some d))
  = (inr (machine (body :: below) ds k h (Some (<[name := body]> d))),
     2%nat).
Proof.
  assert (E1 : step (Constant (lit "Define"))
                 (machine (Constant (lit "Define") :: Var name :: below)
                    (Text name :: Quote body :: ds) k h (Some d))
               = inr (machine (Var name :: below) ds k h
                        (Some (<[name := body]> d)), Resume))
    by reflexivity.
  rewrite (loop_resume _ _ _ _ _ _ _ _ E1).
  assert (E2 : step (Var name)
                 (machine (Var name :: below) ds k h
                    (Some (<[name := body]> d)))
               = inr (machine (body :: below) ds k h
                        (Some (<[name := body]> d)), Resume)).
  { cbn [step machine dict]. rewrite lookup_insert_eq. reflexivity. }
  rewrite (loop_resume _ _ _ _ _ _ _ _ E2), loop_0. reflexivity.
Qed.

Lemma Delete_lookup gas name ds below k h d :
  loop (S (S gas)) (machine (Constant (lit "Delete") :: Var name :: below)
                      (Text name :: ds) k h (Some d))
  = (inr (machine below [] (k ++ rev ds ++ [Var name]) h
            (Some (delete name d))), 2%nat).
Proof.
  assert (E1 : step (Constant (lit "Delete"))
                 (machine (Constant (lit "Delete") :: Var name :: below)
                    (Text name :: ds) k h (Some d))
               = inr (machine (Var name :: below) ds k h
                        (Some (delete name d)), Resume))
    by reflexivity.
  rewrite (loop_resume _ _ _ _ _ _ _ _ E1).
  assert (E2 : step (Var name)
                 (machine (Var name :: below) ds k h (Some (delete name d)))
               = inr (machine below [] (k ++ rev ds ++ [Var name]) h
                        (Some (delete name d)), Stop)).
  { cbn [step machine dict]. rewrite lookup_delete_eq.
    unfold suspend, with_state, thunk, machine. simpl.
    rewrite <- app_assoc. reflexivity. }
  rewrite (loop_stop _ _ _ _ _ _ _ _ E2). reflexivity.
Qed.

Lemma read_body_throws source c src' b st h p :
  read_body source c src' b st h = inl p ->
  exists msg, p = Unreadable source msg /\ reader_message msg.
Proof.
  unfold read_body, reader_message. intros H.
  repeat match type of H with
         | (if ?x then _ else _) = _ => destruct x
         | match ?x with _ => _ end = _ => destruct x eqn:?
         end;
    try discriminate H; injection H as <-; eexists; split;
    try reflexivity; eauto 6.
Qed.

Lemma read_loop_throws n :
  forall source src b st h p,
    (length src <= n)%nat ->
    read_loop source src b st h = inl p ->
    exists msg, p = Unreadable source msg /\ reader_message msg.
Proof.
  induction n as [|n IH]; intros source src b st h p Hn H.
  - destruct src; [|simpl in Hn; lia].
    rewrite read_loop_nil in H. destruct st; [discriminate|].
    injection H as <-. eexists. split; [reflexivity|left; reflexivity].
  - destruct src as [|c src'].
    + rewrite read_loop_nil in H. destruct st; [discriminate|].
      injection H as <-. eexists. split; [reflexivity|left; reflexivity].
    + rewrite read_loop_cons in H.
      destruct (read_body source c src' b st h) as [q|r] eqn:E.
      * injection H as <-. apply (read_body_throws _ _ _ _ _ _ _ E).
      * pose proof (read_body_shrinks _ _ _ _ _ _ _ E) as Hl.
        apply (IH source (rd_rest r) (rd_build r) (rd_stack r) (rd_heap r));
          [simpl in *; lia|exact H].
Qed.

(** What is read does not depend on the source kept for the error. *)
Lemma read_body_source s1 s2 c src' b st h r :
  read_body s1 c src' b st h = inr r -> read_body s2 c src' b st h = inr r.
Proof.
  unfold read_body. intros H.
  repeat match type of H with
         | (if ?x then _ else _) = _ => destruct x
         | match ?x with _ => _ end = _ => destruct x eqn:?
         end;
    try discriminate H; exact H.
Qed.

Lemma read_loop_source n :
  forall s1 s2 src b st h r,
    (length src <= n)%nat ->
    read_loop s1 src b st h = inr r -> read_loop s2 src b st h = inr r.
Proof.
  induction n as [|n IH]; intros s1 s2 src b st h r Hn H.
  - destruct src; [|simpl in Hn; lia].
    rewrite read_loop_nil in *. destruct st; [exact H|discriminate].
  - destruct src as [|c src'].
    + rewrite read_loop_nil in *. destruct st; [exact H|discriminate].
    + rewrite read_loop_cons in *.
      destruct (read_body s1 c src' b st h) as [q|rd] eqn:E; [discriminate|].
      rewrite (read_body_source s1 s2 _ _ _ _ _ _ E).
      pose proof (read_body_shrinks _ _ _ _ _ _ _ E) as Hl.
      apply (IH s1 s2 (rd_rest rd) (rd_build rd) (rd_stack rd) (rd_heap rd));
        [simpl in *; lia|exact H].
Qed.

(** White space before the next token is skipped. *)
Lemma drop_while_spaces ws s :
  forallb is_space ws = true ->
  drop_while is_space (ws ++ s) = drop_while is_space s.
Proof.
  induction ws as [|w ws IH]; simpl; [reflexivity|].
  intros H. apply andb_prop in H as [Hw H]. rewrite Hw. auto.
Qed.

Lemma read_loop_drop_spaces source s b st h :
  read_loop source (drop_while is_space s) b st h = read_loop source s b st h.
Proof.
  destruct s as [|c s]; [reflexivity|]. simpl.
  destruct (is_space c) eqn:E; [|reflexivity].
  rewrite (read_loop_cons source c s), (read_body_space _ _ _ _ _ _ E).
  reflexivity.
Qed.

Lemma read_loop_spaces source ws s b st h :
  forallb is_space ws = true ->
  read_loop source (ws ++ s) b st h = read_loop source s b st h.
Proof.
  intros H. rewrite <- (read_loop_drop_spaces source (ws ++ s)).
  rewrite (drop_while_spaces ws s H). apply read_loop_drop_spaces.
Qed.

(** The scanning loops on an input that goes on after a stop. *)
Lemma scan_stopped p s t :
  drop_while p s <> [] ->
  take_while p (s ++ t) = take_while p s
  /\ drop_while p (s ++ t) = drop_while p s ++ t.
Proof.
  induction s as [|x s IH]; simpl; [congruence|].
  destruct (p x); [|auto]. intros H. destruct (IH H) as [-> ->]. auto.
Qed.

Lemma scan_before p s t :
  match t with [] => True | x :: _ => p x = false end ->
  take_while p (s ++ t) = take_while p s
  /\ drop_while p (s ++ t) = drop_while p s ++ t.
Proof.
  intros Ht. induction s as [|x s IH]; simpl.
  - destruct t as [|y t]; [auto|]. simpl. rewrite Ht. auto.
  - destruct (p x); [|auto]. destruct IH as [-> ->]. auto.
Qed.

Lemma separated_stops t :
  separated t = true ->
  match t with
  | [] => True
  | x :: _ => negb (_isSeparator x) = false
  end.
Proof. destruct t as [|x t]; simpl; [auto|]. intros ->. reflexivity. Qed.

Lemma spaces_separated ws : forallb is_space ws = true -> separated ws = true.
Proof.
  destruct ws as [|x ws]; simpl; [auto|]. intros H.
  apply andb_prop in H as [Hx _]. unfold _isSeparator. rewrite Hx.
  reflexivity.
Qed.

(** One iteration on an input that goes on with [t]: the same, with [t]
    left to read, unless the iteration skips white space up to [t] and
    then into it. *)
Lemma read_body_append source source' c src' b st h r t :
  separated t = true ->
  read_body source c src' b st h = inr r ->
  read_body source' c (src' ++ t) b st h
  = inr {| rd_rest := rd_rest r ++ t; rd_build := rd_build r;
           rd_stack := rd_stack r; rd_heap := rd_heap r |}
  \/ (rd_rest r = []
      /\ read_body source' c (src' ++ t) b st h
         = inr {| rd_rest := drop_while is_space t; rd_build := rd_build r;
                  rd_stack := rd_stack r; rd_heap := rd_heap r |}).
Proof.
  intros Ht. unfold read_body.
  destruct (is_space c).
  { intros [= <-]. cbn [rd_rest rd_build rd_stack rd_heap].
    destruct (drop_while is_space src') as [|x rest] eqn:E.
    - right. split; [reflexivity|]. do 2 f_equal.
      assert (Hall : forallb is_space src' = true).
      { clear -E. induction src' as [|y s IH]; simpl in *; [reflexivity|].
        destruct (is_space y); [auto|discriminate]. }
      apply (drop_while_spaces src' t Hall).
    - left. do 2 f_equal.
      destruct (scan_stopped is_space src' t) as [_ ->]; [congruence|].
      rewrite E. reflexivity. }
  destruct (c =? LBRACKET); [intros [= <-]; left; reflexivity|].
  destruct (c =? RBRACKET).
  { destruct st; [discriminate|]. destruct (catenate b h).
    intros [= <-]. left. reflexivity. }
  destruct (c =? DQUOTE).
  { destruct (drop_while _ src') as [|x rest] eqn:E; [discriminate|].
    intros [= <-]. left.
    destruct (scan_stopped (fun x => negb (x =? DQUOTE)) src' t)
      as [-> ->]; [congruence|]. rewrite E. reflexivity. }
  destruct (c =? LBRACE).
  { destruct (drop_while _ src') as [|x rest] eqn:E; [discriminate|].
    intros [= <-]. left.
    destruct (scan_stopped (fun x => negb (x =? RBRACE)) src' t)
      as [-> ->]; [congruence|]. rewrite E. reflexivity. }
  destruct (scan_before (fun x => negb (_isSeparator x)) src' t
              (separated_stops t Ht)) as [Et Ed].
  destruct (is_upper c).
  { rewrite Et, Ed. destruct (matches_constant _); [|discriminate].
    intros [= <-]. left. reflexivity. }
  rewrite Et, Ed. destruct (matches_variable _); [|discriminate].
  intros [= <-]. left. reflexivity.
Qed.

(** Reading an input that reads well, followed by [t]: the loop arrives
    at [t] with the builds of the input and an empty stack. *)
Lemma read_loop_append n :
  forall source source' src b st h v hf t,
    (length src <= n)%nat ->
    separated t = true ->
    read_loop source src b st h = inr (v, hf) ->
    exists bf h',
      catenate bf h' = (v, hf)
      /\ read_loop source' (src ++ t) b st h = read_loop source' t bf [] h'.
Proof.
  induction n as [|n IH]; intros source source' src b st h v hf t Hn Ht H.
  - destruct src; [|simpl in Hn; lia].
    rewrite read_loop_nil in H. destruct st; [|discriminate].
    injection H as H. exists b, h. auto.
  - destruct src as [|c src'].
    + rewrite read_loop_nil in H. destruct st; [|discriminate].
      injection H as H. exists b, h. auto.
    + cbn [app]. rewrite read_loop_cons in H. rewrite read_loop_cons.
      destruct (read_body source c src' b st h) as [q|rd] eqn:E;
        [discriminate|].
      pose proof (read_body_shrinks _ _ _ _ _ _ _ E) as Hl.
      destruct (read_body_append source source' _ _ _ _ _ _ t Ht E)
        as [->|[Hr ->]]; cbn [rd_rest rd_build rd_stack rd_heap].
      * apply (IH source source' (rd_rest rd) (rd_build rd) (rd_stack rd)
                 (rd_heap rd)); [simpl in *; lia|exact Ht|exact H].
      * rewrite Hr, read_loop_nil in H.
        destruct (rd_stack rd); [|discriminate]. injection H as H.
        exists (rd_build rd), (rd_heap rd). split; [exact H|].
        apply read_loop_drop_spaces.
Qed.

(** One more open bracket below: the same iteration. *)
Lemma read_body_deeper source source' c src' b st h r x :
  read_body source c src' b st h = inr r ->
  read_body source' c src' b (st ++ [x]) h
  = inr {| rd_rest := rd_rest r; rd_build := rd_build r;
           rd_stack := rd_stack r ++ [x]; rd_heap := rd_heap r |}.
Proof.
  unfold read_body. intros H.
  repeat match type of H with
         | (if ?x then _ else _) = _ => destruct x
         | match ?x with _ => _ end = _ => destruct x eqn:?
         end;
    try discriminate H; injection H as <-; reflexivity.
Qed.

Lemma read_loop_deeper n :
  forall source source' src b st h r x,
    (length src <= n)%nat ->
    read_loop source src b st h = inr r ->
    read_loop source' src b (st ++ [x]) h
    = inl (Unreadable source' (lit "Unbalanced brackets")).
Proof.
  induction n as [|n IH]; intros source source' src b st h r x Hn H.
  - destruct src; [|simpl in Hn; lia].
    rewrite read_loop_nil in *. destruct st; [reflexivity|discriminate].
  - destruct src as [|c src'].
    + rewrite read_loop_nil in *. destruct st; [reflexivity|discriminate].
    + rewrite read_loop_cons in *.
      destruct (read_body source c src' b st h) as [q|rd] eqn:E;
        [discriminate|].
      rewrite (read_body_deeper source source' _ _ _ _ _ _ x E).
      cbn [rd_rest rd_build rd_stack rd_heap].
      pose proof (read_body_shrinks _ _ _ _ _ _ _ E) as Hl.
      apply (IH source source' _ _ _ _ r x); [simpl in *; lia|exact H].
Qed.

Lemma take_drop p s : take_while p s ++ drop_while p s = s.
Proof.
  induction s as [|x s IH]; simpl; [reflexivity|].
  destruct (p x); simpl; [rewrite IH|]; reflexivity.
Qed.

Lemma drop_while_head p s x r : drop_while p s = x :: r -> p x = false.
Proof.
  induction s as [|y s IH]; simpl; [discriminate|].
  destruct (p y) eqn:E; [exact IH|]. intros [= -> _]. exact E.
Qed.

Lemma drop_while_separated s :
  separated (drop_while (fun x => negb (_isSeparator x)) s) = true.
Proof.
  destruct (drop_while (fun x => negb (_isSeparator x)) s) as [|x r] eqn:E;
    [reflexivity|].
  apply drop_while_head in E. simpl. destruct (_isSeparator x);
    [reflexivity|discriminate].
Qed.

(** One iteration of [read] consumes a part of the input that it reads
    the same way whatever follows it, a name provided that a separator or
    the end of the input follows. *)
Lemma read_step_resume source c src' b st h rd :
  read_body source c src' b st h = inr rd ->
  (starts_name c = true -> separated (rd_rest rd) = true)
  /\ exists consumed,
       src' = consumed ++ rd_rest rd
       /\ forall source' u,
            (starts_name c = true -> separated u = true) ->
            read_loop source' (c :: consumed ++ u) b st h
            = read_loop source' u (rd_build rd) (rd_stack rd) (rd_heap rd).
Proof.
  intros H. pose proof H as H0. unfold read_body in H.
  unfold starts_name.
  destruct (is_space c) eqn:Hs.
  { injection H as <-. cbn [rd_rest rd_build rd_stack rd_heap].
    split; [discriminate|].
    exists (take_while is_space src'). split; [symmetry; apply take_drop|].
    intros source' u _.
    rewrite read_loop_cons, (read_body_space _ _ _ _ _ _ Hs).
    cbn [rd_rest rd_build rd_stack rd_heap].
    rewrite drop_while_spaces by apply take_while_holds.
    apply read_loop_drop_spaces. }
  destruct (c =? LBRACKET) eqn:Hl.
  { injection H as <-. cbn [rd_rest rd_build rd_stack rd_heap].
    split; [discriminate|]. exists []. split; [reflexivity|].
    intros source' u _. apply N.eqb_eq in Hl. subst c.
    rewrite read_loop_cons. reflexivity. }
  destruct (c =? RBRACKET) eqn:Hr.
  { split; [discriminate|]. destruct st as [|parent st]; [discriminate|].
    destruct (catenate b h) as [body h'] eqn:Ec. injection H as <-.
    cbn [rd_rest rd_build rd_stack rd_heap].
    exists []. split; [reflexivity|].
    intros source' u _. apply N.eqb_eq in Hr. subst c.
    rewrite read_loop_cons, read_body_close, Ec. reflexivity. }
  destruct (c =? DQUOTE) eqn:Hq.
  { split; [discriminate|].
    destruct (drop_while (fun x => negb (x =? DQUOTE)) src') as [|x src'']
      eqn:Ed; [discriminate|].
    injection H as <-. cbn [rd_rest rd_build rd_stack rd_heap].
    pose proof (drop_while_head _ _ _ _ Ed) as Hx.
    apply negb_false_iff, N.eqb_eq in Hx. subst x.
    exists (take_while (fun x => negb (x =? DQUOTE)) src' ++ [DQUOTE]).
    split.
    { rewrite <- app_assoc. simpl. rewrite <- Ed. symmetry. apply take_drop. }
    intros source' u _. apply N.eqb_eq in Hq. subst c.
    rewrite read_loop_cons, <- app_assoc. simpl.
    rewrite read_body_text by apply take_while_holds. reflexivity. }
  destruct (c =? LBRACE) eqn:Hb.
  { split; [discriminate|].
    destruct (drop_while (fun x => negb (x =? RBRACE)) src') as [|x src'']
      eqn:Ed; [discriminate|].
    injection H as <-. cbn [rd_rest rd_build rd_stack rd_heap].
    pose proof (drop_while_head _ _ _ _ Ed) as Hx.
    apply negb_false_iff, N.eqb_eq in Hx. subst x.
    exists (take_while (fun x => negb (x =? RBRACE)) src' ++ [RBRACE]).
    split.
    { rewrite <- app_assoc. simpl. rewrite <- Ed. symmetry. apply take_drop. }
    intros source' u _. apply N.eqb_eq in Hb. subst c.
    rewrite read_loop_cons, <- app_assoc. simpl.
    rewrite read_body_prompt by apply take_while_holds. reflexivity. }
  destruct (is_upper c) eqn:Hu.
  - destruct (matches_constant
                (c :: take_while (fun x => negb (_isSeparator x)) src'))
      eqn:Hm; [|discriminate].
    injection H as <-. cbn [rd_rest rd_build rd_stack rd_heap].
    split; [intros _; apply drop_while_separated|].
    exists (take_while (fun x => negb (_isSeparator x)) src').
    split; [symmetry; apply take_drop|].
    intros source' u Hsep. rewrite read_loop_cons.
    rewrite (read_body_constant _ _ _ _ _ _ _ Hm (Hsep eq_refl)).
    reflexivity.
  - destruct (matches_variable
                (c :: take_while (fun x => negb (_isSeparator x)) src'))
      eqn:Hm; [|discriminate].
    injection H as <-. cbn [rd_rest rd_build rd_stack rd_heap].
    split; [intros _; apply drop_while_separated|].
    exists (take_while (fun x => negb (_isSeparator x)) src').
    split; [symmetry; apply take_drop|].
    intros source' u Hsep. rewrite read_loop_cons.
    rewrite (read_body_variable _ _ _ _ _ _ _ Hm (Hsep eq_refl)).
    reflexivity.
Qed.

(** The iteration that reports an unknown symbol is at the first
    character of a name that matches neither pattern. *)
Lemma read_body_offends source c src' b st h name :
  read_body source c src' b st h
  = inl (Unreadable source (unknown_symbol name)) ->
  name = c :: take_while (fun x => negb (_isSeparator x)) src'
  /\ starts_name c = true
  /\ (if is_upper c then matches_constant name else matches_variable name)
     = false.
Proof.
  unfold read_body, starts_name. intros H.
  destruct (is_space c); [discriminate|].
  destruct (c =? LBRACKET); [discriminate|].
  destruct (c =? RBRACKET).
  { destruct st; [|destruct (catenate b h); discriminate].
    injection H as H. unfold unknown_symbol in H. cbn in H. discriminate. }
  destruct (c =? DQUOTE).
  { destruct (drop_while _ src'); [|discriminate].
    injection H as H. unfold unknown_symbol in H. cbn in H. discriminate. }
  destruct (c =? LBRACE).
  { destruct (drop_while _ src'); [|discriminate].
    injection H as H. unfold unknown_symbol in H. cbn in H. discriminate. }
  destruct (is_upper c).
  - destruct (matches_constant _) eqn:Hm; [discriminate|].
    injection H as H. subst name. auto.
  - destruct (matches_variable _) eqn:Hm; [discriminate|].
    injection H as H. subst name. auto.
Qed.

Lemma read_loop_offends n :
  forall source src b st h name,
    (length src <= n)%nat ->
    read_loop source src b st h
    = inl (Unreadable source (unknown_symbol name)) ->
    offends src b st h name.
Proof.
  induction n as [|n IH]; intros source src b st h name Hn H.
  { destruct src; [|simpl in Hn; lia].
    rewrite read_loop_nil in H. destruct st; [discriminate|].
    injection H as H. unfold unknown_symbol in H. cbn in H. discriminate. }
  destruct src as [|c src'].
  { rewrite read_loop_nil in H. destruct st; [discriminate|].
    injection H as H. unfold unknown_symbol in H. cbn in H. discriminate. }
  rewrite read_loop_cons in H.
  destruct (read_body source c src' b st h) as [q|rd] eqn:E.
  - injection H as ->.
    destruct (read_body_offends _ _ _ _ _ _ _ E) as (Hname & Hc & Hm).
    exists [], (drop_while (fun x => negb (_isSeparator x)) src'), c,
      (take_while (fun x => negb (_isSeparator x)) src'), b, st, h.
    split. { subst name. simpl. rewrite take_drop. reflexivity. }
    split; [exact Hname|]. split; [exact Hc|].
    split; [apply take_while_holds|].
    split; [apply drop_while_separated|].
    split; [exact Hm|]. reflexivity.
  - pose proof (read_body_shrinks _ _ _ _ _ _ _ E) as Hl.
    destruct (IH source (rd_rest rd) (rd_build rd) (rd_stack rd) (rd_heap rd)
                name ltac:(simpl in *; lia) H)
      as (before & after & x & cs & b' & st' & h' & Hsrc & Hname & Hx & Hcs
          & Hafter & Hm & Hthrough).
    destruct (read_step_resume _ _ _ _ _ _ _ E)
      as (Hsep & consumed & Hcons & Hresume).
    exists (c :: consumed ++ before), after, x, cs, b', st', h'.
    split. { rewrite Hcons, Hsrc. simpl. rewrite <- app_assoc. reflexivity. }
    split; [exact Hname|]. split; [exact Hx|]. split; [exact Hcs|].
    split; [exact Hafter|]. split; [exact Hm|].
    intros source' t. simpl. rewrite <- app_assoc.
    rewrite Hresume; [apply Hthrough|].
    intros Hc. specialize (Hsep Hc). rewrite Hsrc in Hsep.
    destruct before as [|y before]; [|exact Hsep].
    exfalso. subst name. simpl in Hsep. unfold starts_name in Hx.
    unfold _isSeparator in Hsep.
    destruct (is_space x); [discriminate|].
    destruct (x =? LBRACKET); [discriminate|].
    destruct (x =? RBRACKET); discriminate.
Qed.

Lemma read_loop_reports n :
  forall source src b st h p,
    (length src <= n)%nat ->
    read_loop source src b st h = inl p ->
    exists msg,
      p = Unreadable source msg
      /\ (msg = lit "Unbalanced brackets" \/ msg = lit "Unbalanced quotes"
          \/ msg = lit "Unbalanced braces"
          \/ exists name, msg = unknown_symbol name /\ offends src b st h name).
Proof.
  intros source src b st h p Hn H.
  destruct (read_loop_throws n _ _ _ _ _ _ Hn H) as (msg & -> & Hmsg).
  exists msg. split; [reflexivity|].
  destruct Hmsg as [Hm|[Hm|[Hm|(name & ->)]]]; auto.
  do 3 right. exists name. split; [reflexivity|].
  exact (read_loop_offends n _ _ _ _ _ _ Hn H).
Qed.

(** X1.  The only error of [read] is [Unreadable]; it carries the source
    that was passed and one of four messages: on unbalanced brackets, quotes
    or braces, or [Unknown symbol: ] followed by the first token of the
    source that matches neither pattern for names, from its first character
    up to the next white space or bracket. *)
Theorem read_throws_Unreadable src h p :
  read src h = inl p ->
  exists msg, p = Unreadable src msg /\ reader_report src h msg.
Proof. apply (read_loop_reports (length src)). reflexivity. Qed.

Lemma read_throws_Unreadable_witness :
  read (lit "[a] Foo! b") empty_heap
  = inl (Unreadable (lit "[a] Foo! b") (lit "Unknown symbol: Foo!"))
  /\ exists msg,
       Unreadable (lit "[a] Foo! b") (lit "Unknown symbol: Foo!")
       = Unreadable (lit "[a] Foo! b") msg
       /\ reader_report (lit "[a] Foo! b") empty_heap msg.
Proof.
  assert (H : read (lit "[a] Foo! b") empty_heap
              = inl (Unreadable (lit "[a] Foo! b")
                       (lit "Unknown symbol: Foo!")))
    by (vm_compute; reflexivity).
  split; [exact H|]. exact (read_throws_Unreadable _ _ _ H).
Defined.

(** X2.  What [read] returns is [Id] or a [Catenate] of at least one
    token; a token is a constant or a variable whose name matches its
    pattern, a text without a double quote, a prompt without a closing
    brace, or a quote of such a value.  No [Catenate] holds an [Id] or a
    [Catenate], and none of the arrays is reversed. *)
Theorem read_returns_program src h v h' :
  read src h = inr (v, h') ->
  program h' v = true
  /\ match v with
     | Id => True
     | Catenate _ ts => ts <> [] /\ forallb is_atom ts = true
     | _ => False
     end.
Proof.
  intros H. pose proof (read_program _ _ _ _ H) as P. split; [exact P|].
  destruct v as [| | |r ts| | |]; try discriminate P; [exact I|].
  simpl in P. apply andb_prop in P as [P Hts]. apply andb_prop in P as [_ Hne].
  split; [destruct ts; [discriminate|congruence]|].
  exact (tokens_atoms _ _ Hts).
Qed.

(** X3.  White space before and after a source that reads well does not
    change the value read. *)
Theorem read_ignores_surrounding_space ws1 ws2 s h r :
  forallb is_space ws1 = true -> forallb is_space ws2 = true ->
  read s h = inr r -> read (ws1 ++ s ++ ws2) h = inr r.
Proof.
  intros H1 H2 H. unfold read in *. rewrite (read_loop_spaces _ _ _ _ _ _ H1).
  destruct r as [v hf].
  destruct (read_loop_append (length s) s (ws1 ++ s ++ ws2) s [] [] h v hf
              ws2 (le_n _) (spaces_separated _ H2) H) as (bf & h' & Ec & ->).
  rewrite <- (app_nil_r ws2), (read_loop_spaces _ _ _ _ _ _ H2).
  rewrite read_loop_nil, Ec. reflexivity.
Qed.

(** X4.  Around a source that reads well, one more opening bracket before
    it, or a closing bracket after it (whatever follows), is an
    unbalanced bracket; an opening double quote or brace after it, with
    no closing one, is an unbalanced quote or brace. *)
Theorem unbalanced_delimiters s h r :
  read s h = inr r ->
  read (LBRACKET :: s) h
  = inl (Unreadable (LBRACKET :: s) (lit "Unbalanced brackets"))
  /\ (forall t,
        read (s ++ RBRACKET :: t) h
        = inl (Unreadable (s ++ RBRACKET :: t) (lit "Unbalanced brackets")))
  /\ (forall t,
        forallb (fun x => negb (x =? DQUOTE)) t = true ->
        read (s ++ SPACE :: DQUOTE :: t) h
        = inl (Unreadable (s ++ SPACE :: DQUOTE :: t)
                 (lit "Unbalanced quotes")))
  /\ (forall t,
        forallb (fun x => negb (x =? RBRACE)) t = true ->
        read (s ++ SPACE :: LBRACE :: t) h
        = inl (Unreadable (s ++ SPACE :: LBRACE :: t)
                 (lit "Unbalanced braces"))).
Proof.
  intros H. unfold read in *. destruct r as [v hf]. repeat split.
  - rewrite read_loop_cons, read_body_open.
    cbn [rd_rest rd_build rd_stack rd_heap].
    apply (read_loop_deeper (length s) s _ s [] [] h (v, hf) [] (le_n _) H).
  - intros t.
    destruct (read_loop_append (length s) s (s ++ RBRACKET :: t) s [] [] h
                v hf (RBRACKET :: t) (le_n _) eq_refl H)
      as (bf & h' & _ & ->).
    rewrite read_loop_cons. reflexivity.
  - intros t Ht.
    destruct (read_loop_append (length s) s (s ++ SPACE :: DQUOTE :: t) s
                [] [] h v hf (SPACE :: DQUOTE :: t) (le_n _) eq_refl H)
      as (bf & h' & _ & ->).
    rewrite read_loop_cons, read_body_space by reflexivity.
    cbn [rd_rest rd_build rd_stack rd_heap drop_while]. 
    change (is_space DQUOTE) with false. cbn iota.
    rewrite read_loop_cons. unfold read_body.
    change (is_space DQUOTE) with false. cbn iota.
    change (DQUOTE =? LBRACKET) with false.
    change (DQUOTE =? RBRACKET) with false.
    change (DQUOTE =? DQUOTE) with true. cbn iota.
    destruct (scan_to_end _ t Ht) as [_ ->]. reflexivity.
  - intros t Ht.
    destruct (read_loop_append (length s) s (s ++ SPACE :: LBRACE :: t) s
                [] [] h v hf (SPACE :: LBRACE :: t) (le_n _) eq_refl H)
      as (bf & h' & _ & ->).
    rewrite read_loop_cons, read_body_space by reflexivity.
    cbn [rd_rest rd_build rd_stack rd_heap drop_while].
    change (is_space LBRACE) with false. cbn iota.
    rewrite read_loop_cons. unfold read_body.
    change (is_space LBRACE) with false. cbn iota.
    change (LBRACE =? LBRACKET) with false.
    change (LBRACE =? RBRACKET) with false.
    change (LBRACE =? DQUOTE) with false.
    change (LBRACE =? LBRACE) with true. cbn iota.
    destruct (scan_to_end _ t Ht) as [_ ->]. reflexivity.
Qed.

Lemma read_ignores_surrounding_space_witness :
  forallb is_space (lit "  ") = true /\ forallb is_space (lit " ") = true
  /\ read (lit "[a] Copy") empty_heap
     = inr (Catenate 1 [Quote (Catenate 0 [Var (lit "a")]);
                        Constant (lit "Copy")],
            snd (alloc (snd (alloc empty_heap))))
  /\ read (lit "  " ++ lit "[a] Copy" ++ lit " ") empty_heap
     = inr (Catenate 1 [Quote (Catenate 0 [Var (lit "a")]);
                        Constant (lit "Copy")],
            snd (alloc (snd (alloc empty_heap)))).
Proof.
  assert (H : read (lit "[a] Copy") empty_heap
              = inr (Catenate 1 [Quote (Catenate 0 [Var (lit "a")]);
                                 Constant (lit "Copy")],
                     snd (alloc (snd (alloc empty_heap)))))
    by (vm_compute; reflexivity).
  split; [reflexivity|]. split; [reflexivity|]. split; [exact H|].
  exact (read_ignores_surrounding_space (lit "  ") (lit " ") _ _ _
           eq_refl eq_refl H).
Defined.

Lemma read_returns_program_witness :
  read (lit "[a] Copy") empty_heap
  = inr (Catenate 1 [Quote (Catenate 0 [Var (lit "a")]);
                     Constant (lit "Copy")],
         snd (alloc (snd (alloc empty_heap))))
  /\ program (snd (alloc (snd (alloc empty_heap))))
       (Catenate 1 [Quote (Catenate 0 [Var (lit "a")]);
                    Constant (lit "Copy")]) = true.
Proof.
  assert (H : read (lit "[a] Copy") empty_heap
              = inr (Catenate 1 [Quote (Catenate 0 [Var (lit "a")]);
                                 Constant (lit "Copy")],
                     snd (alloc (snd (alloc empty_heap)))))
    by (vm_compute; reflexivity).
  split; [exact H|]. exact (proj1 (read_returns_program _ _ _ _ H)).
Defined.

Lemma unbalanced_delimiters_witness :
  read (lit "[a] Copy") empty_heap
  = inr (Catenate 1 [Quote (Catenate 0 [Var (lit "a")]);
                     Constant (lit "Copy")],
         snd (alloc (snd (alloc empty_heap))))
  /\ read (LBRACKET :: lit "[a] Copy") empty_heap
     = inl (Unreadable (LBRACKET :: lit "[a] Copy")
              (lit "Unbalanced brackets")).
Proof.
  assert (H : read (lit "[a] Copy") empty_heap
              = inr (Catenate 1 [Quote (Catenate 0 [Var (lit "a")]);
                                 Constant (lit "Copy")],
                     snd (alloc (snd (alloc empty_heap)))))
    by (vm_compute; reflexivity).
  split; [exact H|]. exact (proj1 (unbalanced_delimiters _ _ _ H)).
Defined.

(** A program prints as its structure does. *)
Lemma program_toString h :
  forall v, (token h v = true -> toString h v = toString empty_heap (erase v))
            /\ (program h v = true ->
                toString h v = toString empty_heap (erase v)).
Proof.
  apply Value_nested_ind; simpl; try (split; auto; fail).
  - intros r cs IH. split; [discriminate|]. intros H.
    apply andb_prop in H as [H Hts]. apply andb_prop in H as [Hr _].
    apply negb_true_iff in Hr. unfold current. rewrite Hr.
    change (is_reversed empty_heap 0) with false. cbn iota. f_equal.
    rewrite List.map_map.
    induction IH as [|c cs [Hc _] _ IHcs]; simpl in *; [reflexivity|].
    apply andb_prop in Hts as [Ha Hb]. rewrite (Hc Ha), (IHcs Hb).
    reflexivity.
  - intros b [_ IH]. split; [|discriminate]. intros H.
    assert (P : program h b = true) by (destruct b; exact H).
    rewrite (IH P). reflexivity.
Qed.

(** Reading the rendering of a program, in any heap. *)
Lemma reread_program h v h0 :
  program h v = true ->
  exists v2 h2, read (toString h v) h0 = inr (v2, h2) /\ erase v2 = erase v.
Proof.
  intros Hp. destruct v as [| | |r ts| | |]; try discriminate Hp.
  - exists Id, h0. simpl. rewrite read_empty. auto.
  - simpl in Hp. apply andb_prop in Hp as [Hp Hts].
    apply andb_prop in Hp as [Hr Hne]. apply negb_true_iff in Hr.
    cbn [toString]. unfold current. rewrite Hr.
    assert (Hall : Forall (rereads h) ts).
    { clear. induction ts; constructor; [apply rereads_token|assumption]. }
    unfold read.
    destruct (rereads_all h ts Hall Hts
                (join (List.map (toString h) ts)) [] [] h0 [] eq_refl)
      as (ts' & h' & E & Ee).
    rewrite app_nil_r in E. rewrite E, read_loop_nil. cbn [app].
    exists (fst (catenate ts' h')), (snd (catenate ts' h')).
    split; [destruct (catenate ts' h'); reflexivity|].
    rewrite (catenate_reread h ts ts' h' Hts Ee).
    destruct ts; [discriminate Hne|reflexivity].
Qed.

(** X5.  The text printed for a value that was read is canonical: read
    again, at any time, it gives a value that prints as the same text. *)
Theorem printing_is_canonical src h v h1 h0 :
  read src h = inr (v, h1) ->
  exists v2 h2,
    read (toString h1 v) h0 = inr (v2, h2)
    /\ toString h2 v2 = toString h1 v.
Proof.
  intros H. pose proof (read_program _ _ _ _ H) as Hp.
  destruct (reread_program h1 v h0 Hp) as (v2 & h2 & H2 & He).
  exists v2, h2. split; [exact H2|].
  rewrite (proj2 (program_toString h2 v2) (read_program _ _ _ _ H2)).
  rewrite (proj2 (program_toString h1 v) Hp), He. reflexivity.
Qed.

Lemma printing_is_canonical_witness :
  read (lit "[a]Copy  ") empty_heap
  = inr (Catenate 1 [Quote (Catenate 0 [Var (lit "a")]);
                     Constant (lit "Copy")],
         snd (alloc (snd (alloc empty_heap))))
  /\ exists v2 h2,
       read (lit "[a] Copy") empty_heap = inr (v2, h2)
       /\ toString h2 v2 = lit "[a] Copy".
Proof.
  assert (H : read (lit "[a]Copy  ") empty_heap
              = inr (Catenate 1 [Quote (Catenate 0 [Var (lit "a")]);
                                 Constant (lit "Copy")],
                     snd (alloc (snd (alloc empty_heap)))))
    by (vm_compute; reflexivity).
  split; [exact H|]. exact (printing_is_canonical _ _ _ _ empty_heap H).
Defined.

(** X6.  A thunk moves values into the sink and drops none: the sink, the
    data from bottom to top and the code from top to bottom make the same
    list before and after, so the value [evaluate] would return is the
    same. *)
Theorem thunk_keeps_the_residual :
  (forall s,
     sink (thunk s) ++ rev (data (thunk s)) ++ code (thunk s)
     = sink s ++ rev (data s) ++ code s)
  /\ (forall m, residual (thunked m) = residual m).
Proof.
  split; [exact thunk_residual|].
  intros m. unfold residual, thunked, with_state. cbn [state heap].
  rewrite thunk_residual. reflexivity.
Qed.

(** X7.  Only a thunk writes to the sink: an iteration either leaves the
    sink as it is or is exactly [state.thunk()], and over a whole run the
    sink only grows at its end. *)
Theorem sink_only_grows :
  (forall hand m m' f,
     step hand m = inr (m', f) ->
     sink (state m') = sink (state m) \/ state m' = thunk (state m))
  /\ (forall gas m m' n,
        loop gas m = (inr m', n) ->
        exists more, sink (state m') = sink (state m) ++ more).
Proof. split; [exact step_sink|exact loop_sink]. Qed.

Lemma sink_only_grows_witness :
  exists more,
    sink (state (thunked starved_Inl)) = sink (state starved_Inl) ++ more.
Proof.
  exact (proj2 sink_only_grows 1%nat starved_Inl (thunked starved_Inl)
           1%nat eq_refl).
Defined.

(** X8.  The dictionary is changed by a [Define] or a [Delete] that fires
    and by nothing else: [Define] binds the name on top of the data stack
    to the body of the quote below it, [Delete] removes the name.  When
    no dictionary is passed, none is returned. *)
Theorem dictionary_changes_by_definitions_only :
  (forall hand m m' f,
     step hand m = inr (m', f) ->
     dict m' = dict m
     \/ (exists d name body ds,
           hand = Constant (lit "Define") /\ dict m = Some d
           /\ data (state m) = Text name :: Quote body :: ds
           /\ dict m' = Some (<[name := body]> d))
     \/ (exists d name ds,
           hand = Constant (lit "Delete") /\ dict m = Some d
           /\ data (state m) = Text name :: ds
           /\ dict m' = Some (delete name d)))
  /\ (forall init gas h r,
        evaluate init None gas h = inr r -> final_dictionary r = None).
Proof.
  split; [exact step_dict|].
  intros init gas h r. unfold evaluate.
  destruct (loop _ _) as [[p|m] n] eqn:E; simpl; [discriminate|].
  destruct (residual m). intros [= <-]. simpl.
  apply (loop_no_dictionary (Z.to_nat gas)
           {| state := new_State init; heap := h; dict := None |} m n
           eq_refl E).
Qed.

Lemma dictionary_changes_by_definitions_only_witness :
  evaluate (Constant (lit "Define")) None 5 empty_heap
  = inr {| value := Catenate 0 [Constant (lit "Define")];
           final_heap := snd (alloc empty_heap);
           final_dictionary := None |}
  /\ final_dictionary
       {| value := Catenate 0 [Constant (lit "Define")];
          final_heap := snd (alloc empty_heap);
          final_dictionary := None |} = None.
Proof.
  assert (H : evaluate (Constant (lit "Define")) None 5 empty_heap
              = inr {| value := Catenate 0 [Constant (lit "Define")];
                       final_heap := snd (alloc empty_heap);
                       final_dictionary := None |})
    by (vm_compute; reflexivity).
  split; [exact H|].
  exact (proj2 dictionary_changes_by_definitions_only _ _ _ _ H).
Defined.

(** X9.  The data stack only ever holds quotes and texts: an iteration
    keeps it so, and so does a whole run from the initial state. *)
Theorem data_holds_literals :
  (forall hand m m' f,
     forallb is_literal (data (state m)) = true ->
     step hand m = inr (m', f) ->
     forallb is_literal (data (state m')) = true)
  /\ (forall init dictionary gas h m' n,
        loop gas {| state := new_State init; heap := h; dict := dictionary |}
        = (inr m', n) ->
        forallb is_literal (data (state m')) = true).
Proof.
  split; [exact step_literals|].
  intros init dictionary gas h m' n H.
  apply (loop_literals gas
           {| state := new_State init; heap := h; dict := dictionary |} m' n
           eq_refl H).
Qed.

Lemma data_holds_literals_witness :
  forallb is_literal
    (data (state (machine [] [Quote Id; Quote Id] [] empty_heap None)))
  = true.
Proof.
  exact (proj2 data_holds_literals (Catenate 0 [Quote Id; Constant (lit "Copy")])
           None 3%nat empty_heap
           (machine [] [Quote Id; Quote Id] []
              (reverse_in_place 0 empty_heap) None)
           3%nat eq_refl).
Defined.

(** X10.  Binding and looking up.  [[body] "name" Define name] binds the
    name and the variable that follows resolves to the body, which is
    pushed on the code stack; ["name" Delete name] removes the binding
    and the variable that follows is unresolved: it is thunked and the
    reducer stops. *)
Theorem Define_and_Delete_then_lookup name body ds below k h d gas :
  loop 2 (machine (Constant (lit "Define") :: Var name :: below)
            (Text name :: Quote body :: ds) k h (Some d))
  = (inr (machine (body :: below) ds k h (Some (<[name := body]> d))),
     2%nat)
  /\ loop (S (S gas))
       (machine (Constant (lit "Delete") :: Var name :: below)
          (Text name :: ds) k h (Some d))
     = (inr (machine below [] (k ++ rev ds ++ [Var name]) h
               (Some (delete name d))), 2%nat).
Proof. split; [apply Define_lookup|apply Delete_lookup]. Qed.

(** X11.  [Swap Swap] and [Copy Drop] are the identity: after the two
    iterations the machine is as it was, without the two instructions. *)
Theorem Swap_Swap_and_Copy_Drop a b ds below k h d :
  loop 2 (machine (Constant (lit "Swap") :: Constant (lit "Swap") :: below)
            (a :: b :: ds) k h d)
  = (inr (machine below (a :: b :: ds) k h d), 2%nat)
  /\ loop 2 (machine (Constant (lit "Copy") :: Constant (lit "Drop") :: below)
               (a :: ds) k h d)
     = (inr (machine below (a :: ds) k h d), 2%nat).
Proof. split; [apply Swap_Swap|apply Copy_Drop]. Qed.

(** X12.  Quoting and running.  On a quote or a text, [Abs App] is the
    identity on the stacks (three iterations), and on two of them so is
    [Pair App] (five iterations): the pair is built as a quote of a new
    [Catenate], which [App] unfolds again. *)
Theorem Abs_App_and_Pair_App :
  (forall a ds below k h d,
     is_literal a = true ->
     loop 3 (machine (Constant (lit "Abs") :: Constant (lit "App") :: below)
               (a :: ds) k h d)
     = (inr (machine below (a :: ds) k h d), 3%nat))
  /\ (forall a b ds below k h d,
        is_literal a = true -> is_literal b = true ->
        loop 5 (machine (Constant (lit "Pair") :: Constant (lit "App")
                         :: below) (b :: a :: ds) k h d)
        = (inr (machine below (b :: a :: ds) k
                  (reverse_in_place (next h) (snd (alloc h))) d), 5%nat)).
Proof. split; [exact Abs_App|exact Pair_App]. Qed.

Lemma Abs_App_and_Pair_App_witness :
  loop 5 (machine [Constant (lit "Pair"); Constant (lit "App")]
            [Text (lit "y"); Quote Id] [] empty_heap None)
  = (inr (machine [] [Text (lit "y"); Quote Id] []
            (reverse_in_place 0 (snd (alloc empty_heap))) None), 5%nat).
Proof.
  exact (proj2 Abs_App_and_Pair_App (Quote Id) (Text (lit "y")) [] [] []
           empty_heap None eq_refl eq_refl).
Defined.

(** X13.  [Shift] with no [Reset] anywhere below it on the code stack is a
    thunk that stops the reducer, whatever the data stack holds: the data
    and [Shift] go to the sink and the rest of the code stays. *)
Theorem Shift_without_Reset below ds k h d :
  forallb (fun v => negb (is_Reset v)) below = true ->
  step (Constant (lit "Shift"))
    (machine (Constant (lit "Shift") :: below) ds k h d)
  = inr (machine below [] (k ++ rev ds ++ [Constant (lit "Shift")]) h d,
         Stop).
Proof.
  intros Hb.
  change (step (Constant (lit "Shift")) ?m) with (dispatch (lit "Shift") m).
  rewrite dispatch_Shift. unfold case_Shift.
  assert (E : exists p,
             try_shift (machine (Constant (lit "Shift") :: below) ds k h d)
             = inl p).
  { unfold try_shift, getData. cbn [machine state data code heap].
    destruct ds as [|top ds]; [eexists; reflexivity|]. cbn [nth_error bind].
    destruct top; try (eexists; reflexivity). cbn [body_of bind].
    change (skipn 1 (?x :: ?l)) with l.
    rewrite (scan_reset_misses below 1 [] Hb). unfold numCode.
    cbn [code length app].
    destruct (Nat.leb_spec (S (length below)) (1 + length below));
      [eexists; reflexivity|lia]. }
  destruct E as [p ->]. unfold suspend, with_state, thunk, machine. simpl.
  rewrite <- app_assoc. reflexivity.
Qed.

Lemma Shift_without_Reset_witness :
  forallb (fun v => negb (is_Reset v)) [Var (lit "a"); Var (lit "b")] = true
  /\ step (Constant (lit "Shift"))
       (machine [Constant (lit "Shift"); Var (lit "a"); Var (lit "b")]
          [Quote (Var (lit "h"))] [] empty_heap None)
     = inr (machine [Var (lit "a"); Var (lit "b")] []
              [Quote (Var (lit "h")); Constant (lit "Shift")] empty_heap
              None, Stop).
Proof.
  split; [reflexivity|].
  exact (Shift_without_Reset [Var (lit "a"); Var (lit "b")]
           [Quote (Var (lit "h"))] [] empty_heap None eq_refl).
Defined.

(** X14.  Spare gas changes nothing: when a call of [evaluate] ends before
    its gas is spent, a call with more gas returns the same value, heap
    and dictionary after the same number of iterations. *)
Theorem spare_gas_changes_nothing init dictionary h g1 g2 :
  (Z.of_nat (iterations init dictionary g1 h) < g1)%Z ->
  (g1 <= g2)%Z ->
  evaluate init dictionary g2 h = evaluate init dictionary g1 h
  /\ iterations init dictionary g2 h = iterations init dictionary g1 h.
Proof.
  unfold iterations, evaluate. intros Hn Hle.
  destruct (loop (Z.to_nat g1) _) as [r n] eqn:E. simpl in Hn.
  rewrite (loop_more_gas _ _ _ _ E ltac:(lia) (Z.to_nat g2) ltac:(lia)).
  split; reflexivity.
Qed.

Lemma spare_gas_changes_nothing_witness :
  (Z.of_nat (iterations (Quote Id) None 2 empty_heap) < 2)%Z
  /\ (2 <= default_gas)%Z
  /\ evaluate (Quote Id) None default_gas empty_heap
     = evaluate (Quote Id) None 2 empty_heap.
Proof.
  assert (H1 : (Z.of_nat (iterations (Quote Id) None 2 empty_heap) < 2)%Z)
    by (vm_compute; reflexivity).
  assert (H2 : (2 <= default_gas)%Z) by (unfold default_gas; lia).
  split; [exact H1|]. split; [exact H2|].
  exact (proj1 (spare_gas_changes_nothing (Quote Id) None empty_heap 2
                  default_gas H1 H2)).
Defined.

(** ** Reading one source after another *)

Lemma read_loop_append_tokens n :
  forall source source' src b st h v hf t,
    (length src <= n)%nat ->
    separated t = true ->
    forallb (token h) b = true ->
    forallb (forallb (token h)) st = true ->
    read_loop source src b st h = inr (v, hf) ->
    exists bf h',
      catenate bf h' = (v, hf) /\ forallb (token h') bf = true
      /\ read_loop source' (src ++ t) b st h = read_loop source' t bf [] h'.
Proof.
  induction n as [|n IH];
    intros source source' src b st h v hf t Hn Ht Hb Hst H.
  - destruct src; [|simpl in Hn; lia].
    rewrite read_loop_nil in H. destruct st; [|discriminate].
    injection H as H. exists b, h. auto.
  - destruct src as [|c src'].
    + rewrite read_loop_nil in H. destruct st; [|discriminate].
      injection H as H. exists b, h. auto.
    + cbn [app]. rewrite read_loop_cons in H. rewrite read_loop_cons.
      destruct (read_body source c src' b st h) as [q|rd] eqn:E;
        [discriminate|].
      pose proof (read_body_shrinks _ _ _ _ _ _ _ E) as Hl.
      destruct (read_body_tokens _ _ _ _ _ _ _ Hb Hst E) as [Hb' Hst'].
      destruct (read_body_append source source' _ _ _ _ _ _ t Ht E)
        as [->|[Hr ->]]; cbn [rd_rest rd_build rd_stack rd_heap].
      * apply (IH source source' (rd_rest rd) (rd_build rd) (rd_stack rd)
                 (rd_heap rd)); [simpl in *; lia|exact Ht|exact Hb'
                                |exact Hst'|exact H].
      * rewrite Hr, read_loop_nil in H.
        destruct (rd_stack rd); [|discriminate]. injection H as H.
        exists (rd_build rd), (rd_heap rd). split; [exact H|].
        split; [exact Hb'|]. apply read_loop_drop_spaces.
Qed.

Lemma follows_atoms p b st b' st' :
  follows p b st b' st' ->
  forallb is_atom b = true /\ forallb is_atom b' = true.
Proof. destruct st; intros (H1 & H2 & _); auto. Qed.

Lemma follows_snoc p b st b' st' x x' :
  is_atom x = true -> is_atom x' = true -> erase x' = erase x ->
  follows p b st b' st' -> follows p (b ++ [x]) st (b' ++ [x']) st'.
Proof.
  intros Hx Hx' E H.
  assert (A : forallb is_atom (b ++ [x]) = true
              /\ forallb is_atom (b' ++ [x']) = true).
  { destruct (follows_atoms _ _ _ _ _ H) as [H1 H2].
    rewrite !forallb_app, H1, H2. simpl. rewrite Hx, Hx'. auto. }
  destruct A as [A1 A2].
  destruct st as [|y st], st' as [|y' st']; simpl in *;
    destruct H as (_ & _ & H); try contradiction.
  - split; [exact A1|]. split; [exact A2|].
    rewrite !List.map_app, H. simpl. rewrite E, <- app_assoc. reflexivity.
  - destruct H as [H R]. split; [exact A1|]. split; [exact A2|].
    split; [|exact R]. rewrite !List.map_app, H. simpl. rewrite E.
    reflexivity.
Qed.

(** [catenate] on values that it keeps as they are. *)
Lemma catenate_atoms b h :
  forallb is_atom b = true ->
  catenate b h
  = match b with
    | [] => (Id, h)
    | _ :: _ => (Catenate (next h) b, snd (alloc h))
    end.
Proof.
  intros H. destruct b as [|x b]; [reflexivity|].
  apply catenate_cons, catenate_buf_atoms, H.
Qed.

Lemma catenate_erase b h b' h' :
  forallb is_atom b = true -> forallb is_atom b' = true ->
  List.map erase b' = List.map erase b ->
  erase (fst (catenate b' h')) = erase (fst (catenate b h)).
Proof.
  intros Hb Hb' E. rewrite (catenate_atoms b h Hb), (catenate_atoms b' h' Hb').
  destruct b, b'; try discriminate E; [reflexivity|].
  cbn [fst erase]. rewrite E. reflexivity.
Qed.

(** The parts of a value, whatever the state of its array. *)
Lemma pieces_erase v :
  pieces empty_heap (erase v)
  = match v with
    | Id => []
    | Catenate _ cs => List.map erase cs
    | _ => [erase v]
    end.
Proof. destruct v; reflexivity. Qed.

(** One iteration of the second run follows that of the first. *)
Lemma read_body_follows p source source' c src' b st h b' st' h' r :
  follows p b st b' st' ->
  read_body source c src' b st h = inr r ->
  exists r',
    read_body source' c src' b' st' h' = inr r'
    /\ rd_rest r' = rd_rest r
    /\ follows p (rd_build r) (rd_stack r) (rd_build r') (rd_stack r').
Proof.
  intros F. unfold read_body.
  destruct (is_space c).
  { intros [= <-]. eexists. split; [reflexivity|]. simpl. auto. }
  destruct (c =? LBRACKET).
  { intros [= <-]. eexists. split; [reflexivity|]. simpl.
    split; [reflexivity|]. repeat split; auto. }
  destruct (c =? RBRACKET).
  { destruct st as [|parent st]; [discriminate|].
    destruct st' as [|parent' st'];
      [simpl in F; destruct F as (_ & _ & []) |].
    simpl in F. destruct F as (Hb & Hb' & E & F).
    pose proof (catenate_erase b h b' h' Hb Hb' E) as Q.
    destruct (catenate b h) as [body h1], (catenate b' h') as [body' h1'].
    intros [= <-]. eexists. split; [reflexivity|]. simpl.
    split; [reflexivity|].
    apply follows_snoc; auto. simpl in *. rewrite Q. reflexivity. }
  destruct (c =? DQUOTE).
  { destruct (drop_while _ src') as [|x rest]; [discriminate|].
    intros [= <-]. eexists. split; [reflexivity|]. simpl.
    split; [reflexivity|]. apply follows_snoc; auto. }
  destruct (c =? LBRACE).
  { destruct (drop_while _ src') as [|x rest]; [discriminate|].
    intros [= <-]. eexists. split; [reflexivity|]. simpl.
    split; [reflexivity|]. apply follows_snoc; auto. }
  destruct (is_upper c).
  { destruct (matches_constant _); [|discriminate].
    intros [= <-]. eexists. split; [reflexivity|]. simpl.
    split; [reflexivity|]. apply follows_snoc; auto. }
  destruct (matches_variable _); [|discriminate].
  intros [= <-]. eexists. split; [reflexivity|]. simpl.
  split; [reflexivity|]. apply follows_snoc; auto.
Qed.

(** The second run ends as the first does, with [p] before what the
    first returns. *)
Lemma read_loop_follows n :
  forall p source source' src b st h b' st' h' v hf,
    (length src <= n)%nat ->
    follows p b st b' st' ->
    read_loop source src b st h = inr (v, hf) ->
    exists v' hf',
      read_loop source' src b' st' h' = inr (v', hf')
      /\ pieces empty_heap (erase v')
         = p ++ pieces empty_heap (erase v).
Proof.
  assert (End : forall p b b' h h',
            follows p b [] b' [] ->
            pieces empty_heap (erase (fst (catenate b' h')))
            = p ++ pieces empty_heap (erase (fst (catenate b h)))).
  { intros p b b' h h' (Hb & Hb' & E).
    rewrite (catenate_atoms b h Hb), (catenate_atoms b' h' Hb').
    destruct b, b'; cbn [fst]; rewrite !pieces_erase; simpl in E |- *;
      rewrite <- E; reflexivity. }
  induction n as [|n IH];
    intros p source source' src b st h b' st' h' v hf Hn F H.
  - destruct src; [|simpl in Hn; lia].
    rewrite read_loop_nil in *. destruct st; [|discriminate].
    destruct st'; [|simpl in F; destruct F as (_ & _ & [])].
    injection H as H. exists (fst (catenate b' h')), (snd (catenate b' h')).
    split; [destruct (catenate b' h'); reflexivity|].
    rewrite (End p b b' h h' F), H. reflexivity.
  - destruct src as [|c src'].
    + rewrite read_loop_nil in *. destruct st; [|discriminate].
      destruct st'; [|simpl in F; destruct F as (_ & _ & [])].
      injection H as H. exists (fst (catenate b' h')), (snd (catenate b' h')).
      split; [destruct (catenate b' h'); reflexivity|].
      rewrite (End p b b' h h' F), H. reflexivity.
    + rewrite read_loop_cons in *.
      destruct (read_body source c src' b st h) as [q|rd] eqn:E;
        [discriminate|].
      pose proof (read_body_shrinks _ _ _ _ _ _ _ E) as Hl.
      destruct (read_body_follows p source source' c src' b st h b' st' h'
                  rd F E) as (rd' & -> & Er & F').
      rewrite Er.
      apply (IH p source source' (rd_rest rd) (rd_build rd) (rd_stack rd)
               (rd_heap rd) (rd_build rd') (rd_stack rd') (rd_heap rd') v hf);
        [simpl in *; lia|exact F'|exact H].
Qed.

Lemma follows_stack p b st b' st' :
  follows p b st b' st' -> (st = [] <-> st' = []).
Proof.
  destruct st, st'; simpl; intros (_ & _ & H); try contradiction;
    split; congruence.
Qed.

(** Where an iteration of the first run throws, so does the second. *)
Lemma read_body_follows_error p source source' c src' b st h b' st' h' q :
  follows p b st b' st' ->
  read_body source c src' b st h = inl q ->
  exists msg,
    q = Unreadable source msg
    /\ read_body source' c src' b' st' h' = inl (Unreadable source' msg).
Proof.
  intros F. pose proof (follows_stack _ _ _ _ _ F) as S. unfold read_body.
  destruct (is_space c); [discriminate|].
  destruct (c =? LBRACKET); [discriminate|].
  destruct (c =? RBRACKET).
  { destruct st as [|parent st].
    - destruct st'; [|destruct S as [S _]; discriminate (S eq_refl)].
      intros [= <-]. eexists. split; reflexivity.
    - destruct (catenate b h). discriminate. }
  destruct (c =? DQUOTE).
  { destruct (drop_while _ src'); [|discriminate].
    intros [= <-]. eexists. split; reflexivity. }
  destruct (c =? LBRACE).
  { destruct (drop_while _ src'); [|discriminate].
    intros [= <-]. eexists. split; reflexivity. }
  destruct (is_upper c).
  { destruct (matches_constant _); [discriminate|].
    intros [= <-]. eexists. split; reflexivity. }
  destruct (matches_variable _); [discriminate|].
  intros [= <-]. eexists. split; reflexivity.
Qed.

Lemma read_loop_follows_error n :
  forall p source source' src b st h b' st' h' q,
    (length src <= n)%nat ->
    follows p b st b' st' ->
    read_loop source src b st h = inl q ->
    exists msg,
      q = Unreadable source msg
      /\ read_loop source' src b' st' h' = inl (Unreadable source' msg).
Proof.
  assert (End : forall p source source' b st h b' st' h' q,
            follows p b st b' st' ->
            read_loop source [] b st h = inl q ->
            exists msg,
              q = Unreadable source msg
              /\ read_loop source' [] b' st' h'
                 = inl (Unreadable source' msg)).
  { intros p source source' b st h b' st' h' q F H.
    pose proof (follows_stack _ _ _ _ _ F) as S.
    rewrite read_loop_nil in *. destruct st; [discriminate|].
    destruct st'; [destruct S as [_ S]; discriminate (S eq_refl)|].
    injection H as <-. eexists. split; reflexivity. }
  induction n as [|n IH];
    intros p source source' src b st h b' st' h' q Hn F H.
  - destruct src; [|simpl in Hn; lia]. apply (End p _ _ b st h); assumption.
  - destruct src as [|c src']; [apply (End p _ _ b st h); assumption|].
    rewrite read_loop_cons in *.
    destruct (read_body source c src' b st h) as [q'|rd] eqn:E.
    + injection H as ->.
      destruct (read_body_follows_error p source source' c src' b st h
                  b' st' h' q F E) as (msg & -> & ->).
      exists msg. split; reflexivity.
    + pose proof (read_body_shrinks _ _ _ _ _ _ _ E) as Hl.
      destruct (read_body_follows p source source' c src' b st h b' st' h'
                  rd F E) as (rd' & -> & Er & F').
      rewrite Er.
      apply (IH p source source' (rd_rest rd) (rd_build rd) (rd_stack rd)
               (rd_heap rd) (rd_build rd') (rd_stack rd') (rd_heap rd') q);
        [simpl in *; lia|exact F'|exact H].
Qed.

Lemma erase_erase : forall v, erase (erase v) = erase v.
Proof.
  apply Value_nested_ind; simpl; try reflexivity.
  - intros _ cs IH. f_equal. rewrite List.map_map.
    induction IH as [|c cs Hc _ IHcs]; simpl; [reflexivity|].
    rewrite Hc, IHcs. reflexivity.
  - intros b ->. reflexivity.
Qed.

(** A value that [read] returns is the catenation of its parts. *)
Lemma program_catenation h v v1 v2 :
  program h v = true ->
  pieces empty_heap (erase v)
  = pieces empty_heap (erase v1) ++ pieces empty_heap (erase v2) ->
  erase v = erase (fst (catenate [erase v1; erase v2] empty_heap)).
Proof.
  intros P E. unfold catenate. rewrite catenate_buf_pieces. simpl flat_map.
  rewrite app_nil_r, <- E, pieces_erase.
  destruct v as [| | |r cs| | |]; try discriminate P; [reflexivity|].
  simpl in P. apply andb_prop in P as [P _]. apply andb_prop in P as [_ P].
  destruct cs as [|c cs]; [discriminate P|].
  change (Catenate 0 (List.map erase (c :: cs))
          = Catenate 0 (List.map erase (List.map erase (c :: cs)))).
  f_equal. rewrite List.map_map. apply List.map_ext. intros a.
  symmetry. apply erase_erase.
Qed.

(** X15.  Reading one source after another.  When [s1] reads well and [s2]
    starts with a separator (white space or a bracket) or is empty,
    reading [s1 ++ s2] is reading both: if [s2] reads well the value has
    the structure of [catenate] of the two values, and if [s2] is
    unreadable so is [s1 ++ s2], with the same message. *)
Theorem read_catenates s1 s2 h h0 v1 h1 :
  read s1 h = inr (v1, h1) ->
  separated s2 = true ->
  match read s2 h0 with
  | inr (v2, _) =>
      exists v h',
        read (s1 ++ s2) h = inr (v, h')
        /\ erase v = erase (fst (catenate [erase v1; erase v2] empty_heap))
  | inl p =>
      exists msg,
        p = Unreadable s2 msg
        /\ read (s1 ++ s2) h = inl (Unreadable (s1 ++ s2) msg)
  end.
Proof.
  intros H1 Hs. unfold read in H1.
  destruct (read_loop_append_tokens (length s1) s1 (s1 ++ s2) s1 [] [] h v1
              h1 s2 (le_n _) Hs eq_refl eq_refl H1)
    as (bf & h' & Ec & Hbf & Er).
  assert (F : follows (List.map erase bf) [] [] bf []).
  { simpl. split; [reflexivity|]. split; [apply (tokens_atoms h'), Hbf|].
    rewrite app_nil_r. reflexivity. }
  assert (E1 : pieces empty_heap (erase v1) = List.map erase bf).
  { replace v1 with (fst (catenate bf h')) by (rewrite Ec; reflexivity).
    rewrite (catenate_atoms bf h' (tokens_atoms h' bf Hbf)), pieces_erase.
    destruct bf; reflexivity. }
  destruct (read s2 h0) as [q|[v2 h2]] eqn:H2; unfold read in H2.
  - destruct (read_loop_follows_error (length s2) _ s2 (s1 ++ s2) s2 [] []
                h0 bf [] h' q (le_n _) F H2) as (msg & -> & E).
    exists msg. split; [reflexivity|]. unfold read. rewrite Er. exact E.
  - destruct (read_loop_follows (length s2) _ s2 (s1 ++ s2) s2 [] [] h0
                bf [] h' v2 h2 (le_n _) F H2) as (v & hf & E & Ep).
    exists v, hf. unfold read. rewrite Er. split; [exact E|].
    apply (program_catenation hf).
    + apply (read_program (s1 ++ s2) h). unfold read. rewrite Er. exact E.
    + rewrite Ep, E1. reflexivity.
Qed.

Lemma read_catenates_witness :
  read (lit "[a] Copy") empty_heap
  = inr (Catenate 1 [Quote (Catenate 0 [Var (lit "a")]);
                     Constant (lit "Copy")],
         snd (alloc (snd (alloc empty_heap))))
  /\ separated (lit " [b] Swap") = true
  /\ exists v h',
       read (lit "[a] Copy" ++ lit " [b] Swap") empty_heap = inr (v, h')
       /\ erase v
          = erase (fst (catenate
                          [erase (Catenate 1 [Quote (Catenate 0
                                                       [Var (lit "a")]);
                                              Constant (lit "Copy")]);
                           erase (Catenate 1 [Quote (Catenate 0
                                                       [Var (lit "b")]);
                                              Constant (lit "Swap")])]
                          empty_heap)).
Proof.
  assert (H : read (lit "[a] Copy") empty_heap
              = inr (Catenate 1 [Quote (Catenate 0 [Var (lit "a")]);
                                 Constant (lit "Copy")],
                     snd (alloc (snd (alloc empty_heap)))))
    by (vm_compute; reflexivity).
  assert (H2 : read (lit " [b] Swap") empty_heap
               = inr (Catenate 1 [Quote (Catenate 0 [Var (lit "b")]);
                                  Constant (lit "Swap")],
                      snd (alloc (snd (alloc empty_heap)))))
    by (vm_compute; reflexivity).
  split; [exact H|]. split; [reflexivity|].
  pose proof (read_catenates _ (lit " [b] Swap") _ empty_heap _ _ H eq_refl)
    as R.
  rewrite H2 in R. exact R.
Defined.

(** ** Reading a quotation *)

(** Inside one more pair of brackets: when the input reads well, the
    loop arrives behind the closing bracket with the quote of the value
    appended to the build that was open before. *)
Lemma read_loop_inside n :
  forall source source' src b st h v hf x t,
    (length src <= n)%nat ->
    read_loop source src b st h = inr (v, hf) ->
    read_loop source' (src ++ RBRACKET :: t) b (st ++ [x]) h
    = read_loop source' t (x ++ [Quote v]) [] hf.
Proof.
  assert (End : forall source' b h v hf x t,
            catenate b h = (v, hf) ->
            read_loop source' (RBRACKET :: t) b [x] h
            = read_loop source' t (x ++ [Quote v]) [] hf).
  { intros source' b h v hf x t E.
    rewrite read_loop_cons, read_body_close, E. reflexivity. }
  induction n as [|n IH]; intros source source' src b st h v hf x t Hn H.
  - destruct src; [|simpl in Hn; lia].
    rewrite read_loop_nil in H. destruct st; [|discriminate].
    injection H as H. apply End, H.
  - destruct src as [|c src'].
    + rewrite read_loop_nil in H. destruct st; [|discriminate].
      injection H as H. apply End, H.
    + cbn [app]. rewrite read_loop_cons in H. rewrite read_loop_cons.
      destruct (read_body source c src' b st h) as [q|rd] eqn:E;
        [discriminate|].
      pose proof (read_body_shrinks _ _ _ _ _ _ _ E) as Hl.
      destruct (read_body_append source source' _ _ _ _ _ _ (RBRACKET :: t)
                  eq_refl E) as [E'|[Hr E']];
        rewrite (read_body_deeper source' source' _ _ _ _ _ _ x E');
        cbn [rd_rest rd_build rd_stack rd_heap].
      * apply (IH source source' (rd_rest rd) (rd_build rd) (rd_stack rd)
                 (rd_heap rd)); [simpl in *; lia|exact H].
      * rewrite Hr, read_loop_nil in H.
        destruct (rd_stack rd); [|discriminate]. injection H as H.
        apply End, H.
Qed.

(** X16.  Brackets quote: when [s] reads as [v], the source [s] in
    brackets reads as the [Catenate] of the one value [Quote v], the very
    value that reading [s] built, and no other array is made than those
    of [s] and that of the result. *)
Theorem read_quoted s h v h1 :
  read s h = inr (v, h1) ->
  read (LBRACKET :: s ++ [RBRACKET]) h
  = inr (Catenate (next h1) [Quote v], snd (alloc h1)).
Proof.
  intros H. unfold read in *. rewrite read_loop_cons, read_body_open.
  cbn [rd_rest rd_build rd_stack rd_heap].
  rewrite (read_loop_inside (length s) s _ s [] [] h v h1 [] [] (le_n _) H).
  rewrite read_loop_nil. reflexivity.
Qed.

Lemma read_quoted_witness :
  read (lit "[a] Copy") empty_heap
  = inr (Catenate 1 [Quote (Catenate 0 [Var (lit "a")]);
                     Constant (lit "Copy")],
         snd (alloc (snd (alloc empty_heap))))
  /\ read (lit "[[a] Copy]") empty_heap
     = inr (Catenate 2 [Quote (Catenate 1 [Quote (Catenate 0
                                                    [Var (lit "a")]);
                                           Constant (lit "Copy")])],
            snd (alloc (snd (alloc (snd (alloc empty_heap)))))).
Proof.
  assert (H : read (lit "[a] Copy") empty_heap
              = inr (Catenate 1 [Quote (Catenate 0 [Var (lit "a")]);
                                 Constant (lit "Copy")],
                     snd (alloc (snd (alloc empty_heap)))))
    by (vm_compute; reflexivity).
  split; [exact H|]. exact (read_quoted _ _ _ _ H).
Defined.

(** ** The worker *)

Lemma loop_end_returns gas m m' n :
  loop gas m = (inr m', n) -> loop_end gas m = m'.
Proof.
  revert m n. induction gas as [|gas IH]; intros m n H; simpl in *.
  - destruct (code (state m)); injection H as <- _; reflexivity.
  - destruct (code (state m)) as [|hand below];
      [injection H as <- _; reflexivity|].
    destruct (step hand m) as [p|[m1 [|]]]; [discriminate| |].
    + destruct (loop gas m1) as [r k] eqn:E. injection H as -> _.
      apply (IH _ _ E).
    + injection H as <- _. reflexivity.
Qed.

Lemma loop_end_more_gas gas m r n :
  loop gas m = (r, n) -> (n < gas)%nat ->
  forall gas', (gas <= gas')%nat -> loop_end gas' m = loop_end gas m.
Proof.
  revert m r n. induction gas as [|gas IH]; intros m r n H Hn gas' Hle;
    [lia|].
  destruct gas' as [|gas']; [lia|]. simpl in *.
  destruct (code (state m)) as [|hand below]; [reflexivity|].
  destruct (step hand m) as [p|[m' [|]]]; try reflexivity.
  destruct (loop gas m') as [r' n'] eqn:E. injection H as <- <-.
  apply (IH m' r' n' E); lia.
Qed.

(** A run that was given a dictionary ends with one. *)
Lemma loop_end_dictionary gas m d :
  dict m = Some d -> exists d', dict (loop_end gas m) = Some d'.
Proof.
  revert m d. induction gas as [|gas IH]; intros m d Hd; simpl.
  - destruct (code (state m)); eauto.
  - destruct (code (state m)) as [|hand below]; [eauto|].
    destruct (step hand m) as [p|[m1 fl]] eqn:Hs; [eauto|].
    assert (Hd1 : exists d1, dict m1 = Some d1).
    { destruct (step_dict _ _ _ _ Hs) as [E|[(? & ? & ? & ? & _ & _ & _ & E)|
                                             (? & ? & ? & _ & _ & _ & E)]];
        rewrite E; eauto. }
    destruct Hd1 as [d1 Hd1]. destruct fl; [apply (IH m1 d1 Hd1)|eauto].
Qed.

(** *** The text of an error *)

Lemma drop_while_solid (c : N) s :
  is_space c = false -> drop_while is_space (c :: s) = c :: s.
Proof. intros H. simpl. rewrite H. reflexivity. Qed.

Lemma trim_lines a s t :
  is_space a = false -> ends_solid t = true ->
  trim (LF :: a :: s ++ t ++ [LF]) = a :: s ++ t.
Proof.
  intros Ha Ht. unfold trim.
  change (LF :: a :: s ++ t ++ [LF]) with ([LF] ++ (a :: s ++ t ++ [LF])).
  rewrite (drop_while_spaces [LF] _ eq_refl), (drop_while_solid a _ Ha).
  change (a :: s ++ t ++ [LF]) with ((a :: s) ++ t ++ [LF]).
  rewrite !rev_app_distr, <- app_assoc. change (rev [LF]) with [LF].
  rewrite (drop_while_spaces [LF] _ eq_refl).
  unfold ends_solid in Ht. destruct (rev t) as [|c rt] eqn:E; [discriminate|].
  cbn [app]. rewrite drop_while_solid
    by (destruct (is_space c); [discriminate|reflexivity]).
  change (c :: rt ++ rev (a :: s)) with ((c :: rt) ++ rev (a :: s)).
  rewrite <- E, <- rev_app_distr, rev_involutive. reflexivity.
Qed.

Lemma ends_solid_app s t : ends_solid t = true -> ends_solid (s ++ t) = true.
Proof.
  unfold ends_solid. rewrite rev_app_distr.
  destruct (rev t); [discriminate|]. auto.
Qed.

Lemma ends_solid_name (c : N) cs :
  is_space c = false ->
  forallb (fun x => negb (_isSeparator x)) cs = true ->
  ends_solid (c :: cs) = true.
Proof.
  intros Hc Hcs. unfold ends_solid.
  assert (H : forallb (fun x => negb (is_space x)) (rev (c :: cs)) = true).
  { apply forallb_forall. intros x Hx. apply in_rev in Hx.
    destruct Hx as [<-|Hx]; [rewrite Hc; reflexivity|].
    rewrite forallb_forall in Hcs. specialize (Hcs x Hx).
    unfold _isSeparator in Hcs. destruct (is_space x); [discriminate|].
    reflexivity. }
  destruct (rev (c :: cs)) as [|x l] eqn:E.
  - apply (f_equal (@length N)) in E. rewrite length_rev in E. discriminate.
  - simpl in H. apply andb_prop in H as [H _]. exact H.
Qed.

(** The messages of the reader end in a character that is not white
    space. *)
Lemma read_body_throws_solid source c src' b st h p :
  read_body source c src' b st h = inl p ->
  exists msg,
    p = Unreadable source msg /\ reader_message msg
    /\ ends_solid msg = true.
Proof.
  intros H.
  destruct (read_body_throws _ _ _ _ _ _ _ H) as (msg & -> & Hm).
  exists msg. split; [reflexivity|]. split; [exact Hm|].
  unfold read_body in H.
  destruct (is_space c) eqn:Hc; [discriminate|].
  destruct (c =? LBRACKET); [discriminate|].
  destruct (c =? RBRACKET).
  { destruct st; [|destruct (catenate b h); discriminate].
    injection H as <-. reflexivity. }
  destruct (c =? DQUOTE).
  { destruct (drop_while _ src'); [|discriminate].
    injection H as <-. reflexivity. }
  destruct (c =? LBRACE).
  { destruct (drop_while _ src'); [|discriminate].
    injection H as <-. reflexivity. }
  assert (N : ends_solid
                (unknown_symbol
                   (c :: take_while (fun x => negb (_isSeparator x)) src'))
              = true).
  { apply ends_solid_app, ends_solid_name; [exact Hc|].
    apply take_while_holds. }
  destruct (is_upper c).
  { destruct (matches_constant _); [discriminate|].
    injection H as <-. exact N. }
  destruct (matches_variable _); [discriminate|].
  injection H as <-. exact N.
Qed.

Lemma read_loop_throws_solid n :
  forall source src b st h p,
    (length src <= n)%nat ->
    read_loop source src b st h = inl p ->
    exists msg,
      p = Unreadable source msg /\ reader_message msg
      /\ ends_solid msg = true.
Proof.
  induction n as [|n IH]; intros source src b st h p Hn H.
  - destruct src; [|simpl in Hn; lia].
    rewrite read_loop_nil in H. destruct st; [discriminate|].
    injection H as <-. eexists. split; [reflexivity|].
    split; [left; reflexivity|reflexivity].
  - destruct src as [|c src'].
    + rewrite read_loop_nil in H. destruct st; [discriminate|].
      injection H as <-. eexists. split; [reflexivity|].
      split; [left; reflexivity|reflexivity].
    + rewrite read_loop_cons in H.
      destruct (read_body source c src' b st h) as [q|rd] eqn:E.
      * injection H as <-. apply (read_body_throws_solid _ _ _ _ _ _ _ E).
      * pose proof (read_body_shrinks _ _ _ _ _ _ _ E) as Hl.
        apply (IH source (rd_rest rd) (rd_build rd) (rd_stack rd)
                 (rd_heap rd)); [simpl in *; lia|exact H].
Qed.

(** The text that is posted for a panic whose message ends well. *)
Lemma error_text_lines code p :
  ends_solid (panic_message p) = true ->
  error_text code p
  = lit "While evaluating the expression:" ++ LF :: LF :: code
    ++ LF :: LF :: lit "The following error occurred:" ++ LF :: LF
    :: lit "Panic: " ++ panic_message p.
Proof.
  intros H. unfold error_text, panic_toString.
  destruct (panic_message p) as [|c msg] eqn:E; [discriminate|].
  rewrite <- E in *. clear E c msg.
  remember (panic_message p) as msg.
  change (lit "While evaluating the expression:")
    with (87 :: lit "hile evaluating the expression:").
  cbn [app].
  pose proof (trim_lines 87
                (lit "hile evaluating the expression:" ++ LF :: LF :: code
                 ++ LF :: LF :: lit "The following error occurred:" ++ LF
                 :: LF :: lit "Panic: ")
                msg eq_refl H) as T.
  repeat (rewrite <- ?app_assoc in T; cbn [app] in T).
  repeat (rewrite <- ?app_assoc; cbn [app]).
  exact T.
Qed.

(** The text that is posted for anything thrown whose text ends well. *)
Lemma error_template_lines code thrown :
  ends_solid thrown = true ->
  error_template code thrown
  = lit "While evaluating the expression:" ++ LF :: LF :: code
    ++ LF :: LF :: lit "The following error occurred:" ++ LF :: LF
    :: thrown.
Proof.
  intros H. unfold error_template.
  change (lit "While evaluating the expression:")
    with (87 :: lit "hile evaluating the expression:").
  cbn [app].
  pose proof (trim_lines 87
                (lit "hile evaluating the expression:" ++ LF :: LF :: code
                 ++ LF :: LF :: lit "The following error occurred:" ++ LF
                 :: [LF])
                thrown eq_refl H) as T.
  repeat (rewrite <- ?app_assoc in T; cbn [app] in T).
  repeat (rewrite <- ?app_assoc; cbn [app]).
  exact T.
Qed.

(** X17.  The [catch] block of the worker wraps the text of whatever was
    thrown: for every text that ends in a character that is not white
    space, the error is the two headings, the code of the message and that
    text, in this layout and without the line breaks around it.  Whenever
    the worker posts an error for a panic of [read] or of [evaluate], it
    carries the [id] of the message, and the text that is wrapped is that of
    the panic: [Unreadable] with the message of [read], which names the
    first token that cannot be read, or [Unknown value]. *)
Theorem worker_error_text id code w id' text :
  (forall thrown,
     ends_solid thrown = true ->
     error_template code thrown
     = lit "While evaluating the expression:" ++ LF :: LF :: code
       ++ LF :: LF :: lit "The following error occurred:" ++ LF :: LF
       :: thrown)
  /\ (forall p, error_text code p = error_template code (panic_toString p))
  /\ (fst (onmessage id code w) = Posted_error id' text ->
      id' = id
      /\ exists what,
           ((exists msg,
               read code (w_heap w) = inl (Unreadable code msg)
               /\ reader_report code (w_heap w) msg
               /\ what = lit "Unreadable: " ++ msg)
            \/ ((exists parsed h1 v,
                   read code (w_heap w) = inr (parsed, h1)
                   /\ fst (loop (Z.to_nat default_gas)
                             {| state := new_State parsed; heap := h1;
                                dict := Some (w_dictionary w) |})
                      = inl (Unknown v))
                /\ what = lit "Unknown value"))
           /\ text = error_template code (lit "Panic: " ++ what)
           /\ text
              = lit "While evaluating the expression:" ++ LF :: LF :: code
                ++ LF :: LF :: lit "The following error occurred:" ++ LF
                :: LF :: lit "Panic: " ++ what).
Proof.
  split; [apply error_template_lines|]. split; [reflexivity|].
  unfold onmessage.
  destruct (read code (w_heap w)) as [p|[parsed h1]] eqn:R.
  - intros [= <- <-]. split; [reflexivity|].
    destruct (read_loop_throws_solid (length code) code code [] []
                (w_heap w) p (le_n _) R) as (msg & -> & _ & Hs).
    destruct (read_loop_reports (length code) code code [] []
                (w_heap w) _ (le_n _) R) as (msg' & [= <-] & Hm).
    exists (lit "Unreadable: " ++ msg). split; [left; eauto|].
    split; [reflexivity|].
    apply error_text_lines. apply ends_solid_app, Hs.
  - destruct (loop _ _) as [[p|m] n] eqn:L; cbn [fst].
    + intros [= <- <-]. split; [reflexivity|].
      pose proof (loop_throws _ _ _ _ L) as Hp.
      subst p. exists (lit "Unknown value"). split.
      { right. split; [|reflexivity]. exists parsed, h1, Id.
        split; [reflexivity|]. rewrite L. reflexivity. }
      split; [reflexivity|].
      apply error_text_lines. reflexivity.
    + destruct (residual m). discriminate.
Qed.

Lemma worker_error_text_witness :
  fst (onmessage 7 (lit "[a] Foo! b")
         {| w_dictionary := ∅; w_heap := empty_heap |})
  = Posted_error 7
      (lit "While evaluating the expression:" ++ LF :: LF
       :: lit "[a] Foo! b" ++ LF :: LF
       :: lit "The following error occurred:" ++ LF :: LF
       :: lit "Panic: Unreadable: Unknown symbol: Foo!")
  /\ exists what,
       ((exists msg,
           read (lit "[a] Foo! b") empty_heap
           = inl (Unreadable (lit "[a] Foo! b") msg)
           /\ reader_report (lit "[a] Foo! b") empty_heap msg
           /\ what = lit "Unreadable: " ++ msg)
        \/ ((exists parsed h1 v,
               read (lit "[a] Foo! b") empty_heap = inr (parsed, h1)
               /\ fst (loop (Z.to_nat default_gas)
                         {| state := new_State parsed; heap := h1;
                            dict := Some ∅ |})
                  = inl (Unknown v))
            /\ what = lit "Unknown value"))
       /\ lit "While evaluating the expression:" ++ LF :: LF
          :: lit "[a] Foo! b" ++ LF :: LF
          :: lit "The following error occurred:" ++ LF :: LF
          :: lit "Panic: Unreadable: Unknown symbol: Foo!"
          = error_template (lit "[a] Foo! b") (lit "Panic: " ++ what)
       /\ lit "While evaluating the expression:" ++ LF :: LF
          :: lit "[a] Foo! b" ++ LF :: LF
          :: lit "The following error occurred:" ++ LF :: LF
          :: lit "Panic: Unreadable: Unknown symbol: Foo!"
          = lit "While evaluating the expression:" ++ LF :: LF
            :: lit "[a] Foo! b" ++ LF :: LF
            :: lit "The following error occurred:" ++ LF :: LF
            :: lit "Panic: " ++ what.
Proof.
  assert (H : fst (onmessage 7 (lit "[a] Foo! b")
                     {| w_dictionary := ∅; w_heap := empty_heap |})
              = Posted_error 7
                  (lit "While evaluating the expression:" ++ LF :: LF
                   :: lit "[a] Foo! b" ++ LF :: LF
                   :: lit "The following error occurred:" ++ LF :: LF
                   :: lit "Panic: Unreadable: Unknown symbol: Foo!"))
    by (vm_compute; reflexivity).
  split; [exact H|].
  exact (proj2 (proj2 (proj2 (worker_error_text _ _ _ _ _)) H)).
Defined.

(** X18.  A message whose code is empty or all white space is answered
    with an error: the code reads as [Id], at which [evaluate] throws
    [Unknown].  The worker is left as it was. *)
Theorem worker_blank_message id src w :
  forallb is_space src = true ->
  onmessage id src w
  = (Posted_error id
       (lit "While evaluating the expression:" ++ LF :: LF :: src
        ++ LF :: LF :: lit "The following error occurred:" ++ LF :: LF
        :: lit "Panic: Unknown value"), w).
Proof.
  intros H. unfold onmessage.
  assert (R : read src (w_heap w) = inr (Id, w_heap w)).
  { unfold read. rewrite <- (app_nil_r src) at 2.
    rewrite (read_loop_spaces _ _ _ _ _ _ H), read_loop_nil. reflexivity. }
  rewrite R.
  destruct (Z.to_nat default_gas) as [|g] eqn:G;
    [unfold default_gas in G; lia|].
  cbn [loop loop_end new_State state code step fst heap].
  rewrite (error_text_lines src (Unknown Id) eq_refl).
  destruct w. reflexivity.
Qed.

Lemma worker_blank_message_witness :
  onmessage 3 (lit "  ")
    {| w_dictionary := ∅; w_heap := empty_heap |}
  = (Posted_error 3
       (lit "While evaluating the expression:" ++ LF :: LF :: lit "  "
        ++ LF :: LF :: lit "The following error occurred:" ++ LF :: LF
        :: lit "Panic: Unknown value"),
     {| w_dictionary := ∅; w_heap := empty_heap |}).
Proof. exact (worker_blank_message 3 (lit "  ") _ eq_refl). Defined.

(** *** A definition, and an error after it *)

Lemma read_loop_space source s b st h :
  read_loop source (SPACE :: s) b st h = read_loop source s b st h.
Proof. apply (read_loop_spaces source [SPACE] s b st h eq_refl). Qed.

Lemma read_loop_text source t tail b st h :
  forallb (fun x => negb (x =? DQUOTE)) t = true ->
  read_loop source (DQUOTE :: t ++ DQUOTE :: tail) b st h
  = read_loop source tail (b ++ [Text t]) st h.
Proof.
  intros H. rewrite read_loop_cons, (read_body_text _ _ _ _ _ _ H).
  reflexivity.
Qed.

Lemma read_loop_constant source name tail b st h :
  matches_constant name = true -> separated tail = true ->
  read_loop source (name ++ tail) b st h
  = read_loop source tail (b ++ [Constant name]) st h.
Proof.
  intros Hm Ht. destruct name as [|c cs]; [discriminate|]. cbn [app].
  rewrite read_loop_cons, (read_body_constant _ _ _ _ _ _ _ Hm Ht).
  reflexivity.
Qed.

Lemma read_loop_empty_quote source tail b st h :
  read_loop source (LBRACKET :: RBRACKET :: tail) b st h
  = read_loop source tail (b ++ [Quote Id]) st h.
Proof.
  rewrite read_loop_cons, read_body_open. cbn [rd_rest rd_build rd_stack
                                               rd_heap].
  rewrite read_loop_cons, read_body_close. reflexivity.
Qed.

(** How a definition reads, and a definition followed by [[] App]. *)
Lemma read_definition name body h v h1 :
  read body h = inr (v, h1) ->
  forallb (fun x => negb (x =? DQUOTE)) name = true ->
  read (definition name body) h
  = inr (Catenate (next h1)
           [Quote v; Text name; Constant (lit "Define")], snd (alloc h1))
  /\ read (definition name body ++ lit " [] App") h
     = inr (Catenate (next h1)
              [Quote v; Text name; Constant (lit "Define"); Quote Id;
               Constant (lit "App")], snd (alloc h1)).
Proof.
  intros R Hn.
  assert (Go : forall source tail,
            read_loop source
              (LBRACKET :: body ++ RBRACKET :: SPACE :: DQUOTE :: name
               ++ DQUOTE :: SPACE :: lit "Define" ++ tail) [] [] h
            = read_loop source (lit "Define" ++ tail)
                [Quote v; Text name] [] h1).
  { intros source tail. rewrite read_loop_cons, read_body_open.
    cbn [rd_rest rd_build rd_stack rd_heap].
    rewrite (read_loop_inside (length body) body source body [] [] h v h1
               [] _ (le_n _) R).
    rewrite read_loop_space, (read_loop_text _ _ _ _ _ _ Hn).
    rewrite read_loop_space. reflexivity. }
  unfold read, definition. split.
  - rewrite <- (app_nil_r (lit "Define")) at 2.
    rewrite Go, (read_loop_constant _ (lit "Define") [] _ _ _ eq_refl eq_refl).
    rewrite read_loop_nil. reflexivity.
  - repeat (rewrite <- ?app_assoc; cbn [app]).
    change (?s ++ lit " [] App") with (s ++ lit " [] App").
    assert (E : forall source,
              read_loop source
                (LBRACKET :: body ++ RBRACKET :: SPACE :: DQUOTE :: name
                 ++ DQUOTE :: SPACE :: lit "Define" ++ lit " [] App") [] [] h
              = inr (Catenate (next h1)
                       [Quote v; Text name; Constant (lit "Define");
                        Quote Id; Constant (lit "App")], snd (alloc h1))).
    { intros source. rewrite Go.
      rewrite (read_loop_constant _ (lit "Define") (lit " [] App") _ _ _
                 eq_refl eq_refl).
      change (lit " [] App")
        with (SPACE :: LBRACKET :: RBRACKET :: SPACE :: lit "App" ++ []).
      rewrite read_loop_space, read_loop_empty_quote, read_loop_space.
      rewrite (read_loop_constant _ (lit "App") [] _ _ _ eq_refl eq_refl).
      rewrite read_loop_nil. reflexivity. }
    apply E.
Qed.

Lemma loop_end_resume gas hand below d k h dic m' :
  step hand (machine (hand :: below) d k h dic) = inr (m', Resume) ->
  loop_end (S gas) (machine (hand :: below) d k h dic) = loop_end gas m'.
Proof. intros H. cbn [loop_end machine state code]. cbn [machine] in H.
  rewrite H. reflexivity. Qed.

(** Unfolding a [Catenate] that was just made. *)
Lemma fresh_Catenate_step cs below ds k h d :
  step (Catenate (next h) cs)
    (machine (Catenate (next h) cs :: below) ds k (snd (alloc h)) d)
  = inr (machine (cs ++ below) ds k
           (reverse_in_place (next h) (snd (alloc h))) d, Resume).
Proof.
  rewrite (Catenate_step
             (machine (Catenate (next h) cs :: below) ds k (snd (alloc h)) d)
             (next h) cs below eq_refl).
  unfold current. cbn [heap machine]. rewrite (alloc_fresh h). reflexivity.
Qed.

Lemma Define_step name body below ds k h d :
  step (Constant (lit "Define"))
    (machine (Constant (lit "Define") :: below)
       (Text name :: Quote body :: ds) k h (Some d))
  = inr (machine below ds k h (Some (<[name := body]> d)), Resume).
Proof. reflexivity. Qed.

(** The run of a definition: four iterations. *)
Lemma run_definition name v h d :
  loop 5 (machine [Catenate (next h)
                     [Quote v; Text name; Constant (lit "Define")]]
            [] [] (snd (alloc h)) (Some d))
  = (inr (machine [] [] [] (reverse_in_place (next h) (snd (alloc h)))
            (Some (<[name := v]> d))), 4%nat).
Proof.
  rewrite (loop_resume _ _ _ _ _ _ _ _ (fresh_Catenate_step _ _ _ _ _ _)).
  cbn [app].
  rewrite (loop_resume _ _ _ _ _ _ _ _ (literal_step (Quote v) _ _ _ _ _
                                          eq_refl)).
  rewrite (loop_resume _ _ _ _ _ _ _ _ (literal_step (Text name) _ _ _ _ _
                                          eq_refl)).
  rewrite (loop_resume _ _ _ _ _ _ _ _ (Define_step _ _ _ _ _ _ _)).
  reflexivity.
Qed.

(** The run of a definition followed by [[] App]: the seventh iteration
    throws, with the definition made. *)
Lemma run_definition_App name v h d :
  loop 8 (machine [Catenate (next h)
                     [Quote v; Text name; Constant (lit "Define");
                      Quote Id; Constant (lit "App")]]
            [] [] (snd (alloc h)) (Some d))
  = (inl (Unknown Id), 7%nat)
  /\ loop_end 8 (machine [Catenate (next h)
                            [Quote v; Text name; Constant (lit "Define");
                             Quote Id; Constant (lit "App")]]
                   [] [] (snd (alloc h)) (Some d))
     = machine [Id] [] [] (reverse_in_place (next h) (snd (alloc h)))
         (Some (<[name := v]> d)).
Proof.
  split.
  - rewrite (loop_resume _ _ _ _ _ _ _ _ (fresh_Catenate_step _ _ _ _ _ _)).
    cbn [app].
    rewrite (loop_resume _ _ _ _ _ _ _ _ (literal_step (Quote v) _ _ _ _ _
                                            eq_refl)).
    rewrite (loop_resume _ _ _ _ _ _ _ _ (literal_step (Text name) _ _ _ _ _
                                            eq_refl)).
    rewrite (loop_resume _ _ _ _ _ _ _ _ (Define_step _ _ _ _ _ _ _)).
    rewrite (loop_resume _ _ _ _ _ _ _ _ (literal_step (Quote Id) _ _ _ _ _
                                            eq_refl)).
    rewrite (loop_resume _ _ _ _ _ _ _ _ (App_step _ _ _ _ _ _)).
    reflexivity.
  - rewrite (loop_end_resume _ _ _ _ _ _ _ _
               (fresh_Catenate_step _ _ _ _ _ _)).
    cbn [app].
    rewrite (loop_end_resume _ _ _ _ _ _ _ _
               (literal_step (Quote v) _ _ _ _ _ eq_refl)).
    rewrite (loop_end_resume _ _ _ _ _ _ _ _
               (literal_step (Text name) _ _ _ _ _ eq_refl)).
    rewrite (loop_end_resume _ _ _ _ _ _ _ _ (Define_step _ _ _ _ _ _ _)).
    rewrite (loop_end_resume _ _ _ _ _ _ _ _
               (literal_step (Quote Id) _ _ _ _ _ eq_refl)).
    rewrite (loop_end_resume _ _ _ _ _ _ _ _ (App_step _ _ _ _ _ _)).
    reflexivity.
Qed.

(** X19.  A definition lasts, and an error does not undo it.  When [body]
    reads well and [name] has no double quote, the message
    [[body] "name" Define] is answered with the empty result and leaves
    [name] bound to the value read from [body]; the same message followed
    by [[] App], which makes [evaluate] throw, is answered with an error
    and leaves the worker in the very same state, the binding included. *)
Theorem worker_Define id name body w v h1 :
  read body (w_heap w) = inr (v, h1) ->
  forallb (fun x => negb (x =? DQUOTE)) name = true ->
  onmessage id (definition name body) w
  = (Posted_result id [],
     {| w_dictionary := <[name := v]> (w_dictionary w);
        w_heap := reverse_in_place (next h1) (snd (alloc h1)) |})
  /\ onmessage id (definition name body ++ lit " [] App") w
     = (Posted_error id
          (lit "While evaluating the expression:" ++ LF :: LF
           :: (definition name body ++ lit " [] App")
           ++ LF :: LF :: lit "The following error occurred:" ++ LF :: LF
           :: lit "Panic: Unknown value"),
        {| w_dictionary := <[name := v]> (w_dictionary w);
           w_heap := reverse_in_place (next h1) (snd (alloc h1)) |}).
Proof.
  intros R Hn. destruct (read_definition name body _ v h1 R Hn) as [R1 R2].
  assert (G5 : (5 <= Z.to_nat default_gas)%nat) by (unfold default_gas; lia).
  assert (G8 : (8 <= Z.to_nat default_gas)%nat) by (unfold default_gas; lia).
  unfold onmessage. rewrite R1, R2. unfold new_State. split.
  - pose proof (run_definition name v h1 (w_dictionary w)) as L.
    unfold machine in L.
    rewrite (loop_more_gas _ _ _ _ L ltac:(lia) _ G5).
    reflexivity.
  - destruct (run_definition_App name v h1 (w_dictionary w)) as [L E].
    unfold machine in L, E.
    rewrite (loop_more_gas _ _ _ _ L ltac:(lia) _ G8).
    rewrite (loop_end_more_gas _ _ _ _ L ltac:(lia) _ G8), E.
    cbn [fst]. rewrite (error_text_lines _ (Unknown Id) eq_refl).
    reflexivity.
Qed.

Lemma worker_Define_witness :
  read (lit "Copy") empty_heap
  = inr (Catenate 0 [Constant (lit "Copy")], snd (alloc empty_heap))
  /\ onmessage 1 (lit_q "[Copy] 'dup' Define")
       {| w_dictionary := ∅; w_heap := empty_heap |}
     = (Posted_result 1 [],
        {| w_dictionary :=
             <[lit "dup" := Catenate 0 [Constant (lit "Copy")]]> ∅;
           w_heap := reverse_in_place 1 (snd (alloc (snd (alloc empty_heap))))
        |}).
Proof.
  assert (H : read (lit "Copy") empty_heap
              = inr (Catenate 0 [Constant (lit "Copy")],
                     snd (alloc empty_heap)))
    by (vm_compute; reflexivity).
  split; [exact H|].
  exact (proj1 (worker_Define 1 (lit "dup") (lit "Copy")
                  {| w_dictionary := ∅; w_heap := empty_heap |} _ _ H
                  eq_refl)).
Defined.

(** ** Programs of quotes and texts *)

Lemma literals_atoms ls :
  forallb is_literal ls = true -> forallb is_atom ls = true.
Proof.
  induction ls as [|v ls IH]; simpl; [reflexivity|].
  intros H. apply andb_prop in H as [Hv H]. rewrite (IH H).
  destruct v; try discriminate Hv; reflexivity.
Qed.

(** The loop moves the quotes and texts on top of the code stack to the
    data stack, one an iteration. *)
Lemma literals_run ls :
  forallb is_literal ls = true ->
  forall gas below ds k h d,
    loop (length ls + gas) (machine (ls ++ below) ds k h d)
    = (fst (loop gas (machine below (rev ls ++ ds) k h d)),
       (length ls + snd (loop gas (machine below (rev ls ++ ds) k h d)))%nat).
Proof.
  induction ls as [|a ls IH]; intros H gas below ds k h d.
  - simpl. destruct (loop gas _). reflexivity.
  - simpl in H. apply andb_prop in H as [Ha H].
    cbn [length app Nat.add].
    rewrite (loop_resume _ _ _ _ _ _ _ _ (literal_step a _ _ _ _ _ Ha)).
    rewrite (IH H). cbn [fst snd rev]. rewrite <- app_assoc. reflexivity.
Qed.

(** X20.  Quotes and texts are values: a program made of them only
    evaluates, in one iteration more than it has children, to a new
    [Catenate] of the same children in the same order, with any
    dictionary or none.  The array of the program itself is left
    reversed. *)
Theorem literals_evaluate_to_themselves r ls dictionary gas h :
  forallb is_literal ls = true -> nonempty ls = true ->
  is_reversed h r = false ->
  (Z.of_nat (length ls) < gas)%Z ->
  evaluate (Catenate r ls) dictionary gas h
  = inr {| value := Catenate (next h) ls;
           final_heap := snd (alloc (reverse_in_place r h));
           final_dictionary := dictionary |}
  /\ iterations (Catenate r ls) dictionary gas h = S (length ls).
Proof.
  intros Hl Hne Hr Hgas. unfold evaluate, iterations.
  destruct (Z.to_nat gas) as [|g] eqn:G; [lia|].
  assert (Hg : g = (length ls + (g - length ls))%nat) by lia.
  change {| state := new_State (Catenate r ls); heap := h;
            dict := dictionary |}
    with (machine [Catenate r ls] [] [] h dictionary).
  assert (E : step (Catenate r ls)
                (machine [Catenate r ls] [] [] h dictionary)
              = inr (machine (ls ++ []) [] [] (reverse_in_place r h)
                       dictionary, Resume)).
  { rewrite (Catenate_step (machine [Catenate r ls] [] [] h dictionary)
               r ls [] eq_refl).
    unfold current. cbn [heap machine]. rewrite Hr. reflexivity. }
  rewrite (loop_resume _ _ _ _ _ _ _ _ E), Hg, (literals_run ls Hl).
  assert (L : forall n, loop n (machine [] (rev ls ++ []) []
                                  (reverse_in_place r h) dictionary)
                        = (inr (machine [] (rev ls ++ []) []
                                  (reverse_in_place r h) dictionary), 0%nat))
    by (intros [|n]; reflexivity).
  rewrite L. cbn [fst snd bind]. split; [|lia].
  unfold residual. cbn [machine state sink data code heap dict].
  rewrite !app_nil_r, rev_involutive. cbn [app].
  rewrite (catenate_atoms ls _ (literals_atoms ls Hl)).
  destruct ls; [discriminate Hne|]. reflexivity.
Qed.

Lemma literals_evaluate_to_themselves_witness :
  evaluate (Catenate 0 [Text (lit "a"); Quote Id]) None 5 (snd (alloc empty_heap))
  = inr {| value := Catenate 1 [Text (lit "a"); Quote Id];
           final_heap :=
             snd (alloc (reverse_in_place 0 (snd (alloc empty_heap))));
           final_dictionary := None |}
  /\ iterations (Catenate 0 [Text (lit "a"); Quote Id]) None 5
       (snd (alloc empty_heap)) = 3%nat.
Proof.
  apply (literals_evaluate_to_themselves 0 [Text (lit "a"); Quote Id] None 5
           (snd (alloc empty_heap)) eq_refl eq_refl);
    [vm_compute; reflexivity|simpl; lia].
Defined.

(** ** Catenating and running *)

Lemma Cat_step a b below ds k h d :
  step (Constant (lit "Cat"))
    (machine (Constant (lit "Cat") :: below) (Quote b :: Quote a :: ds) k h d)
  = inr (machine (Quote (fst (catenate [a; b] h)) :: below) ds k
           (snd (catenate [a; b] h)) d, Resume).
Proof.
  cbn [step]. unfold dispatch.
  repeat (destruct (decide _) as [E|_]; [discriminate E|]).
  destruct (decide _) as [_|N]; [|contradiction N; reflexivity].
  unfold case_Cat. cbn. destruct (catenate [a; b] h). reflexivity.
Qed.

(** X21.  [Cat App] runs the two quoted programs one after the other:
    after four iterations the parts of the first and then of the second
    are on the code stack, in a new array that is left reversed.  When
    both are empty the quote made by [Cat] holds [Id], and running it
    throws [Unknown]. *)
Theorem Cat_App a b ds below k h d :
  (nonempty (pieces h a ++ pieces h b) = true ->
   loop 4 (machine (Constant (lit "Cat") :: Constant (lit "App") :: below)
             (Quote b :: Quote a :: ds) k h d)
   = (inr (machine (pieces h a ++ pieces h b ++ below) ds k
             (reverse_in_place (next h) (snd (alloc h))) d), 4%nat))
  /\ (pieces h a ++ pieces h b = [] ->
      forall gas,
        loop (4 + gas)
          (machine (Constant (lit "Cat") :: Constant (lit "App") :: below)
             (Quote b :: Quote a :: ds) k h d)
        = (inl (Unknown Id), 4%nat)).
Proof.
  assert (C : catenate_buf h [a; b] = pieces h a ++ pieces h b).
  { rewrite catenate_buf_pieces. simpl. rewrite app_nil_r. reflexivity. }
  split.
  - intros H. destruct (pieces h a ++ pieces h b) as [|x xs] eqn:E;
      [discriminate H|].
    pose proof (catenate_cons [a; b] h x xs C) as Q.
    rewrite (loop_resume _ _ _ _ _ _ _ _ (Cat_step a b _ ds k h d)), Q.
    cbn [fst snd].
    rewrite (loop_resume _ _ _ _ _ _ _ _ (literal_step (Quote _) _ _ _ _ _
                                            eq_refl)).
    rewrite (loop_resume _ _ _ _ _ _ _ _ (App_step _ _ _ _ _ _)).
    rewrite (loop_resume _ _ _ _ _ _ _ _ (fresh_Catenate_step _ _ _ _ _ _)).
    rewrite loop_0, app_assoc, E. reflexivity.
  - intros E gas. rewrite E in C.
    pose proof (catenate_nil [a; b] h C) as Q. cbn [Nat.add].
    rewrite (loop_resume _ _ _ _ _ _ _ _ (Cat_step a b _ ds k h d)), Q.
    cbn [fst snd].
    rewrite (loop_resume _ _ _ _ _ _ _ _ (literal_step (Quote _) _ _ _ _ _
                                            eq_refl)).
    rewrite (loop_resume _ _ _ _ _ _ _ _ (App_step _ _ _ _ _ _)).
    reflexivity.
Qed.

Lemma Cat_App_witness :
  loop 4 (machine [Constant (lit "Cat"); Constant (lit "App")]
            [Quote (Var (lit "b")); Quote (Var (lit "a"))] [] empty_heap None)
  = (inr (machine [Var (lit "a"); Var (lit "b")] [] []
            (reverse_in_place 0 (snd (alloc empty_heap))) None), 4%nat)
  /\ loop 10
       (machine [Constant (lit "Cat"); Constant (lit "App")]
          [Quote Id; Quote Id] [] empty_heap None)
     = (inl (Unknown Id), 4%nat).
Proof.
  split.
  - exact (proj1 (Cat_App (Var (lit "a")) (Var (lit "b")) [] [] []
                    empty_heap None) eq_refl).
  - exact (proj2 (Cat_App Id Id [] [] [] empty_heap None) eq_refl 6%nat).
Defined.

(** ** Suspended programs *)

Lemma suspending_stops dictionary hand m :
  suspending dictionary hand -> dict m = dictionary ->
  step hand m = inr (thunked m, Stop).
Proof.
  intros H <-. apply always_suspends_stops.
  destruct hand; simpl in *; auto.
Qed.

Lemma suspending_atom dictionary hand :
  suspending dictionary hand -> is_atom hand = true.
Proof. destruct hand; simpl; auto; contradiction. Qed.

(** X26.  A suspended program is returned as it is.  When the first
    instruction of a program that is not a quote or a text is a prompt,
    [Reset] or a variable that the dictionary does not bind, [evaluate]
    stops there and returns a new [Catenate] of the same children in the
    same order: what was moved to the data stack, the instruction and
    the rest of the code.  The array of the program itself is left
    reversed. *)
Theorem suspended_program_is_returned r ls hand rest dictionary gas h :
  forallb is_literal ls = true ->
  suspending dictionary hand ->
  forallb is_atom rest = true ->
  is_reversed h r = false ->
  (Z.of_nat (length ls) + 2 <= gas)%Z ->
  evaluate (Catenate r (ls ++ hand :: rest)) dictionary gas h
  = inr {| value := Catenate (next h) (ls ++ hand :: rest);
           final_heap := snd (alloc (reverse_in_place r h));
           final_dictionary := dictionary |}
  /\ iterations (Catenate r (ls ++ hand :: rest)) dictionary gas h
     = S (S (length ls)).
Proof.
  intros Hl Hs Hrest Hr Hgas. unfold evaluate, iterations.
  destruct (Z.to_nat gas) as [|g] eqn:G; [lia|].
  assert (Hg : exists g', g = (length ls + S g')%nat)
    by (exists (g - length ls - 1)%nat; lia).
  destruct Hg as [g' ->].
  change {| state := new_State (Catenate r (ls ++ hand :: rest)); heap := h;
            dict := dictionary |}
    with (machine [Catenate r (ls ++ hand :: rest)] [] [] h dictionary).
  assert (E : step (Catenate r (ls ++ hand :: rest))
                (machine [Catenate r (ls ++ hand :: rest)] [] [] h dictionary)
              = inr (machine (ls ++ hand :: rest) [] []
                       (reverse_in_place r h) dictionary, Resume)).
  { rewrite (Catenate_step
               (machine [Catenate r (ls ++ hand :: rest)] [] [] h dictionary)
               r (ls ++ hand :: rest) [] eq_refl).
    unfold current. cbn [heap machine]. rewrite Hr, app_nil_r.
    reflexivity. }
  rewrite (loop_resume _ _ _ _ _ _ _ _ E), (literals_run ls Hl).
  rewrite (loop_stop g' hand rest (rev ls ++ []) [] (reverse_in_place r h)
             dictionary _
             (suspending_stops dictionary hand
                (machine (hand :: rest) (rev ls ++ []) []
                   (reverse_in_place r h) dictionary) Hs eq_refl)).
  cbn [fst snd bind]. split; [|lia].
  unfold residual, thunked, with_state, thunk.
  cbn [machine state sink data code heap dict].
  rewrite !app_nil_r, rev_involutive. cbn [app rev].
  rewrite <- app_assoc. cbn [app].
  assert (A : forallb is_atom (ls ++ hand :: rest) = true).
  { rewrite forallb_app, (literals_atoms ls Hl). simpl.
    rewrite (suspending_atom _ _ Hs), Hrest. reflexivity. }
  rewrite (catenate_atoms _ _ A).
  destruct (ls ++ hand :: rest) eqn:L; [destruct ls; discriminate L|].
  reflexivity.
Qed.

Lemma suspended_program_is_returned_witness :
  evaluate (Catenate 0 [Text (lit "a"); Prompt (lit " Hello, world. ");
                        Constant (lit "Copy")])
    None default_gas (snd (alloc empty_heap))
  = inr {| value := Catenate 1 [Text (lit "a"); Prompt (lit " Hello, world. ");
                                Constant (lit "Copy")];
           final_heap :=
             snd (alloc (reverse_in_place 0 (snd (alloc empty_heap))));
           final_dictionary := None |}
  /\ iterations (Catenate 0 [Text (lit "a"); Prompt (lit " Hello, world. ");
                             Constant (lit "Copy")])
       None default_gas (snd (alloc empty_heap)) = 3%nat.
Proof.
  apply (suspended_program_is_returned 0 [Text (lit "a")]
           (Prompt (lit " Hello, world. ")) [Constant (lit "Copy")] None
           default_gas (snd (alloc empty_heap)) eq_refl I eq_refl);
    [vm_compute; reflexivity|unfold default_gas; simpl; lia].
Defined.

(** ** Normal forms *)

Lemma flat_pieces h v :
  flat v = true ->
  forallb (fun c => is_atom c && flat c) (pieces h v) = true.
Proof.
  destruct v; simpl; intros H; rewrite ?H; auto.
  apply andb_prop in H as [_ H]. unfold current.
  destruct (is_reversed h ref); [|exact H].
  apply forallb_forall. intros x Hx. apply in_rev in Hx.
  rewrite forallb_forall in H. auto.
Qed.

Lemma catenate_buf_flat h vs :
  Forall (fun v => flat v = true) vs ->
  forallb (fun c => is_atom c && flat c) (catenate_buf h vs) = true.
Proof.
  rewrite catenate_buf_pieces. induction 1 as [|v vs Hv _ IH]; simpl;
    [reflexivity|].
  rewrite forallb_app, (flat_pieces h v Hv), IH. reflexivity.
Qed.

Lemma catenate_normal vs h :
  Forall (fun v => flat v = true) vs -> normal (fst (catenate vs h)) = true.
Proof.
  intros H. apply (catenate_buf_flat h) in H. unfold catenate.
  destruct (catenate_buf h vs) as [|x xs]; [reflexivity|].
  unfold normal. cbn [fst alloc is_atom negb flat nonempty andb]. exact H.
Qed.

Lemma catenate_flat vs h v h' :
  catenate vs h = (v, h') -> Forall (fun v => flat v = true) vs ->
  flat v = true.
Proof.
  intros E H. apply (catenate_normal vs h) in H. rewrite E in H.
  unfold normal in H. apply andb_prop in H as [_ H]. exact H.
Qed.

Lemma getData_flat i s v :
  getData i s = inr v -> Forall (fun v => flat v = true) (data s) ->
  flat v = true.
Proof.
  unfold getData. intros H Hl.
  destruct (nth_error (data s) i) as [w|] eqn:E; [|discriminate].
  injection H as <-. apply nth_error_In in E.
  rewrite List.Forall_forall in Hl. auto.
Qed.

Lemma body_of_flat a b : body_of a = inr b -> flat a = true -> flat b = true.
Proof. destruct a; try discriminate. intros [= <-]. auto. Qed.

Lemma skipn_flat n (l : list Value) :
  Forall (fun v => flat v = true) l ->
  Forall (fun v => flat v = true) (skipn n l).
Proof.
  revert l. induction n as [|n IH]; intros l H; [exact H|].
  destruct H; simpl; auto.
Qed.

Lemma scan_reset_flat below index buf0 buf index' :
  scan_reset below index buf0 = (buf, index') ->
  Forall (fun v => flat v = true) below ->
  Forall (fun v => flat v = true) buf0 ->
  Forall (fun v => flat v = true) buf.
Proof.
  revert index buf0. induction below as [|c below IH]; intros index buf0 H Hb H0;
    simpl in H.
  - injection H as <- _. exact H0.
  - inversion Hb as [|? ? Hc Hb']; subst.
    assert (Hn : Forall (fun v => flat v = true) (buf0 ++ [c]))
      by (apply List.Forall_app; auto).
    destruct c; try (apply (IH _ _ H Hb' Hn)).
    destruct (decide _); [injection H as <- _; exact H0|].
    apply (IH _ _ H Hb' Hn).
Qed.

Lemma thunk_flat s :
  Forall (fun v => flat v = true) (code s) ->
  Forall (fun v => flat v = true) (data s) ->
  Forall (fun v => flat v = true) (sink s) ->
  Forall (fun v => flat v = true) (code (thunk s))
  /\ Forall (fun v => flat v = true) (data (thunk s))
  /\ Forall (fun v => flat v = true) (sink (thunk s)).
Proof.
  intros Hc Hd Hs. unfold thunk.
  assert (Hr : Forall (fun v => flat v = true) (rev (data s)))
    by (apply List.Forall_rev, Hd).
  destruct Hc as [|top below Ht Hb]; simpl;
    repeat split; auto; repeat (apply List.Forall_app; split); auto.
Qed.

Lemma lookup_flat (d : gmap jsstring Value) name binding :
  d !! name = Some binding -> flat_bindings (Some d) -> flat binding = true.
Proof. intros E H. exact (H name binding E). Qed.

Lemma insert_flat (d : gmap jsstring Value) name body :
  flat body = true -> flat_bindings (Some d) ->
  flat_bindings (Some (<[name := body]> d)).
Proof. intros Hb H. apply map_Forall_insert_2; assumption. Qed.

Lemma delete_flat (d : gmap jsstring Value) name :
  flat_bindings (Some d) -> flat_bindings (Some (delete name d)).
Proof. intros H. apply map_Forall_delete, H. Qed.

(** What the hypotheses of an outcome say about the values it names. *)
Ltac flat_facts :=
  repeat match goal with
         | Hg : getData _ _ = inr _ |- _ =>
             apply getData_flat in Hg; [|assumption]
         | Hb : body_of _ = inr _ |- _ =>
             apply body_of_flat in Hb; [|assumption]
         | Hs : scan_reset _ _ _ = _ |- _ =>
             apply scan_reset_flat in Hs;
             [|apply skipn_flat; assumption|constructor]
         | Hc : catenate _ _ = (_, _) |- _ =>
             apply catenate_flat in Hc;
             [|repeat first [assumption|constructor]]
         end.

Ltac flat_goal Hc Hd Hs :=
  unfold flat_machine; cbn [state heap dict code data sink];
  first [ destruct (thunk_flat _ Hc Hd Hs) as (? & ? & ?);
          repeat split; assumption
        | repeat split;
          repeat first [ assumption
                       | apply skipn_flat
                       | apply insert_flat
                       | apply delete_flat
                       | apply List.Forall_app; split
                       | apply List.Forall_rev
                       | constructor ] ].

Lemma step_flat hand below m m' f :
  code (state m) = hand :: below ->
  flat_machine m -> step hand m = inr (m', f) -> flat_machine m'.
Proof.
  intros Hcode (Hc & Hd & Hs & Hb) H.
  destruct hand as [|name|name|r cs|b|t|p]; simpl in H.
  - discriminate.
  - step_outcomes H; try discriminate H; try (injection H as <- <-);
      flat_facts; try (flat_goal Hc Hd Hs; fail).
  - cbv [popCode pushCode with_state suspend bind] in H.
    destruct (dict m) as [d|] eqn:Ed.
    + destruct (d !! name) as [binding|] eqn:El.
      * pose proof (lookup_flat d name binding El Hb) as Hv.
        split_inner H; try discriminate H; injection H as <- <-.
        flat_goal Hc Hd Hs; rewrite Ed; exact Hb.
      * injection H as <- <-. flat_goal Hc Hd Hs; rewrite Ed; exact Hb.
    + injection H as <- <-. flat_goal Hc Hd Hs; rewrite Ed; exact Hb.
  - assert (Hcs : forall hh,
              Forall (fun v => flat v = true) (current hh r cs)).
    { intros hh. rewrite Hcode in Hc. inversion Hc as [|? ? Hv _]; subst.
      pose proof (flat_pieces hh _ Hv) as P. simpl in P.
      apply List.Forall_forall. intros x Hx.
      rewrite forallb_forall in P. specialize (P x Hx).
      apply andb_prop in P as [_ P]. exact P. }
    cbv [popCode pushCode_array bind] in H. split_inner H;
      try discriminate H; injection H as <- <-.
    unfold flat_machine. cbn [state heap dict code data sink].
    repeat split; try assumption.
    apply List.Forall_app. split; [apply List.Forall_rev, Hcs|].
    apply skipn_flat, Hc.
  - cbv [popCode pushData with_state bind] in H. split_inner H;
      try discriminate H; injection H as <- <-.
    assert (Hv : flat (Quote b) = true)
      by (rewrite Hcode in Hc; inversion Hc; assumption).
    flat_goal Hc Hd Hs.
  - cbv [popCode pushData with_state bind] in H. split_inner H;
      try discriminate H; injection H as <- <-.
    flat_goal Hc Hd Hs.
  - unfold suspend in H. injection H as <- <-. flat_goal Hc Hd Hs.
Qed.

Lemma loop_flat gas m m' n :
  flat_machine m -> loop gas m = (inr m', n) -> flat_machine m'.
Proof.
  revert m n. induction gas as [|gas IH]; intros m n Hm H; simpl in H.
  - destruct (code (state m)); injection H as <- _; exact Hm.
  - destruct (code (state m)) as [|hand below] eqn:Hcode;
      [injection H as <- _; exact Hm|].
    destruct (step hand m) as [p|[m1 fl]] eqn:Hs; [discriminate|].
    pose proof (step_flat _ _ _ _ _ Hcode Hm Hs) as Hm1.
    destruct fl.
    + destruct (loop gas m1) as [r k] eqn:E. injection H as -> _.
      apply (IH _ _ Hm1 E).
    + injection H as <- _. exact Hm1.
Qed.

Lemma program_flat h :
  forall v, (token h v = true -> flat v = true)
            /\ (program h v = true -> flat v = true).
Proof.
  apply Value_nested_ind; simpl; try (split; auto; fail).
  - intros r cs IH. split; [discriminate|]. intros H.
    apply andb_prop in H as [H Hts]. apply andb_prop in H as [_ Hne].
    rewrite Hne. simpl. apply forallb_forall. intros x Hx.
    rewrite forallb_forall in Hts. specialize (Hts x Hx).
    rewrite List.Forall_forall in IH. destruct (IH x Hx) as [Ht _].
    rewrite (token_atom h x Hts), (Ht Hts). reflexivity.
  - intros b [_ IH]. split; [|discriminate]. intros H.
    apply IH. destruct b; try discriminate H; auto.
Qed.

(** X27.  Normal forms are kept.  When the initial value is flat (no
    [Catenate] in it is empty or holds an [Id] or a [Catenate]) and so
    are the bindings of the dictionary, the value that [evaluate] returns
    is [Id] or a flat [Catenate], and the bindings of the dictionary it
    leaves are flat.  What [read] returns is flat, so this holds for
    every source, and from one call to the next with the same
    dictionary. *)
Theorem evaluate_keeps_normal_forms :
  (forall init dictionary gas h res,
     flat init = true -> flat_bindings dictionary ->
     evaluate init dictionary gas h = inr res ->
     normal (value res) = true /\ flat_bindings (final_dictionary res))
  /\ (forall src dictionary gas h res,
        flat_bindings dictionary ->
        evaluate_source src dictionary gas h = inr res ->
        normal (value res) = true /\ flat_bindings (final_dictionary res)).
Proof.
  assert (E : forall init dictionary gas h res,
            flat init = true -> flat_bindings dictionary ->
            evaluate init dictionary gas h = inr res ->
            normal (value res) = true
            /\ flat_bindings (final_dictionary res)).
  { intros init dictionary gas h res Hi Hd. unfold evaluate.
    destruct (loop _ _) as [[p|m] n] eqn:L; [discriminate|]. cbn [fst bind].
    assert (H0 : flat_machine {| state := new_State init; heap := h;
                                 dict := dictionary |})
      by (repeat split; simpl; auto).
    destruct (loop_flat _ _ _ _ H0 L) as (Hc & Hdt & Hs & Hb).
    assert (N : normal (fst (residual m)) = true).
    { unfold residual. apply catenate_normal.
      repeat (apply List.Forall_app; split); auto.
      apply List.Forall_rev, Hdt. }
    destruct (residual m) as [v h']. intros [= <-]. simpl. auto. }
  split; [exact E|].
  intros src dictionary gas h res Hd. unfold evaluate_source.
  destruct (read src h) as [p|[v h1]] eqn:R; [discriminate|]. cbn [bind fst snd].
  apply E; [|exact Hd].
  apply (proj2 (program_flat h1 v)), (read_program _ _ _ _ R).
Qed.

Lemma evaluate_keeps_normal_forms_witness :
  exists res,
    evaluate_source (lit_q "[Copy] 'dup' Define [a] dup") (Some ∅) 20
      empty_heap = inr res
    /\ normal (value res) = true
    /\ flat_bindings (final_dictionary res).
Proof.
  assert (H : exists res,
             evaluate_source (lit_q "[Copy] 'dup' Define [a] dup") (Some ∅)
               20 empty_heap = inr res)
    by (vm_compute; eauto).
  destruct H as [res H]. exists res. split; [exact H|].
  apply (proj2 evaluate_keeps_normal_forms _ (Some ∅) _ _ _
           (map_Forall_empty _) H).
Defined.

(** * The extended variant *)

(** ** Gas *)

Lemma Extended_loop_0 m : Extended.loop 0 m = (inr m, 0%nat).
Proof. simpl. destruct (Extended.code (Extended.state m)); reflexivity. Qed.

Lemma Extended_loop_resume gas hand below d k h dic m' :
  Extended.step hand (Extended.machine (hand :: below) d k h dic)
  = inr (m', Resume) ->
  Extended.loop (S gas) (Extended.machine (hand :: below) d k h dic)
  = (fst (Extended.loop gas m'), S (snd (Extended.loop gas m'))).
Proof.
  intros H. unfold Extended.machine in *.
  cbn [Extended.loop Extended.state Extended.code]. rewrite H.
  destruct (Extended.loop gas m'). reflexivity.
Qed.

(** ** Sums and pairs *)

(** The three iterations of [Inl App]: [Inl] wraps the value, [App]
    takes the body of the sum, which is a [RunInl], and that chooses. *)
Lemma Extended_Inl_App l r a ds below k h d :
  Extended.loop 3
    (Extended.machine
       (Extended.Constant (lit "Inl") :: Extended.Constant (lit "App")
        :: below)
       (a :: Extended.Quote r :: Extended.Quote l :: ds) k h d)
  = (inr (Extended.machine (l :: below) (a :: ds) k h d), 3%nat).
Proof.
  assert (E1 : Extended.step (Extended.Constant (lit "Inl"))
                 (Extended.machine
                    (Extended.Constant (lit "Inl")
                     :: Extended.Constant (lit "App") :: below)
                    (a :: Extended.Quote r :: Extended.Quote l :: ds) k h d)
               = inr (Extended.machine
                        (Extended.Constant (lit "App") :: below)
                        (Extended.Inl a :: Extended.Quote r
                         :: Extended.Quote l :: ds) k h d, Resume))
    by reflexivity.
  rewrite (Extended_loop_resume _ _ _ _ _ _ _ _ E1).
  assert (E2 : Extended.step (Extended.Constant (lit "App"))
                 (Extended.machine
                    (Extended.Constant (lit "App") :: below)
                    (Extended.Inl a :: Extended.Quote r
                     :: Extended.Quote l :: ds) k h d)
               = inr (Extended.machine (Extended.RunInl a :: below)
                        (Extended.Quote r :: Extended.Quote l :: ds) k h d,
                      Resume))
    by reflexivity.
  rewrite (Extended_loop_resume _ _ _ _ _ _ _ _ E2).
  assert (E3 : Extended.step (Extended.RunInl a)
                 (Extended.machine (Extended.RunInl a :: below)
                    (Extended.Quote r :: Extended.Quote l :: ds) k h d)
               = inr (Extended.machine (l :: below) (a :: ds) k h d,
                      Resume))
    by reflexivity.
  rewrite (Extended_loop_resume _ _ _ _ _ _ _ _ E3), Extended_loop_0.
  reflexivity.
Qed.

Lemma Extended_Inr_App l r a ds below k h d :
  Extended.loop 3
    (Extended.machine
       (Extended.Constant (lit "Inr") :: Extended.Constant (lit "App")
        :: below)
       (a :: Extended.Quote r :: Extended.Quote l :: ds) k h d)
  = (inr (Extended.machine (r :: below) (a :: ds) k h d), 3%nat).
Proof.
  assert (E1 : Extended.step (Extended.Constant (lit "Inr"))
                 (Extended.machine
                    (Extended.Constant (lit "Inr")
                     :: Extended.Constant (lit "App") :: below)
                    (a :: Extended.Quote r :: Extended.Quote l :: ds) k h d)
               = inr (Extended.machine
                        (Extended.Constant (lit "App") :: below)
                        (Extended.Inr a :: Extended.Quote r
                         :: Extended.Quote l :: ds) k h d, Resume))
    by reflexivity.
  rewrite (Extended_loop_resume _ _ _ _ _ _ _ _ E1).
  assert (E2 : Extended.step (Extended.Constant (lit "App"))
                 (Extended.machine
                    (Extended.Constant (lit "App") :: below)
                    (Extended.Inr a :: Extended.Quote r
                     :: Extended.Quote l :: ds) k h d)
               = inr (Extended.machine (Extended.RunInr a :: below)
                        (Extended.Quote r :: Extended.Quote l :: ds) k h d,
                      Resume))
    by reflexivity.
  rewrite (Extended_loop_resume _ _ _ _ _ _ _ _ E2).
  assert (E3 : Extended.step (Extended.RunInr a)
                 (Extended.machine (Extended.RunInr a :: below)
                    (Extended.Quote r :: Extended.Quote l :: ds) k h d)
               = inr (Extended.machine (r :: below) (a :: ds) k h d,
                      Resume))
    by reflexivity.
  rewrite (Extended_loop_resume _ _ _ _ _ _ _ _ E3), Extended_loop_0.
  reflexivity.
Qed.

(** X22.  In the extended variant a sum is a value and [App] eliminates
    it: with [[l] [r] a] on the data stack, [Inl App] leaves [a] on the
    data stack and pushes [l] on the code stack, and [Inr App] pushes [r],
    in three iterations each.  Hence the program of the test suite,
    [[inl] [inr] [value] Inl App], renders [[value] inl] with any gas of
    9 or more. *)
Theorem Extended_sums_are_eliminated_by_App :
  (forall l r a ds below k h d,
     Extended.loop 3
       (Extended.machine
          (Extended.Constant (lit "Inl") :: Extended.Constant (lit "App")
           :: below)
          (a :: Extended.Quote r :: Extended.Quote l :: ds) k h d)
     = (inr (Extended.machine (l :: below) (a :: ds) k h d), 3%nat))
  /\ (forall l r a ds below k h d,
        Extended.loop 3
          (Extended.machine
             (Extended.Constant (lit "Inr") :: Extended.Constant (lit "App")
              :: below)
             (a :: Extended.Quote r :: Extended.Quote l :: ds) k h d)
        = (inr (Extended.machine (r :: below) (a :: ds) k h d), 3%nat))
  /\ (forall gas, (9 <= gas)%Z ->
        Extended.render
          (Extended.evaluate_source (lit "[inl] [inr] [value] Inl App")
             None gas empty_heap)
        = inr (lit "[value] inl")).
Proof.
  split; [exact Extended_Inl_App|]. split; [exact Extended_Inr_App|].
  intros gas Hgas.
  assert (C : gas = 9%Z \/ (10 <= gas)%Z) by lia.
  destruct C as [->|C]; [vm_compute; reflexivity|].
  rewrite (Extended_evaluate_source_more_gas _ None empty_heap 10 gas);
    first [vm_compute; reflexivity|vm_compute; lia|exact C].
Qed.

Lemma Extended_sums_are_eliminated_by_App_witness :
  Extended.render
    (Extended.evaluate_source (lit "[inl] [inr] [value] Inl App")
       None Extended.default_gas empty_heap)
  = inr (lit "[value] inl").
Proof.
  apply (proj2 (proj2 Extended_sums_are_eliminated_by_App)).
  unfold Extended.default_gas. lia.
Defined.

(** X23.  In the extended variant a pair is a value and [App] takes it
    apart: [Pair App] restores the two values it was made of, in three
    iterations and without making any array. *)
Theorem Extended_pairs_are_eliminated_by_App a b ds below k h d :
  Extended.loop 3
    (Extended.machine
       (Extended.Constant (lit "Pair") :: Extended.Constant (lit "App")
        :: below) (b :: a :: ds) k h d)
  = (inr (Extended.machine below (b :: a :: ds) k h d), 3%nat).
Proof.
  assert (E1 : Extended.step (Extended.Constant (lit "Pair"))
                 (Extended.machine
                    (Extended.Constant (lit "Pair")
                     :: Extended.Constant (lit "App") :: below)
                    (b :: a :: ds) k h d)
               = inr (Extended.machine
                        (Extended.Constant (lit "App") :: below)
                        (Extended.Pair a b :: ds) k h d, Resume))
    by reflexivity.
  rewrite (Extended_loop_resume _ _ _ _ _ _ _ _ E1).
  assert (E2 : Extended.step (Extended.Constant (lit "App"))
                 (Extended.machine
                    (Extended.Constant (lit "App") :: below)
                    (Extended.Pair a b :: ds) k h d)
               = inr (Extended.machine (Extended.RunPair a b :: below)
                        ds k h d, Resume))
    by reflexivity.
  rewrite (Extended_loop_resume _ _ _ _ _ _ _ _ E2).
  assert (E3 : Extended.step (Extended.RunPair a b)
                 (Extended.machine (Extended.RunPair a b :: below)
                    ds k h d)
               = inr (Extended.machine below (b :: a :: ds) k h d, Resume))
    by reflexivity.
  rewrite (Extended_loop_resume _ _ _ _ _ _ _ _ E3), Extended_loop_0.
  reflexivity.
Qed.

(** ** The reader of the extended variant *)

Lemma Extended_read_loop_nil source build stack h :
  Extended.read_loop source [] build stack h
  = match stack with
    | _ :: _ => inl (Extended.Unreadable source (lit "Unbalanced brackets"))
    | [] => inr (Extended.catenate build h)
    end.
Proof. rewrite Extended.read_loop_equation_1. reflexivity. Qed.

Lemma Extended_read_loop_cons source c src' build stack h :
  Extended.read_loop source (c :: src') build stack h
  = match Extended.read_body source c src' build stack h with
    | inl p => inl p
    | inr r =>
        Extended.read_loop source (Extended.rd_rest r) (Extended.rd_build r)
          (Extended.rd_stack r) (Extended.rd_heap r)
    end.
Proof.
  rewrite Extended.read_loop_equation_2. unfold inspect.
  generalize (@eq_refl _ (Extended.read_body source c src' build stack h)).
  generalize (Extended.read_body source c src' build stack h) at 2 4 5.
  intros [p|r] E; reflexivity.
Qed.

Lemma plain_app l1 l2 :
  forallb plain (l1 ++ l2) = forallb plain l1 && forallb plain l2.
Proof. apply forallb_app. Qed.

Lemma plain_rev l : forallb plain (rev l) = forallb plain l.
Proof.
  induction l as [|v l IH]; [reflexivity|]. simpl.
  rewrite forallb_app, IH. simpl. rewrite andb_true_r. apply andb_comm.
Qed.

Lemma plain_current h r cs :
  forallb plain (current h r cs) = forallb plain cs.
Proof. unfold current. destruct (is_reversed h r); [apply plain_rev|auto]. Qed.

Lemma Extended_catenate_buf_plain h vs :
  forallb plain vs = true ->
  forallb plain (Extended.catenate_buf h vs) = true.
Proof.
  induction vs as [|v vs IH]; simpl; [reflexivity|].
  intros H. apply andb_prop in H as [Hv H]. specialize (IH H).
  destruct v; cbn [Extended.catenate_buf];
    try (cbn [forallb]; rewrite Hv, IH; reflexivity); [exact IH|].
  rewrite forallb_app, plain_current, IH. simpl in Hv. rewrite Hv.
  reflexivity.
Qed.

Lemma Extended_catenate_plain h vs :
  forallb plain vs = true -> plain (fst (Extended.catenate vs h)) = true.
Proof.
  intros H. apply (Extended_catenate_buf_plain h) in H.
  unfold Extended.catenate.
  destruct (Extended.catenate_buf h vs); [reflexivity|exact H].
Qed.

Lemma Extended_closing_plain body :
  plain body = true ->
  plain match body with
        | Extended.Id => Extended.Unit
        | _ => Extended.Quote body
        end = true.
Proof. destruct body; auto. Qed.

Lemma Extended_read_body_plain source c src' b st h r :
  forallb plain b = true ->
  forallb (forallb plain) st = true ->
  Extended.read_body source c src' b st h = inr r ->
  forallb plain (Extended.rd_build r) = true
  /\ forallb (forallb plain) (Extended.rd_stack r) = true.
Proof.
  intros Hb Hst. unfold Extended.read_body.
  destruct (is_space c); [intros [= <-]; simpl; auto|].
  destruct (c =? LBRACKET);
    [intros [= <-]; simpl; rewrite Hb, Hst; auto|].
  destruct (c =? RBRACKET).
  { destruct st as [|parent st]; [discriminate|].
    simpl in Hst. apply andb_prop in Hst as [Hp Hst].
    pose proof (Extended_catenate_plain h b Hb) as Q.
    destruct (Extended.catenate b h) as [body h1]. intros [= <-]. simpl.
    split; [|exact Hst]. rewrite forallb_app, Hp. simpl.
    rewrite (Extended_closing_plain body Q). reflexivity. }
  destruct (c =? DQUOTE).
  { destruct (drop_while _ src'); [discriminate|]. intros [= <-]. simpl.
    rewrite forallb_app, Hb. auto. }
  destruct (c =? LBRACE).
  { destruct (drop_while _ src'); [discriminate|]. intros [= <-]. simpl.
    rewrite forallb_app, Hb. auto. }
  destruct (is_upper c).
  { destruct (matches_constant _); [|discriminate]. intros [= <-]. simpl.
    rewrite forallb_app, Hb. auto. }
  destruct (matches_variable _); [|discriminate]. intros [= <-]. simpl.
  rewrite forallb_app, Hb. auto.
Qed.

Lemma Extended_read_loop_plain n :
  forall source src b st h v h',
    (length src <= n)%nat ->
    forallb plain b = true ->
    forallb (forallb plain) st = true ->
    Extended.read_loop source src b st h = inr (v, h') ->
    plain v = true.
Proof.
  induction n as [|n IH]; intros source src b st h v h' Hn Hb Hst H.
  - destruct src; [|simpl in Hn; lia].
    rewrite Extended_read_loop_nil in H. destruct st; [|discriminate].
    injection H as H. pose proof (Extended_catenate_plain h b Hb) as P.
    rewrite H in P. exact P.
  - destruct src as [|c src'].
    + rewrite Extended_read_loop_nil in H. destruct st; [|discriminate].
      injection H as H. pose proof (Extended_catenate_plain h b Hb) as P.
      rewrite H in P. exact P.
    + rewrite Extended_read_loop_cons in H.
      destruct (Extended.read_body source c src' b st h) as [p|r] eqn:E;
        [discriminate|].
      destruct (Extended_read_body_plain _ _ _ _ _ _ _ Hb Hst E)
        as [Hb' Hst'].
      pose proof (Extended.read_body_consumes _ _ _ _ _ _ _ E) as Hl.
      apply (IH source (Extended.rd_rest r) (Extended.rd_build r)
               (Extended.rd_stack r) (Extended.rd_heap r) v h');
        [simpl in *; lia|exact Hb'|exact Hst'|exact H].
Qed.

(** X24.  In the extended variant no source denotes a sum or a pair: what
    [read] returns holds no [Inl], [Inr], [Pair], [RunInl], [RunInr] or
    [RunPair] at any depth, and no quote of [Id], since empty brackets
    read as [Unit].  Sums and pairs are made by [evaluate] only, and they
    print with the names [J], [K] and [L], which read as constants. *)
Theorem Extended_read_is_plain src h v h' :
  Extended.read src h = inr (v, h') -> plain v = true.
Proof.
  apply (Extended_read_loop_plain (length src) src src [] [] h v h');
    auto.
Qed.

Lemma Extended_read_is_plain_witness :
  Extended.read (lit "[] [a] J") empty_heap
  = inr (Extended.Catenate 1
           [Extended.Unit;
            Extended.Quote (Extended.Catenate 0 [Extended.Var (lit "a")]);
            Extended.Constant (lit "J")],
         snd (alloc (snd (alloc empty_heap))))
  /\ plain (Extended.Catenate 1
              [Extended.Unit;
               Extended.Quote (Extended.Catenate 0 [Extended.Var (lit "a")]);
               Extended.Constant (lit "J")]) = true.
Proof.
  assert (H : Extended.read (lit "[] [a] J") empty_heap
              = inr (Extended.Catenate 1
                       [Extended.Unit;
                        Extended.Quote
                          (Extended.Catenate 0 [Extended.Var (lit "a")]);
                        Extended.Constant (lit "J")],
                     snd (alloc (snd (alloc empty_heap)))))
    by (vm_compute; reflexivity).
  split; [exact H|]. exact (Extended_read_is_plain _ _ _ _ H).
Defined.

(** ** The marks of sums and pairs *)

Lemma Extended_dispatch_mark name m :
  In name [lit "J"; lit "K"; lit "L"; lit "H"] ->
  Extended.dispatch name m = inr (m, Resume).
Proof.
  intros [<-|[<-|[<-|[<-|[]]]]]; reflexivity.
Qed.

(** X25.  In the extended variant the names [J], [K], [L] and [H], with
    which sums, pairs and their running forms print, are not words: the
    [switch] has no case for them and no [default], so a program with one
    of them on top of the code stack is left as it is and every unit of
    gas is spent on it.  What [evaluate] prints for a sum or a pair
    therefore does not evaluate to it when it is sent back. *)
Theorem Extended_marks_are_not_words name below ds k h d gas :
  In name [lit "J"; lit "K"; lit "L"; lit "H"] ->
  Extended.loop gas
    (Extended.machine (Extended.Constant name :: below) ds k h d)
  = (inr (Extended.machine (Extended.Constant name :: below) ds k h d),
     gas).
Proof.
  intros Hn. induction gas as [|gas IH]; [reflexivity|].
  rewrite (Extended_loop_resume gas (Extended.Constant name) below ds k h d
             _ (Extended_dispatch_mark name _ Hn)).
  rewrite IH. reflexivity.
Qed.

Lemma Extended_marks_are_not_words_witness :
  Extended.render
    (Extended.evaluate_source (lit "[a] Inl") None 10 empty_heap)
  = inr (lit "[a] J")
  /\ Extended.loop 10
       (Extended.machine [Extended.Constant (lit "J")]
          [Extended.Quote (Extended.Catenate 0 [Extended.Var (lit "a")])]
          [] empty_heap None)
     = (inr (Extended.machine [Extended.Constant (lit "J")]
               [Extended.Quote (Extended.Catenate 0 [Extended.Var (lit "a")])]
               [] empty_heap None), 10%nat).
Proof.
  split; [vm_compute; reflexivity|].
  apply (Extended_marks_are_not_words (lit "J")). simpl. auto.
Defined.
